(** * AnonTokyo: the two-pass compiler and the stepping engine

    A shallow embedding of [src/type.ts], [src/utils.ts], [src/compile.ts]
    and [src/interpreter.ts].

    Conventions of the embedding.
    - JS values are the first-order ones the interpreter itself handles
      ([undefined], [null], booleans, integer-valued numbers, strings);
      a [Record<string, any>] is a finite map from strings to values.
    - A host expression [(scope) => any] may mutate the scope it is given,
      so it is a function from a scope to a value and the scope afterwards.
      [await] is sequencing: execution is single threaded.
    - Flow nodes are JS objects.  The edges along which a node owns its
      children ([nodes], [branches], [otherwise], [main], [body]) form a tree
      and are embedded as subterms.  The [next] edges are references, read
      only through [next.id]; they are embedded as object identities
      (allocation numbers, type [oid]).  The mutable [id] field of the
      objects is kept apart, in a finite map from identities to ids that the
      labelling walk fills; an object the walk never visits keeps [-1].
    - A thrown exception is the [Throw] result; loops of emitted code and of
      the stepper take fuel. *)

From Stdlib Require Import ZArith Ascii String List Lia DecimalString.
From stdpp Require Import base gmap strings list.

Local Open Scope string_scope.
Local Open Scope list_scope.
Local Open Scope Z_scope.

(* Statements and flow nodes are nested in lists, pairs and options; their
   induction principles are stated below by hand. *)
Local Set Warnings "-register-all".

(** ** Results of fallible computations *)

Inductive Error : Type :=
| DuplicateLabel (label : string)          (* `duplicate label ${label}` *)
| UndefLabel                               (* `undef label ${to}` *)
| UnexceptedBreak                          (* `unexcepted break` *)
| UnexceptedContinue                       (* `unexcepted continue` *)
| UnknownStatementType                     (* "unknown statement type" *)
| UnexceptNode                             (* "unexcept node" *)
| UnexceptJitNode                          (* "unexcept jit node, extern call can't emit jit" *)
| NotImplement                             (* "not impelement" *)
| MissingGlobalFunction (name : string)
| MissingBuiltInFunction (name : string)
| ThrownId (id : Z)                        (* execNode: `throw id` *)
| TypeError (what : string)
| ReferenceError (name : string)
| SyntaxError (what : string)
| Unsupported (what : string).             (* JS outside the embedded fragment *)

Inductive Result (A : Type) : Type :=
| OK (a : A)
| Throw (e : Error)
| OutOfFuel.
Arguments OK {A} a.
Arguments Throw {A} e.
Arguments OutOfFuel {A}.

Definition State (S A : Type) : Type := S -> Result (A * S).

Definition ret {S A} (a : A) : State S A := fun s => OK (a, s).
Definition throw {S A} (e : Error) : State S A := fun _ => Throw e.
Definition bind {S A B} (c : State S A) (k : A -> State S B) : State S B :=
  fun s => match c s with
           | OK (a, s') => k a s'
           | Throw e => Throw e
           | OutOfFuel => OutOfFuel
           end.
Definition get {S} : State S S := fun s => OK (s, s).
Definition modify {S} (f : S -> S) : State S unit := fun s => OK (tt, f s).

Notation "x <- c ;; k" := (bind c (fun x => k))
  (at level 100, c at next level, right associativity).
Notation "c ;;; k" := (bind c (fun _ => k))
  (at level 100, right associativity).

(** ** type.ts: values, scopes, statements *)

Inductive JsVal : Type :=
| VUndefined
| VNull
| VBool (b : bool)
| VNum (n : Z)
| VStr (s : string).

Global Instance JsVal_eq_dec : EqDecision JsVal.
Proof. solve_decision. Defined.

Record Scope : Type := mkScope {
  args : gmap string JsVal;
  local : gmap string JsVal;
  env : gmap string JsVal;
}.

Inductive Literal : Type :=
| LStr (s : string)
| LNum (n : Z)
| LBool (b : bool)
| LNull.

Definition Expression : Type := Scope -> JsVal * Scope.

Inductive Value : Type :=
| Lit (l : Literal)
| Fun (e : Expression).

Definition literal (l : Literal) : JsVal :=
  match l with
  | LStr s => VStr s
  | LNum n => VNum n
  | LBool b => VBool b
  | LNull => VNull
  end.

(** JS truthiness, strict equality and [isFunction]. *)
Definition truthy (v : JsVal) : bool :=
  match v with
  | VUndefined | VNull => false
  | VBool b => b
  | VNum n => negb (n =? 0)
  | VStr s => negb (String.eqb s "")
  end.

Definition strictEq (a b : JsVal) : bool := bool_decide (a = b).

Definition isFunction (v : Value) : bool :=
  match v with Fun _ => true | Lit _ => false end.

(** [statement.label] used as a condition: absent and the empty string are
    both falsy. *)
Definition labelOf (label : option string) : option string :=
  match label with
  | Some l => if String.eqb l "" then None else Some l
  | None => None
  end.

(** The [type] tags that [toFlowNode] has no case for: the members [Block]
    and [FunctionDeclare] of [StatementType], and any value that is no
    member of the enum. *)
Inductive OtherStatementType : Type :=
| TBlock
| TFunctionDeclare
| TUnlisted.

(** The statements of [type.ts]; [save] of a call, which nothing reads, is
    left out.  [OtherStatement] stands for an object with one of the other
    tags. *)
Inductive Statement : Type :=
| ExpressionStatement (expression : Expression) (async : bool)
| CallStatement (functionName : string) (parameters : list (string * Value))
    (builtIn async : bool)
| ReturnStatement (value : option Value)
| IfStatement (branches : list (Expression * list Statement))
    (otherwise : option (list Statement))
| SwitchStatement (pattern : Expression)
    (branches : list (Expression * list Statement))
    (otherwise : option (list Statement))
| LoopStatement (skipInitialCheck : bool)
    (initializer condition iterator : option Expression)
    (label : option string) (body : list Statement)
| BreakStatement (label : option string)
| ContinueStatement
| ExitStatement
| OtherStatement (type : OtherStatementType).

Definition Block : Type := list Statement.

(** ** type.ts: flow nodes *)

Definition oid : Type := nat.

Inductive FlowNode : Type :=
| NormalFlowNode (self : oid) (statement : Statement) (next : oid) (mergable : bool)
| ExternCallFlowNode (self : oid) (statement : Statement) (next : oid) (mergable : bool)
| ReturnFlowNode (self : oid) (statement : Statement) (mergable : bool)
| IfFlowNode (self : oid) (statement : Statement)
    (branches : list (Expression * FlowNode)) (otherwise : option FlowNode)
    (mergable : bool) (next : oid)
| SwitchFlowNode (self : oid) (statement : Statement)
    (branches : list (Expression * FlowNode)) (otherwise : option FlowNode)
    (mergable : bool) (next : oid)
| LoopFlowNode (self : oid) (statement : Statement) (body : FlowNode)
    (next : oid) (mergable : bool)
| LoopInitializerFlowNode (self : oid) (main : FlowNode) (mergable : bool)
| JumpFlowNode (self : oid) (statement : Statement) (next : oid) (mergable : bool)
| ExitFlowNode (self : oid) (statement : Statement) (mergable : bool)
| BlockFlowNode (self : oid) (nodes : list FlowNode) (next : oid) (mergable : bool).

Definition self (node : FlowNode) : oid :=
  match node with
  | NormalFlowNode s _ _ _ | ExternCallFlowNode s _ _ _ | ReturnFlowNode s _ _
  | IfFlowNode s _ _ _ _ _ | SwitchFlowNode s _ _ _ _ _ | LoopFlowNode s _ _ _ _
  | LoopInitializerFlowNode s _ _ | JumpFlowNode s _ _ _ | ExitFlowNode s _ _
  | BlockFlowNode s _ _ _ => s
  end.

Definition mergable (node : FlowNode) : bool :=
  match node with
  | NormalFlowNode _ _ _ m | ExternCallFlowNode _ _ _ m | ReturnFlowNode _ _ m
  | IfFlowNode _ _ _ _ m _ | SwitchFlowNode _ _ _ _ m _ | LoopFlowNode _ _ _ _ m
  | LoopInitializerFlowNode _ _ m | JumpFlowNode _ _ _ m | ExitFlowNode _ _ m
  | BlockFlowNode _ _ _ m => m
  end.

(** ** compile.ts: flowAnalyzePass *)

(** What the closures of [flowAnalyzePass] share while lowering: the
    allocator of object identities, [labelMap] and [breakableNodeStack]
    (its top is the head of the list). *)
Record Lowering : Type := mkLowering {
  allocated : nat;
  labelMap : gmap string oid;
  breakableNodeStack : list oid;
}.

Definition Lower (A : Type) : Type := State Lowering A.

Definition alloc : Lower oid :=
  fun st => OK (allocated st,
                mkLowering (S (allocated st)) (labelMap st) (breakableNodeStack st)).

Definition setLabel (label : string) (node : oid) : Lower unit :=
  modify (fun st => mkLowering (allocated st) (<[label := node]> (labelMap st))
                               (breakableNodeStack st)).
Definition deleteLabel (label : string) : Lower unit :=
  modify (fun st => mkLowering (allocated st) (delete label (labelMap st))
                               (breakableNodeStack st)).
Definition pushBreakable (node : oid) : Lower unit :=
  modify (fun st => mkLowering (allocated st) (labelMap st)
                               (node :: breakableNodeStack st)).
Definition popBreakable : Lower unit :=
  modify (fun st => mkLowering (allocated st) (labelMap st)
                               (tail (breakableNodeStack st))).

Section ToBlockFlowNode.
Variable toFlowNode : Statement -> oid -> Lower FlowNode.

(** The [toReversed().map(...).toReversed()] of [toBlockFlowNode]: the
    statements are lowered last to first, each with the node made just
    before as its successor; the result is in source order, with the
    final value of [last]. *)
Fixpoint lowerStatements (statements : list Statement) (successor : oid)
  : Lower (list FlowNode * oid) :=
  match statements with
  | [] => ret ([], successor)
  | statement :: rest =>
      lowered <- lowerStatements rest successor ;;
      let '(nodes, last) := lowered in
      node <- toFlowNode statement last ;;
      ret (node :: nodes, self node)
  end.

Definition toBlockFlowNode (statements : list Statement) (successor : oid)
  : Lower FlowNode :=
  lowered <- lowerStatements statements successor ;;
  let '(nodes, _) := lowered in
  block <- alloc ;;
  ret (BlockFlowNode block nodes successor (forallb mergable nodes)).

(** The branches of an If: every body is lowered with the same successor. *)
Fixpoint lowerIfBranches (branches : list (Expression * list Statement))
    (successor : oid) : Lower (list (Expression * FlowNode)) :=
  match branches with
  | [] => ret []
  | (condition, body) :: rest =>
      node <- toBlockFlowNode body successor ;;
      flowRest <- lowerIfBranches rest successor ;;
      ret ((condition, node) :: flowRest)
  end.

(** The branches of a Switch, last to first: [last] is first replaced by a
    lowering of the body, and the branch's own node is a second lowering
    of the same body whose successor is that first one. *)
Fixpoint lowerSwitchBranches (branches : list (Expression * list Statement))
    (last0 : oid) : Lower (list (Expression * FlowNode) * oid) :=
  match branches with
  | [] => ret ([], last0)
  | (condition, body) :: rest =>
      lowered <- lowerSwitchBranches rest last0 ;;
      let '(flowRest, last) := lowered in
      chained <- toBlockFlowNode body last ;;
      node <- toBlockFlowNode body (self chained) ;;
      ret ((condition, node) :: flowRest, self chained)
  end.

Definition lowerOtherwise (otherwise : option (list Statement)) (successor : oid)
  : Lower (option FlowNode) :=
  match otherwise with
  | Some statements =>
      node <- toBlockFlowNode statements successor ;; ret (Some node)
  | None => ret None
  end.
End ToBlockFlowNode.

Definition branchesMergable (branches : list (Expression * FlowNode))
    (otherwise : option FlowNode) : bool :=
  forallb (fun branch => mergable (snd branch)) branches
  && match otherwise with Some node => mergable node | None => true end.

Fixpoint toFlowNode (statement : Statement) (successor : oid) {struct statement}
  : Lower FlowNode :=
  match statement with
  | ExpressionStatement _ _ =>
      node <- alloc ;; ret (NormalFlowNode node statement successor true)
  | CallStatement _ _ builtIn _ =>
      node <- alloc ;;
      if builtIn then ret (NormalFlowNode node statement successor true)
      else ret (ExternCallFlowNode node statement successor false)
  | ReturnStatement _ =>
      node <- alloc ;; ret (ReturnFlowNode node statement true)
  | IfStatement branches otherwise =>
      flowBranches <- lowerIfBranches toFlowNode branches successor ;;
      flowOtherwise <- lowerOtherwise toFlowNode otherwise successor ;;
      node <- alloc ;;
      ret (IfFlowNode node statement flowBranches flowOtherwise
             (branchesMergable flowBranches flowOtherwise) successor)
  | SwitchStatement _ branches otherwise =>
      flowOtherwise <- lowerOtherwise toFlowNode otherwise successor ;;
      let last := match flowOtherwise with
                  | Some node => self node
                  | None => successor
                  end in
      lowered <- lowerSwitchBranches toFlowNode branches last ;;
      let '(flowBranches, _) := lowered in
      node <- alloc ;;
      ret (SwitchFlowNode node statement flowBranches flowOtherwise
             (branchesMergable flowBranches flowOtherwise) successor)
  | LoopStatement skipInitialCheck initializer _ _ label body =>
      (* [loopNode] gets its identity first, after the placeholder body;
         the node itself is built when its body is known: until then the
         source reads nothing of it but its identity. *)
      _ <- toBlockFlowNode toFlowNode [] successor ;;
      loopNode <- alloc ;;
      match labelOf label with
      | Some l =>
          st <- get ;;
          match labelMap st !! l with
          | Some _ => throw (DuplicateLabel l)
          | None => setLabel l loopNode
          end
      | None => ret tt
      end ;;;
      pushBreakable loopNode ;;;
      flowBody <- toBlockFlowNode toFlowNode body loopNode ;;
      match labelOf label with
      | Some l => deleteLabel l
      | None => ret tt
      end ;;;
      popBreakable ;;;
      let loop := LoopFlowNode loopNode statement flowBody successor
                    (mergable flowBody) in
      match initializer with
      | Some _ =>
          initializerNode <- alloc ;;
          ret (LoopInitializerFlowNode initializerNode loop true)
      | None => if skipInitialCheck then ret flowBody else ret loop
      end
  | BreakStatement label =>
      st <- get ;;
      match labelOf label with
      | Some l =>
          match labelMap st !! l with
          | None => throw UndefLabel
          | Some to =>
              node <- alloc ;; ret (JumpFlowNode node statement to true)
          end
      | None =>
          match breakableNodeStack st with
          | [] => throw UnexceptedBreak
          | to :: _ =>
              node <- alloc ;; ret (JumpFlowNode node statement to true)
          end
      end
  | ContinueStatement =>
      st <- get ;;
      match breakableNodeStack st with
      | [] => throw UnexceptedContinue
      | to :: _ =>
          node <- alloc ;; ret (JumpFlowNode node statement to true)
      end
  | ExitStatement =>
      node <- alloc ;; ret (ExitFlowNode node statement true)
  | OtherStatement _ => throw UnknownStatementType
  end.

(** The labelling walk: [flowNodeMap] and the [id] fields. *)
Record Labelling : Type := mkLabelling {
  flowNodeMap : list oid;
  ids : gmap oid Z;
}.

Definition idOf (ids : gmap oid Z) (node : oid) : Z := default (-1) (ids !! node).

Definition addNode (node : FlowNode) : State Labelling unit :=
  modify (fun st =>
    mkLabelling (flowNodeMap st ++ [self node])
                (<[self node := Z.of_nat (length (flowNodeMap st))]> (ids st))).

Section ForEach.
Context {S A : Type} (f : A -> State S unit).
Fixpoint forEach (l : list A) : State S unit :=
  match l with
  | [] => ret tt
  | x :: rest => f x ;;; forEach rest
  end.
End ForEach.

Fixpoint labelingFlowNode (node : FlowNode) : State Labelling unit :=
  match node with
  | NormalFlowNode _ _ _ _ | ReturnFlowNode _ _ _ | JumpFlowNode _ _ _ _
  | ExitFlowNode _ _ _ => addNode node
  | ExternCallFlowNode _ _ _ _ => addNode node
  | IfFlowNode _ _ branches otherwise _ _
  | SwitchFlowNode _ _ branches otherwise _ _ =>
      addNode node ;;;
      forEach (fun branch => labelingFlowNode (snd branch)) branches ;;;
      match otherwise with
      | Some block => labelingFlowNode block
      | None => ret tt
      end
  | LoopInitializerFlowNode _ main _ =>
      addNode node ;;; labelingFlowNode main
  | LoopFlowNode _ _ body _ _ =>
      addNode node ;;; labelingFlowNode body
  | BlockFlowNode block nodes _ _ =>
      forEach labelingFlowNode nodes ;;;
      match nodes with
      | [] => throw (TypeError "node.nodes[0] is undefined")
      | first :: _ =>
          modify (fun st => mkLabelling (flowNodeMap st)
                    (<[block := idOf (ids st) (self first)]> (ids st)))
      end
  end.

(** [root.nodes.push(implicitReturnNode)] *)
Definition pushNode (block node : FlowNode) : FlowNode :=
  match block with
  | BlockFlowNode s nodes next m => BlockFlowNode s (nodes ++ [node]) next m
  | _ => block
  end.

(** The lowering of [flowAnalyzePass]: [implicitReturnNode], [root], and the
    push of the former onto the latter. *)
Definition lowerRoot (program : Block) : Lower FlowNode :=
  implicitReturn <- alloc ;;
  root <- toBlockFlowNode toFlowNode program implicitReturn ;;
  ret (pushNode root (ReturnFlowNode implicitReturn (ReturnStatement None) true)).

Definition flowAnalyzePass (program : Block) : Result (FlowNode * gmap oid Z) :=
  match lowerRoot program (mkLowering 0 ∅ []) with
  | OK (root, _) =>
      match labelingFlowNode root (mkLabelling [] ∅) with
      | OK (_, st) => OK (root, ids st)
      | Throw e => Throw e
      | OutOfFuel => OutOfFuel
      end
  | Throw e => Throw e
  | OutOfFuel => OutOfFuel
  end.

(** ** utils.ts *)

Definition splitArray {T : Type} (array : list T) (predictor : T -> bool)
  : list (list T) :=
  fold_left
    (fun chunks item =>
       if predictor item then chunks ++ [[item]] ++ [[]]
       else removelast chunks ++ [List.last chunks [] ++ [item]])
    array [[]].

(** ** type.ts: opcodes and execution nodes *)

Inductive OP : Type :=
| Move (next : Z)
| Call (name : string) (parameters : gmap string JsVal) (next : Z)
| Return (returnValue : JsVal)
| Exit.

(** A step gets fuel (a fused step may loop) and the scope; it gives the
    opcode, or [None] when the JS function returns [undefined], and the
    scope as the step leaves it. *)
Definition ExecutionNode : Type := nat -> Scope -> Result (option OP * Scope).

Record BuiltInFunction : Type := mkBuiltIn {
  name : string;
  func : gmap string JsVal -> gmap string JsVal -> JsVal * gmap string JsVal;
}.

Definition setEnv (scope : Scope) (e : gmap string JsVal) : Scope :=
  mkScope (args scope) (local scope) e.

(** [builtFunc.func(statementParameters, scope.env)] *)
Definition callBuiltIn (builtFunc : BuiltInFunction)
    (statementParameters : gmap string JsVal) (scope : Scope) : Scope :=
  setEnv scope (snd (func builtFunc statementParameters (env scope))).

(** [mapValues(statement.parameters, (value) => isFunction(value) ?
    value(scope) : value)], the keys visited in order. *)
Fixpoint mapValues (parameters : list (string * Value))
    (acc : gmap string JsVal) (scope : Scope) : gmap string JsVal * Scope :=
  match parameters with
  | [] => (acc, scope)
  | (k, Fun value) :: rest =>
      let '(v, scope') := value scope in mapValues rest (<[k := v]> acc) scope'
  | (k, Lit value) :: rest => mapValues rest (<[k := literal value]> acc) scope
  end.

(** ** compile.ts: the code that emitJITCode writes

    [emitJITCode] builds JS source text and [new AsyncFunction] compiles it.
    The text is embedded by its syntax tree.  [JsSpliced e] is the text
    [(body)] that [emitJITExpression] cuts out of the source of [e], which
    is taken to be an arrow function over [{ local, args, env }] whose body
    is one expression without a further [=>]: inside the compiled function,
    whose parameters are [{ local, args, env }] and [helper], the text
    evaluates like [e] applied to the scope.  An expression written
    otherwise ([(scope) => ...], a body in braces, a body that names a
    variable of an enclosing function, a function that is no arrow) is
    outside the embedding: in the code its text throws, or is no
    expression.  [JsText code] is text that a
    template literal builds from a value that is not a function.  Function
    names and parameter names are taken to be identifiers, as the emitted
    [helper.builtIn.name] and ["key":] need them to be. *)

Inductive JsExpr : Type :=
| JsSpliced (e : Expression)
| JsText (code : string).

Inductive JsOp : Type :=
| JsMove (id : Z)               (* `return [${OPType.Move}, ${id}];` *)
| JsReturnValue (e : JsExpr)    (* `return [${OPType.Return}, ${e}];` *)
| JsExit.                       (* `return [${OPType.Exit}];` *)

Inductive JsStmt : Type :=
| JsExpression (e : JsExpr)
| JsBuiltIn (functionName : string) (f : BuiltInFunction)
    (parameters : list (string * JsExpr))
| JsReturn (op : JsOp)
| JsIf (branches : list (JsExpr * JsStmt)) (otherwise : option JsStmt)
| JsSwitch (pattern : JsExpr) (branches : list (JsExpr * JsStmt))
    (otherwise : option JsStmt)
| JsFor (initializer condition iterator : option JsExpr) (body : JsStmt)
| JsDoWhile (initializer : option JsExpr) (body : JsStmt)
    (iterator condition : option JsExpr)
| JsBreak (label : option string)
| JsContinue
| JsBlock (statements : list JsStmt).

(** [`${v}`] for a literal and for [undefined]. *)
Definition toString (v : option Literal) : string :=
  match v with
  | None => "undefined"
  | Some (LStr s) => s
  | Some (LNum n) => NilZero.string_of_int (Z.to_int n)
  | Some (LBool true) => "true"
  | Some (LBool false) => "false"
  | Some LNull => "null"
  end.

Definition emitJITExpression (expression : Expression) : JsExpr :=
  JsSpliced expression.

Definition emitJITValue (v : Value) : JsExpr :=
  match v with
  | Fun e => emitJITExpression e
  | Lit l => JsText (toString (Some l))
  end.

Definition bindR {A B} (c : Result A) (k : A -> Result B) : Result B :=
  match c with
  | OK a => k a
  | Throw e => Throw e
  | OutOfFuel => OutOfFuel
  end.
Notation "x <~ c ;; k" := (bindR c (fun x => k))
  (at level 100, c at next level, right associativity).

Section MapR.
Context {A B : Type} (f : A -> Result B).
Fixpoint mapR (l : list A) : Result (list B) :=
  match l with
  | [] => OK []
  | x :: rest => y <~ f x ;; ys <~ mapR rest ;; OK (y :: ys)
  end.
End MapR.

Section EmitJIT.
Variable ids : gmap oid Z.
Variable getBuiltInFunction : string -> Result BuiltInFunction.
(** [entry.id] *)
Variable entry : Z.

Fixpoint emitJITCode (node : FlowNode) : Result JsStmt :=
  match node with
  | NormalFlowNode _ statement _ _ =>
      match statement with
      | ExpressionStatement expression _ =>
          OK (JsExpression (emitJITExpression expression))
      | CallStatement functionName parameters true _ =>
          f <~ getBuiltInFunction functionName ;;
          OK (JsBuiltIn functionName f
                (map (fun kv => (fst kv, emitJITValue (snd kv))) parameters))
      | _ => Throw UnexceptNode
      end
  | ExternCallFlowNode _ _ _ _ => Throw UnexceptJitNode
  | ReturnFlowNode _ statement _ =>
      match statement with
      | ReturnStatement (Some (Fun value)) =>
          OK (JsReturn (JsReturnValue (emitJITExpression value)))
      | ReturnStatement (Some (Lit value)) =>
          OK (JsReturn (JsReturnValue (JsText (toString (Some value)))))
      | _ => OK (JsReturn (JsReturnValue (JsText (toString None))))
      end
  | IfFlowNode _ _ branches otherwise _ _ =>
      branchList <~ mapR (fun branch =>
                            code <~ emitJITCode (snd branch) ;;
                            OK (emitJITExpression (fst branch), code))
                         branches ;;
      otherwiseCode <~ match otherwise with
                       | Some block => code <~ emitJITCode block ;; OK (Some code)
                       | None => OK None
                       end ;;
      OK (JsIf branchList otherwiseCode)
  | SwitchFlowNode _ statement branches otherwise _ _ =>
      branchList <~ mapR (fun branch =>
                            code <~ emitJITCode (snd branch) ;;
                            OK (emitJITExpression (fst branch), code))
                         branches ;;
      otherwiseCode <~ match otherwise with
                       | Some block => code <~ emitJITCode block ;; OK (Some code)
                       | None => OK None
                       end ;;
      match statement with
      | SwitchStatement pattern _ _ =>
          OK (JsSwitch (emitJITExpression pattern) branchList otherwiseCode)
      | _ => Throw (TypeError "node.statement.pattern")
      end
  | LoopInitializerFlowNode _ main _ => emitJITCode main
  | LoopFlowNode _ statement body _ _ =>
      match statement with
      | LoopStatement skipInitialCheck initializer condition iterator _ _ =>
          let initializerCode := option_map emitJITExpression initializer in
          let iteratorCode := option_map emitJITExpression iterator in
          let conditionCode := option_map emitJITExpression condition in
          bodyCode <~ emitJITCode body ;;
          if skipInitialCheck
          then OK (JsDoWhile initializerCode bodyCode iteratorCode conditionCode)
          else OK (JsFor initializerCode conditionCode iteratorCode bodyCode)
      | _ => Throw (TypeError "node.statement")
      end
  | JumpFlowNode _ statement next _ =>
      if idOf ids next <? entry then OK (JsReturn (JsMove (idOf ids next)))
      else match statement with
           | BreakStatement label => OK (JsBreak (labelOf label))
           | _ => OK JsContinue
           end
  | BlockFlowNode _ nodes _ _ =>
      codes <~ mapR emitJITCode nodes ;; OK (JsBlock codes)
  | ExitFlowNode _ _ _ => OK (JsReturn JsExit)
  end.
End EmitJIT.

(** ** What JS does with the emitted code

    Text built from a literal is read back by the JS parser: the text of a
    number, [true], [false], [null] and [undefined] denote themselves; any
    other identifier is a variable reference, and no variable of the
    compiled function has the name (its own are [local], [args], [env] and
    [helper]); the host is taken to define no global of that name.  Other
    text is outside the embedded fragment. *)

Inductive TextKind : Type :=
| TextValue (v : JsVal)
| TextIdentifier (name : string)
| TextEmpty
| TextOther.

Definition isIdentifierStart (c : ascii) : bool :=
  let n := nat_of_ascii c in
  ((65 <=? n) && (n <=? 90) || (97 <=? n) && (n <=? 122)
   || (n =? 95) || (n =? 36))%nat.
Definition isIdentifierPart (c : ascii) : bool :=
  let n := nat_of_ascii c in
  (isIdentifierStart c || (48 <=? n) && (n <=? 57))%nat.

Definition isIdentifier (code : string) : bool :=
  match code with
  | EmptyString => false
  | String c rest =>
      isIdentifierStart c && forallb isIdentifierPart (list_ascii_of_string rest)
  end.

(** Names that are identifiers in shape and not free variables. *)
Definition boundOrReserved : list string :=
  ["local"; "args"; "env"; "helper"; "arguments"; "this"; "await"; "NaN";
   "Infinity"; "globalThis"; "eval"; "break"; "case"; "catch"; "class";
   "const"; "continue"; "debugger"; "default"; "delete"; "do"; "else";
   "export"; "extends"; "finally"; "for"; "function"; "if"; "import"; "in";
   "instanceof"; "new"; "return"; "super"; "switch"; "throw"; "try";
   "typeof"; "var"; "void"; "while"; "with"; "yield"; "let"; "static";
   "enum"].

Definition hasLeadingZero (code : string) : bool :=
  match code with
  | String "0" (String _ _) | String "-" (String "0" (String _ _)) => true
  | _ => false
  end.

Definition classifyText (code : string) : TextKind :=
  if String.eqb code "" then TextEmpty
  else if String.eqb code "undefined" then TextValue VUndefined
  else if String.eqb code "null" then TextValue VNull
  else if String.eqb code "true" then TextValue (VBool true)
  else if String.eqb code "false" then TextValue (VBool false)
  else match NilZero.int_of_string code with
       | Some d => if hasLeadingZero code then TextOther
                   else TextValue (VNum (Z.of_int d))
       | None => if isIdentifier code
                    && negb (existsb (String.eqb code) boundOrReserved)
                 then TextIdentifier code
                 else TextOther
       end.

(** The early errors of the parser. *)
Definition checkExpr (e : JsExpr) : Result unit :=
  match e with
  | JsSpliced _ => OK tt
  | JsText code =>
      match classifyText code with
      | TextEmpty => Throw (SyntaxError "expression expected")
      | TextOther => Throw (Unsupported code)
      | _ => OK tt
      end
  end.

Fixpoint checkSyntax (inLoop inSwitch : bool) (s : JsStmt) : Result unit :=
  match s with
  | JsExpression e => checkExpr e
  | JsBuiltIn _ _ parameters =>
      _ <~ mapR (fun kv => checkExpr (snd kv)) parameters ;; OK tt
  | JsReturn (JsReturnValue e) => checkExpr e
  | JsReturn _ => OK tt
  | JsIf branches otherwise =>
      (* `if (c1){..}` joined by "else": with two branches the text reads
         `}elseif (c2){`, and with none it starts with `else`. *)
      match branches, otherwise with
      | [], None => OK tt
      | [], Some _ => Throw (SyntaxError "unexpected token else")
      | [(_, body)], None => checkSyntax inLoop inSwitch body
      | [(_, body)], Some block =>
          _ <~ checkSyntax inLoop inSwitch body ;;
          checkSyntax inLoop inSwitch block
      | _ :: _ :: _, _ => Throw (SyntaxError "unexpected token {")
      end
  | JsSwitch _ branches otherwise =>
      _ <~ mapR (fun branch => checkSyntax inLoop true (snd branch)) branches ;;
      match otherwise with
      | Some block => checkSyntax inLoop true block
      | None => OK tt
      end
  | JsFor _ _ _ body => checkSyntax true inSwitch body
  | JsDoWhile _ body _ condition =>
      match condition with
      | None => Throw (SyntaxError "unexpected token )")
      | Some _ => checkSyntax true inSwitch body
      end
  | JsBreak (Some label) => Throw (SyntaxError "undefined label")
  | JsBreak None =>
      if inLoop || inSwitch then OK tt
      else Throw (SyntaxError "illegal break statement")
  | JsContinue =>
      if inLoop then OK tt else Throw (SyntaxError "illegal continue statement")
  | JsBlock statements =>
      _ <~ mapR (checkSyntax inLoop inSwitch) statements ;; OK tt
  end.

(** Evaluation. *)
Inductive JsCompletion : Type :=
| JsNormal
| JsBroke
| JsContinued
| JsReturned (op : OP).

Definition evalExpr (e : JsExpr) (scope : Scope) : Result (JsVal * Scope) :=
  match e with
  | JsSpliced f => OK (f scope)
  | JsText code =>
      match classifyText code with
      | TextValue v => OK (v, scope)
      | TextIdentifier x => Throw (ReferenceError x)
      | TextEmpty => Throw (SyntaxError "expression expected")
      | TextOther => Throw (Unsupported code)
      end
  end.

Definition evalOptional (e : option JsExpr) (scope : Scope) : Result Scope :=
  match e with
  | Some e => r <~ evalExpr e scope ;; OK (snd r)
  | None => OK scope
  end.

(** An object literal [{"k": v, ...}]: the values in order. *)
Fixpoint evalObject (properties : list (string * JsExpr))
    (acc : gmap string JsVal) (scope : Scope)
  : Result (gmap string JsVal * Scope) :=
  match properties with
  | [] => OK (acc, scope)
  | (k, e) :: rest =>
      r <~ evalExpr e scope ;;
      evalObject rest (<[k := fst r]> acc) (snd r)
  end.

Section EvalStmt.
Variable evalStmt : JsStmt -> Scope -> Result (JsCompletion * Scope).

(** A statement list: stops at the first abrupt completion. *)
Fixpoint evalStatements (statements : list JsStmt) (scope : Scope)
  : Result (JsCompletion * Scope) :=
  match statements with
  | [] => OK (JsNormal, scope)
  | s :: rest =>
      r <~ evalStmt s scope ;;
      match fst r with
      | JsNormal => evalStatements rest (snd r)
      | _ => OK r
      end
  end.

(** The case clauses of a switch: the first clause whose value is
    strictly equal to the discriminant is entered, and execution runs on
    through the clauses after it and the default clause, which the
    emitted text puts last. *)
Fixpoint evalCases (v : JsVal) (branches : list (JsExpr * JsStmt))
    (otherwise : option JsStmt) (scope : Scope)
  : Result (JsCompletion * Scope) :=
  match branches with
  | [] => evalStatements (option_list otherwise) scope
  | (c, body) :: rest =>
      r <~ evalExpr c scope ;;
      if strictEq v (fst r)
      then evalStatements (body :: map snd rest ++ option_list otherwise) (snd r)
      else evalCases v rest otherwise (snd r)
  end.
End EvalStmt.

Fixpoint evalStmt (fuel : nat) (s : JsStmt) (scope : Scope)
  : Result (JsCompletion * Scope) :=
  match fuel with
  | O => OutOfFuel
  | S fuel =>
      match s with
      | JsExpression e => r <~ evalExpr e scope ;; OK (JsNormal, snd r)
      | JsBuiltIn _ f parameters =>
          r <~ evalObject parameters ∅ scope ;;
          OK (JsNormal, callBuiltIn f (fst r) (snd r))
      | JsReturn (JsMove id) => OK (JsReturned (Move id), scope)
      | JsReturn (JsReturnValue e) =>
          r <~ evalExpr e scope ;; OK (JsReturned (Return (fst r)), snd r)
      | JsReturn JsExit => OK (JsReturned Exit, scope)
      | JsIf [] _ => OK (JsNormal, scope)
      | JsIf (_ :: _ :: _) _ => Throw (SyntaxError "unexpected token {")
      | JsIf [(c, body)] otherwise =>
          r <~ evalExpr c scope ;;
          if truthy (fst r) then evalStmt fuel body (snd r)
          else match otherwise with
               | Some block => evalStmt fuel block (snd r)
               | None => OK (JsNormal, snd r)
               end
      | JsSwitch pattern branches otherwise =>
          r <~ evalExpr pattern scope ;;
          r' <~ evalCases (evalStmt fuel) (fst r) branches otherwise (snd r) ;;
          match fst r' with
          | JsBroke => OK (JsNormal, snd r')
          | _ => OK r'
          end
      | JsFor initializer condition iterator body =>
          scope1 <~ evalOptional initializer scope ;;
          r <~ match condition with
               | Some c => evalExpr c scope1
               | None => OK (VBool true, scope1)
               end ;;
          if truthy (fst r) then
            r' <~ evalStmt fuel body (snd r) ;;
            match fst r' with
            | JsBroke => OK (JsNormal, snd r')
            | JsReturned op => OK r'
            | _ =>
                scope2 <~ evalOptional iterator (snd r') ;;
                evalStmt fuel (JsFor None condition iterator body) scope2
            end
          else OK (JsNormal, snd r)
      | JsDoWhile initializer body iterator condition =>
          (* `${init}; do { ${body} ${iterator}; } while (${condition});` *)
          scope1 <~ evalOptional initializer scope ;;
          r <~ evalStmt fuel body scope1 ;;
          match fst r with
          | JsBroke => OK (JsNormal, snd r)
          | JsReturned op => OK r
          | completion =>
              scope2 <~ match completion with
                        | JsNormal => evalOptional iterator (snd r)
                        | _ => OK (snd r)
                        end ;;
              match condition with
              | Some c =>
                  r' <~ evalExpr c scope2 ;;
                  if truthy (fst r')
                  then evalStmt fuel (JsDoWhile None body iterator condition) (snd r')
                  else OK (JsNormal, snd r')
              | None => Throw (SyntaxError "unexpected token )")
              end
          end
      | JsBreak _ => OK (JsBroke, scope)
      | JsContinue => OK (JsContinued, scope)
      | JsBlock statements => evalStatements (evalStmt fuel) statements scope
      end
  end.

(** [new AsyncFunction("{ local, args, env }", "helper", code)] and the step
    [(scope) => jitFunction(scope, { builtIn })]. *)
Definition jitFunction (code : list JsStmt) : ExecutionNode :=
  fun fuel scope =>
    r <~ evalStatements (evalStmt fuel) code scope ;;
    match fst r with
    | JsReturned op => OK (Some op, snd r)
    | _ => OK (None, snd r)
    end.

(** ** compile.ts: nodeGenPass *)

(** [nodeMap[id] = node] on a JS array: beyond the end the array grows,
    leaving holes; a negative index names a property and no element. *)
Definition setNode (id : Z) (node : ExecutionNode)
    (nodeMap : list (option ExecutionNode)) : list (option ExecutionNode) :=
  if id <? 0 then nodeMap
  else
    let i := Z.to_nat id in
    if (i <? length nodeMap)%nat then <[i := Some node]> nodeMap
    else nodeMap ++ replicate (i - length nodeMap) None ++ [Some node].

Definition addNodeAt (id : Z) (node : ExecutionNode)
  : State (list (option ExecutionNode)) unit :=
  modify (setNode id node).

(** The steps that [emitNode] registers. *)
Definition expressionStep (expression : Expression) (next : Z) : ExecutionNode :=
  fun _ scope => OK (Some (Move next), snd (expression scope)).

Definition builtInStep (builtFunc : BuiltInFunction)
    (parameters : list (string * Value)) (next : Z) : ExecutionNode :=
  fun _ scope =>
    let '(statementParameters, scope') := mapValues parameters ∅ scope in
    OK (Some (Move next), callBuiltIn builtFunc statementParameters scope').

Definition externCallStep (functionName : string)
    (parameters : list (string * Value)) (next : Z) : ExecutionNode :=
  fun _ scope =>
    let '(statementParameters, scope') := mapValues parameters ∅ scope in
    OK (Some (Call functionName statementParameters next), scope').

Definition returnStep (value : option Value) : ExecutionNode :=
  fun _ scope =>
    match value with
    | Some (Fun e) => let '(v, scope') := e scope in OK (Some (Return v), scope')
    | Some (Lit l) => OK (Some (Return (literal l)), scope)
    | None => OK (Some (Return VUndefined), scope)
    end.

(** [for (const branch of node.branches) if (await branch.condition(scope))
    return [OPType.Move, branch.node.id]] *)
Fixpoint firstTruthy (ids : gmap oid Z) (branches : list (Expression * FlowNode))
    (scope : Scope) : option Z * Scope :=
  match branches with
  | [] => (None, scope)
  | (condition, node) :: rest =>
      let '(v, scope') := condition scope in
      if truthy v then (Some (idOf ids (self node)), scope')
      else firstTruthy ids rest scope'
  end.

(** [if (pattern(scope) === await branch.condition(scope))]: the pattern is
    evaluated again for every branch, before the branch's condition. *)
Fixpoint firstEqual (ids : gmap oid Z) (pattern : Expression)
    (branches : list (Expression * FlowNode)) (scope : Scope) : option Z * Scope :=
  match branches with
  | [] => (None, scope)
  | (condition, node) :: rest =>
      let '(p, scope1) := pattern scope in
      let '(v, scope2) := condition scope1 in
      if strictEq p v then (Some (idOf ids (self node)), scope2)
      else firstEqual ids pattern rest scope2
  end.

Definition branchStep (select : Scope -> option Z * Scope)
    (otherwise : option Z) (next : Z) : ExecutionNode :=
  fun _ scope =>
    match select scope with
    | (Some id, scope') => OK (Some (Move id), scope')
    | (None, scope') =>
        match otherwise with
        | Some id => OK (Some (Move id), scope')
        | None => OK (Some (Move next), scope')
        end
    end.

Definition ifStep (ids : gmap oid Z) (branches : list (Expression * FlowNode))
    (otherwise : option FlowNode) (next : oid) : ExecutionNode :=
  branchStep (firstTruthy ids branches)
    (option_map (fun node => idOf ids (self node)) otherwise) (idOf ids next).

Definition switchStep (ids : gmap oid Z) (pattern : Expression)
    (branches : list (Expression * FlowNode)) (otherwise : option FlowNode)
    (next : oid) : ExecutionNode :=
  branchStep (firstEqual ids pattern branches)
    (option_map (fun node => idOf ids (self node)) otherwise) (idOf ids next).

Definition initializerStep (initializer : option Expression) (to : Z)
  : ExecutionNode :=
  fun _ scope =>
    match initializer with
    | Some e => OK (Some (Move to), snd (e scope))
    | None => Throw (TypeError "main.statement.initializer is not a function")
    end.

Definition loopStep (iterator condition : option Expression) (body next : Z)
  : ExecutionNode :=
  fun _ scope =>
    let scope1 := match iterator with
                  | Some e => snd (e scope)
                  | None => scope
                  end in
    match condition with
    | Some e =>
        let '(v, scope2) := e scope1 in
        if truthy v then OK (Some (Move body), scope2)
        else OK (Some (Move next), scope2)
    | None => OK (Some (Move next), scope1)
    end.

Definition jumpStep (next : Z) : ExecutionNode :=
  fun _ scope => OK (Some (Move next), scope).

Definition exitStep : ExecutionNode :=
  fun _ scope => OK (Some Exit, scope).

Definition isIfSwitchLoop (node : FlowNode) : bool :=
  match node with
  | IfFlowNode _ _ _ _ _ _ | SwitchFlowNode _ _ _ _ _ _ | LoopFlowNode _ _ _ _ _ => true
  | _ => false
  end.

Section NodeGenPass.
Variable ids : gmap oid Z.
Variable getBuiltInFunction : string -> Result BuiltInFunction.

Definition emitJITNode (nodes : list FlowNode)
  : State (list (option ExecutionNode)) unit :=
  fun nodeMap =>
    match nodes with
    | [] => Throw (TypeError "nodes[0] is undefined")
    | entry :: _ =>
        code <~ mapR (emitJITCode ids getBuiltInFunction (idOf ids (self entry)))
                     nodes ;;
        _ <~ mapR (checkSyntax false false) code ;;
        OK (tt, setNode (idOf ids (self entry)) (jitFunction code) nodeMap)
    end.

(** In the Block case every contained node is paired with its own
    emission before the nodes are split into chunks. *)
Fixpoint emitNode (node : FlowNode) : State (list (option ExecutionNode)) unit :=
  match node with
  | NormalFlowNode this statement next _ =>
      match statement with
      | ExpressionStatement expression _ =>
          addNodeAt (idOf ids this) (expressionStep expression (idOf ids next))
      | CallStatement functionName parameters true _ =>
          fun nodeMap =>
            builtFunc <~ getBuiltInFunction functionName ;;
            addNodeAt (idOf ids this)
              (builtInStep builtFunc parameters (idOf ids next)) nodeMap
      | _ => throw NotImplement
      end
  | ExternCallFlowNode this statement next _ =>
      match statement with
      | CallStatement functionName parameters _ _ =>
          addNodeAt (idOf ids this)
            (externCallStep functionName parameters (idOf ids next))
      | _ => throw (TypeError "statement.parameters")
      end
  | ReturnFlowNode this statement _ =>
      match statement with
      | ReturnStatement value => addNodeAt (idOf ids this) (returnStep value)
      | _ => addNodeAt (idOf ids this) (returnStep None)
      end
  | IfFlowNode this _ branches otherwise _ next =>
      forEach (fun branch => emitNode (snd branch)) branches ;;;
      match otherwise with
      | Some block => emitNode block
      | None => ret tt
      end ;;;
      addNodeAt (idOf ids this) (ifStep ids branches otherwise next)
  | SwitchFlowNode this statement branches otherwise _ next =>
      forEach (fun branch => emitNode (snd branch)) branches ;;;
      match otherwise with
      | Some block => emitNode block
      | None => ret tt
      end ;;;
      match statement with
      | SwitchStatement pattern _ _ =>
          addNodeAt (idOf ids this)
            (switchStep ids pattern branches otherwise next)
      | _ => throw (TypeError "node.statement.pattern")
      end
  | LoopInitializerFlowNode this main _ =>
      match main with
      | LoopFlowNode mainSelf
          (LoopStatement skipInitialCheck initializer _ _ _ _) body _ _ =>
          addNodeAt (idOf ids this)
            (initializerStep initializer
               (if skipInitialCheck then idOf ids (self body)
                else idOf ids mainSelf))
      | _ => throw (TypeError "main.statement")
      end ;;;
      emitNode main
  | LoopFlowNode this statement body next _ =>
      match statement with
      | LoopStatement _ _ condition iterator _ _ =>
          addNodeAt (idOf ids this)
            (loopStep iterator condition (idOf ids (self body))
               (idOf ids next))
      | _ => throw (TypeError "node.statement")
      end ;;;
      emitNode body
  | JumpFlowNode this _ next _ => addNodeAt (idOf ids this) (jumpStep (idOf ids next))
  | BlockFlowNode _ nodes _ _ =>
      let chunks :=
        splitArray (map (fun child => (child, emitNode child)) nodes)
                   (fun child => negb (mergable (fst child))) in
      forEach
        (fun chunk =>
           match chunk with
           | [] => ret tt
           | [(child, emitChild)] =>
               if negb (isIfSwitchLoop child) || negb (mergable child)
               then emitChild
               else emitJITNode [child]
           | _ => emitJITNode (map fst chunk)
           end)
        chunks
  | ExitFlowNode this _ _ => addNodeAt (idOf ids this) exitStep
  end.
End NodeGenPass.

Definition nodeGenPass (program : FlowNode) (ids : gmap oid Z)
    (getBuiltInFunction : string -> Result BuiltInFunction)
  : Result (list (option ExecutionNode)) :=
  match program with
  | BlockFlowNode _ _ next _ =>
      r <~ emitNode ids getBuiltInFunction program
             (replicate (Z.to_nat (idOf ids next)) None) ;;
      OK (snd r)
  | _ => Throw (TypeError "program.next")
  end.

Definition compile (script : Block)
    (getBuiltInFunction : string -> Result BuiltInFunction)
  : Result (list (option ExecutionNode)) :=
  flowRoot <~ flowAnalyzePass script ;;
  nodeGenPass (fst flowRoot) (snd flowRoot) getBuiltInFunction.

(** ** interpreter.ts *)

Definition Program : Type := list (option ExecutionNode).

(** What [run] resolves to: a value, or the module's private symbol. *)
Inductive RunResult : Type :=
| Resolved (v : JsVal)
| EXIT_SIGNAL.

Record AnonTokyoIterator : Type := mkIterator {
  executable : Program;
  parameters : gmap string JsVal;
  context : gmap string JsVal;
  current : Z;
  returnValue : JsVal;
}.

(** The execution context: [env], and [callStack] with its top at the head
    of the list.  The running iterator is the top of the stack.
    [snapshots] is ghost state: the program counters of the call stack, top
    first, as they are when a step starts; nothing reads it. *)
Record AnonTokyoExecutionContext : Type := mkContext {
  contextEnv : gmap string JsVal;
  callStack : list AnonTokyoIterator;
  snapshots : list (list Z);
}.

Record AnonTokyoInterpreter : Type := mkInterpreter {
  builtInFunctionMap : gmap string BuiltInFunction;
  globalFunctionMap : gmap string Program;
}.

Definition snapshot (ctx : AnonTokyoExecutionContext) : AnonTokyoExecutionContext :=
  mkContext (contextEnv ctx) (callStack ctx)
            (snapshots ctx ++ [map current (callStack ctx)]).

(** [execNode(id, scope)]: below the length of the array, the element at
    [id] is called; a hole, [null] and a negative [id] give no function. *)
Definition execNode (program : Program) (id : Z) : ExecutionNode :=
  fun fuel scope =>
    if id >=? Z.of_nat (length program) then Throw (ThrownId id)
    else if id <? 0 then Throw (TypeError "this.program[id] is not a function")
    else match program !! Z.to_nat id with
         | Some (Some node) => node fuel scope
         | _ => Throw (TypeError "this.program[id] is not a function")
         end.

Definition setCurrent (n : Z) (this : AnonTokyoIterator) : AnonTokyoIterator :=
  mkIterator (executable this) (parameters this) (context this) n (returnValue this).

Definition setReturnValue (v : JsVal) (this : AnonTokyoIterator) : AnonTokyoIterator :=
  mkIterator (executable this) (parameters this) (context this) (current this) v.

(** The iterator and the context after a step has worked on the scope
    objects [{ local: this.context, args: this.parameters, env }]. *)
Definition afterStep (this : AnonTokyoIterator) (scope : Scope) : AnonTokyoIterator :=
  mkIterator (executable this) (args scope) (local scope) (current this)
             (returnValue this).

Section Stepping.
Variable interpreter : AnonTokyoInterpreter.

Definition findGlobalFunction (name : string) : Result Program :=
  match globalFunctionMap interpreter !! name with
  | Some executable => OK executable
  | None => Throw (MissingGlobalFunction name)
  end.

Section Call.
(** [iterator.run()] *)
Variable run : AnonTokyoExecutionContext ->
               Result (RunResult * AnonTokyoExecutionContext).

Definition call (executable : Program) (parameters : gmap string JsVal)
    (ctx : AnonTokyoExecutionContext)
  : Result (RunResult * AnonTokyoExecutionContext) :=
  let iterator := mkIterator executable parameters ∅ 0 VUndefined in
  r <~ run (mkContext (contextEnv ctx) (iterator :: callStack ctx)
                      (snapshots ctx)) ;;
  let '(res, ctx') := r in
  OK (res, mkContext (contextEnv ctx') (tail (callStack ctx')) (snapshots ctx')).

Definition callByName (name : string) (parameters : gmap string JsVal)
    (ctx : AnonTokyoExecutionContext)
  : Result (RunResult * AnonTokyoExecutionContext) :=
  executable <~ findGlobalFunction name ;;
  call executable parameters ctx.

(** [next()], on the iterator at the top of the stack. *)
Definition next (fuel : nat) (ctx : AnonTokyoExecutionContext)
  : Result AnonTokyoExecutionContext :=
  match callStack (snapshot ctx) with
  | [] => Throw (TypeError "no iterator")
  | this :: rest =>
      r <~ execNode (executable this) (current this) fuel
             (mkScope (parameters this) (context this) (contextEnv ctx)) ;;
      let '(op, scope) := r in
      let this := afterStep this scope in
      let snaps := snapshots (snapshot ctx) in
      match op with
      | None => Throw (TypeError "op is not iterable")
      | Some (Move n) =>
          OK (mkContext (env scope) (setCurrent n this :: rest) snaps)
      | Some (Call name parameters n) =>
          r <~ callByName name parameters
                 (mkContext (env scope) (setCurrent n this :: rest) snaps) ;;
          OK (snd r)
      | Some (Return v) =>
          OK (mkContext (env scope)
                (setReturnValue v (setCurrent (-1) this) :: rest) snaps)
      | Some Exit =>
          OK (mkContext (env scope) (setCurrent (-2) this :: rest) snaps)
      end
  end.
End Call.

(** [run()]: [fuel] bounds the steps of this frame, the depth of the calls
    and the loops of fused steps. *)
Fixpoint run (fuel : nat) (ctx : AnonTokyoExecutionContext)
  : Result (RunResult * AnonTokyoExecutionContext) :=
  match fuel with
  | O => OutOfFuel
  | S fuel =>
      match callStack ctx with
      | [] => Throw (TypeError "no iterator")
      | this :: _ =>
          if current this >=? 0 then
            ctx' <~ next (run fuel) fuel ctx ;;
            run fuel ctx'
          else if current this =? -1 then OK (Resolved (returnValue this), ctx)
          else if current this =? -2 then OK (EXIT_SIGNAL, ctx)
          else OK (Resolved VUndefined, ctx)
      end
  end.

(** [AnonTokyoExecutable.exec(parameters, env)] *)
Definition execExecutable (fuel : nat) (executable : Program)
    (parameters env : gmap string JsVal)
  : Result (RunResult * AnonTokyoExecutionContext) :=
  call (run fuel) executable parameters (mkContext env [] []).
End Stepping.

Definition getBuiltInFunction (builtInFunctionMap : gmap string BuiltInFunction)
    (name : string) : Result BuiltInFunction :=
  match builtInFunctionMap !! name with
  | Some f => OK f
  | None => Throw (MissingBuiltInFunction name)
  end.

(** [AnonTokyoInterpreter.compile(script)] *)
Definition compileScript (builtInFunctionMap : gmap string BuiltInFunction)
    (script : Block) : Result Program :=
  compile script (getBuiltInFunction builtInFunctionMap).

Record LanguageFeature : Type := mkLanguage {
  builtInFunctions : list BuiltInFunction;
  globalFunctions : list (string * Block);
}.

(** [loadGlobalFunctions]: every script is compiled, in order; in the map a
    later pair of the same name replaces an earlier one. *)
Fixpoint loadGlobalFunctions (builtInFunctionMap : gmap string BuiltInFunction)
    (globalFunctions : list (string * Block)) (acc : gmap string Program)
  : Result (gmap string Program) :=
  match globalFunctions with
  | [] => OK acc
  | (name, script) :: rest =>
      executable <~ compileScript builtInFunctionMap script ;;
      loadGlobalFunctions builtInFunctionMap rest (<[name := executable]> acc)
  end.

(** [new AnonTokyoInterpreter(lang)] *)
Definition newInterpreter (lang : LanguageFeature) : Result AnonTokyoInterpreter :=
  let builtIns := fold_left (fun m e => <[name e := e]> m) (builtInFunctions lang) ∅ in
  globals <~ loadGlobalFunctions builtIns (globalFunctions lang) ∅ ;;
  OK (mkInterpreter builtIns globals).

(** [AnonTokyoInterpreter.exec(script, parameters, env)] *)
Definition exec (interpreter : AnonTokyoInterpreter) (fuel : nat) (script : Block)
    (parameters env : gmap string JsVal)
  : Result (RunResult * AnonTokyoExecutionContext) :=
  executable <~ compileScript (builtInFunctionMap interpreter) script ;;
  execExecutable interpreter fuel executable parameters env.

(** * Properties *)

(** ** Scoping of labels and jumps

    [illScoped labels inLoop statement]: somewhere in the statement there is
    a loop whose label is one of [labels] or of an enclosing loop of the
    statement, a [break] or [continue] outside every loop, a labelled
    [break] whose label is not in scope, or a statement of unknown kind. *)
Fixpoint illScoped (labels : gset string) (inLoop : bool) (statement : Statement)
  : bool :=
  match statement with
  | IfStatement branches otherwise
  | SwitchStatement _ branches otherwise =>
      existsb (fun branch => existsb (illScoped labels inLoop) (snd branch)) branches
      || match otherwise with
         | Some block => existsb (illScoped labels inLoop) block
         | None => false
         end
  | LoopStatement _ _ _ _ label body =>
      match labelOf label with
      | Some l =>
          bool_decide (l ∈ labels) || existsb (illScoped ({[l]} ∪ labels) true) body
      | None => existsb (illScoped labels true) body
      end
  | BreakStatement label =>
      match labelOf label with
      | Some l => negb (bool_decide (l ∈ labels))
      | None => negb inLoop
      end
  | ContinueStatement => negb inLoop
  | OtherStatement _ => true
  | _ => false
  end.

(** A nested block that is the empty statement list. *)
Definition emptyOr {A : Type} (f : A -> bool) (l : list A) : bool :=
  match l with
  | [] => true
  | _ => existsb f l
  end.

Fixpoint hasEmptyBlock (statement : Statement) : bool :=
  match statement with
  | IfStatement branches otherwise
  | SwitchStatement _ branches otherwise =>
      existsb (fun branch => emptyOr hasEmptyBlock (snd branch)) branches
      || match otherwise with
         | Some block => emptyOr hasEmptyBlock block
         | None => false
         end
  | LoopStatement _ _ _ _ _ body => emptyOr hasEmptyBlock body
  | _ => false
  end.

(** A Block node without nodes, among the nodes the labelling walk visits. *)
Fixpoint hasEmptyNode (node : FlowNode) : bool :=
  match node with
  | IfFlowNode _ _ branches otherwise _ _
  | SwitchFlowNode _ _ branches otherwise _ _ =>
      existsb (fun branch => hasEmptyNode (snd branch)) branches
      || match otherwise with
         | Some block => hasEmptyNode block
         | None => false
         end
  | LoopFlowNode _ _ body _ _ => hasEmptyNode body
  | LoopInitializerFlowNode _ main _ => hasEmptyNode main
  | BlockFlowNode _ nodes _ _ => emptyOr hasEmptyNode nodes
  | _ => false
  end.

Definition inLoop (st : Lowering) : bool :=
  match breakableNodeStack st with
  | [] => false
  | _ => true
  end.

(** A summary of a flow graph: every node the labelling walk visits, in the
    order of the walk, as its kind, its identity and the identity of its
    [next]. *)
Fixpoint nodesOf (node : FlowNode) : list FlowNode :=
  node ::
  match node with
  | IfFlowNode _ _ branches otherwise _ _
  | SwitchFlowNode _ _ branches otherwise _ _ =>
      flat_map (fun branch => nodesOf (snd branch)) branches
      ++ match otherwise with
         | Some block => nodesOf block
         | None => []
         end
  | LoopFlowNode _ _ body _ _ => nodesOf body
  | LoopInitializerFlowNode _ main _ => nodesOf main
  | BlockFlowNode _ nodes _ _ => flat_map nodesOf nodes
  | _ => []
  end.

Definition edge (node : FlowNode) : string * oid * option oid :=
  match node with
  | NormalFlowNode s _ n _ => ("Normal", s, Some n)
  | ExternCallFlowNode s _ n _ => ("ExternCall", s, Some n)
  | ReturnFlowNode s _ _ => ("Return", s, None)
  | IfFlowNode s _ _ _ _ n => ("If", s, Some n)
  | SwitchFlowNode s _ _ _ _ n => ("Switch", s, Some n)
  | LoopFlowNode s _ _ n _ => ("Loop", s, Some n)
  | LoopInitializerFlowNode s _ _ => ("LoopInitializer", s, None)
  | JumpFlowNode s _ n _ => ("Jump", s, Some n)
  | ExitFlowNode s _ _ => ("Exit", s, None)
  | BlockFlowNode s _ n _ => ("Block", s, Some n)
  end.

Definition edges (analysed : Result (FlowNode * gmap oid Z))
  : Result (list (string * oid * option oid)) :=
  r <~ analysed ;; OK (map edge (nodesOf (fst r))).

(** ** Example programs *)

Definition num (m : gmap string JsVal) (k : string) : Z :=
  match m !! k with
  | Some (VNum n) => n
  | _ => 0
  end.

Definition setLocal (k : string) (v : JsVal) (scope : Scope) : Scope :=
  mkScope (args scope) (<[k := v]> (local scope)) (env scope).

(** [({ local }) => local.k = e] *)
Definition assign (k : string) (e : gmap string JsVal -> Z) : Expression :=
  fun scope => (VNum (e (local scope)), setLocal k (VNum (e (local scope))) scope).

(** [({ local }) => local.k] *)
Definition read (k : string) : Expression :=
  fun scope => (default VUndefined (local scope !! k), scope).

Definition test (e : gmap string JsVal -> bool) : Expression :=
  fun scope => (VBool (e (local scope)), scope).

Definition value (e : gmap string JsVal -> Z) : Expression :=
  fun scope => (VNum (e (local scope)), scope).

(** [({ env }) => env.hit = true] *)
Definition hit : Expression :=
  fun scope => (VBool true, setEnv scope (<["hit" := VBool true]> (env scope))).

Definition interpreterOf (lang : LanguageFeature) : AnonTokyoInterpreter :=
  match newInterpreter lang with
  | OK interpreter => interpreter
  | _ => mkInterpreter ∅ ∅
  end.

(** What the host sees of an [exec]: the result, its [env] afterwards, and
    the snapshots. *)
Definition observe (r : Result (RunResult * AnonTokyoExecutionContext))
  : Result (RunResult * gmap string JsVal * list (list Z)) :=
  x <~ r ;; OK (fst x, contextEnv (snd x), snapshots (snd x)).

Definition callGlobal (functionName : string) : Statement :=
  CallStatement functionName [] false false.

(** A global function [g] that does nothing, and one that exits. *)
Definition idleLanguage : LanguageFeature := mkLanguage [] [("g", [])].
Definition exitLanguage : LanguageFeature := mkLanguage [] [("g", [ExitStatement])].

(** main: call [g], then return 7. *)
Definition callThenReturn : Block :=
  [callGlobal "g"; ReturnStatement (Some (Lit (LNum 7)))].

(** [k = 0; for (; k < 3; k++) { g(); break; } return k] and the same loop
    without the call. *)
Definition breakLoop (withCall : bool) : Block :=
  [ExpressionStatement (assign "k" (fun _ => 0)) false;
   LoopStatement false None
     (Some (test (fun local => num local "k" <? 3)))
     (Some (assign "k" (fun local => num local "k" + 1))) None
     ((if withCall then [callGlobal "g"] else []) ++ [BreakStatement None]);
   ReturnStatement (Some (Fun (read "k")))].

(** A built-in that records the [text] it is given in [env.out]. *)
Definition echo : BuiltInFunction :=
  mkBuiltIn "echo"
    (fun parameters env => (VUndefined, <["out" := default VUndefined (parameters !! "text")]> env)).

Definition echoLanguage : LanguageFeature := mkLanguage [echo] [("g", [])].

Definition echoLiteral (l : Literal) : Statement :=
  CallStatement "echo" [("text", Lit l)] true false.


(** [for (;;) { env.hit = true }], with a call to [g] in the body or not. *)
Definition loopWithoutCondition (withCall : bool) : Block :=
  [LoopStatement false None None None None
     (ExpressionStatement hit false :: if withCall then [callGlobal "g"] else [])].

(** [for (i = 0; i < n; i++) body], where the initializer also clears [k]. *)
Definition countingLoop (n : Z) (body : Expression) : Statement :=
  LoopStatement false
    (Some (fun scope => (VNum 0, setLocal "k" (VNum 0) (setLocal "i" (VNum 0) scope))))
    (Some (test (fun local => num local "i" <? n)))
    (Some (assign "i" (fun local => num local "i" + 1))) None
    [ExpressionStatement body false].

(** The counting loop of the spec: [k] sums [i] over [0..<10]. *)
Definition sumLoop : Block :=
  [ExpressionStatement (assign "k" (fun _ => 0)) false;
   LoopStatement false
     (Some (assign "i" (fun _ => 0)))
     (Some (test (fun local => num local "i" <? 10)))
     (Some (assign "i" (fun local => num local "i" + 1))) None
     [ExpressionStatement (assign "k" (fun local => num local "k" + num local "i")) false];
   ReturnStatement (Some (Fun (read "k")))].

(** The loop counts its iterations in [k]; alone it is fused with the
    return that follows it, between two calls it is stepped node by node. *)
Definition countIterations (n : Z) (betweenCalls : bool) : Block :=
  (if betweenCalls then [callGlobal "g"] else [])
  ++ [countingLoop n (assign "k" (fun local => num local "k" + 1))]
  ++ (if betweenCalls then [callGlobal "g"] else [])
  ++ [ReturnStatement (Some (Fun (read "k")))].

(** The steps of [callThenReturn] and of a function that exits, as
    [emitNode] registers them, and an interpreter whose global function [g]
    is the latter. *)
Definition callingProgram : Program :=
  [Some (externCallStep "g" [] 1); Some (returnStep (Some (Lit (LNum 7))))].
Definition exitingProgram : Program := [Some exitStep].
(** The steps of [[callGlobal g]], as [compile] gives them. *)
Definition callerProgram : Program :=
  [Some (externCallStep "g" [] 1); Some (returnStep None)].
Definition handInterpreter : AnonTokyoInterpreter :=
  mkInterpreter ∅ {["g" := exitingProgram]}.

(** ** Definitions that the proofs use *)

(** ** Lowering: a Hoare triple for the closures of [flowAnalyzePass]

    [lowers c st bad Q]: started in [st], the computation [c] throws exactly
    when [bad] holds; otherwise it returns a value that satisfies [Q] and
    leaves [labelMap] and [breakableNodeStack] as they were, having only
    allocated objects. *)
Definition lowers {A : Type} (c : Lower A) (st : Lowering) (bad : bool)
    (Q : A -> Prop) : Prop :=
  match c st with
  | OK (a, st') =>
      labelMap st' = labelMap st
      /\ breakableNodeStack st' = breakableNodeStack st
      /\ (allocated st <= allocated st')%nat
      /\ bad = false
      /\ Q a
  | Throw _ => bad = true
  | OutOfFuel => False
  end.

(** Whether a statement is ill scoped where the lowering stands. *)
Definition ill (st : Lowering) (statement : Statement) : bool :=
  illScoped (dom (labelMap st)) (inLoop st) statement.

(** What lowering establishes for a block. *)
Definition blockLowered (st : Lowering) (statements : list Statement)
    (successor : oid) (block : FlowNode) : Prop :=
  (emptyOr hasEmptyBlock statements = true -> hasEmptyNode block = true)
  /\ exists nodes,
       block = BlockFlowNode (self block) nodes successor (forallb mergable nodes)
       /\ length nodes = length statements
       /\ (allocated st <= self block)%nat.

(** What lowering, by [f], establishes for a statement. *)
Definition statementOK (f : Statement -> oid -> Lower FlowNode)
    (statement : Statement) : Prop :=
  forall successor st,
    lowers (f statement successor) st (ill st statement)
      (fun node => hasEmptyBlock statement = true -> hasEmptyNode node = true).

Definition illOtherwise (st : Lowering) (otherwise : option (list Statement))
  : bool :=
  match otherwise with
  | Some block => existsb (ill st) block
  | None => false
  end.

(** A branch and its flow branch: the condition is kept, and the node is
    the lowering of the body with some successor that [R] describes. *)
Definition branchLowered (st : Lowering) (R : oid -> Prop)
    (branch : Expression * list Statement)
    (flowBranch : Expression * FlowNode) : Prop :=
  fst flowBranch = fst branch
  /\ exists st' successor,
       (allocated st <= allocated st')%nat /\ R successor
       /\ blockLowered st' (snd branch) successor (snd flowBranch).

Definition illBranches (st : Lowering)
    (branches : list (Expression * list Statement)) : bool :=
  existsb (fun branch => existsb (ill st) (snd branch)) branches.

(** ** The labelling walk

    It throws exactly when it meets a Block node without nodes. *)
Definition emptyBlockError : Error := TypeError "node.nodes[0] is undefined".

Definition labels {A : Type} (c : State Labelling A) (empty : bool) : Prop :=
  forall st,
    match c st with
    | OK _ => empty = false
    | Throw e => empty = true /\ e = emptyBlockError
    | OutOfFuel => False
    end.

(** The node that [flowAnalyzePass] appends to the root block. *)
Definition implicitReturnNode : FlowNode :=
  ReturnFlowNode 0%nat (ReturnStatement None) true.

(** The snapshots taken while frames above [rest] run: every one of them
    has the program counters of [rest] below those of the running frames. *)
Definition above (rest : list AnonTokyoIterator) (during : list (list Z)) : Prop :=
  Forall (fun snap => exists upper, upper <> [] /\ snap = upper ++ map current rest)
         during.

(** What a run leaves of the context it starts in. *)
Definition keepsFrames
    (run0 : AnonTokyoExecutionContext -> Result (RunResult * AnonTokyoExecutionContext))
  : Prop :=
  forall ctx r ctx',
    run0 ctx = OK (r, ctx') ->
    exists this' during,
      callStack ctx' = this' :: tail (callStack ctx)
      /\ snapshots ctx' = snapshots ctx ++ during
      /\ (forall this, head (callStack ctx) = Some this -> 0 <= current this ->
          during <> [])
      /\ above (tail (callStack ctx)) during.

(** The scope that [next] hands to the step of the running iterator. *)
Definition scopeOf (this : AnonTokyoIterator) (ctx : AnonTokyoExecutionContext)
  : Scope :=
  mkScope (parameters this) (context this) (contextEnv ctx).

(** The context in which [next] dispatches the opcode: the step has worked
    on the scope, and the snapshot of the step is taken. *)
Definition stepped (ctx : AnonTokyoExecutionContext) (this : AnonTokyoIterator)
    (rest : list AnonTokyoIterator) (scope : Scope) : AnonTokyoExecutionContext :=
  mkContext (env scope) (afterStep this scope :: rest) (snapshots (snapshot ctx)).

Definition withCurrent (n : Z) (ctx : AnonTokyoExecutionContext)
  : AnonTokyoExecutionContext :=
  match callStack ctx with
  | this :: rest => mkContext (contextEnv ctx) (setCurrent n this :: rest) (snapshots ctx)
  | [] => ctx
  end.


Definition nextOf (node : FlowNode) : option oid := snd (edge node).

(** ** Induction through the nested lists *)

Definition Forall_fix {A : Type} (P : A -> Prop) (F : forall a, P a)
  : forall l, Forall P l :=
  fix go l :=
    match l with
    | [] => List.Forall_nil P
    | x :: rest => List.Forall_cons P x rest (F x) (go rest)
    end.

Section StatementInduction.
Variable P : Statement -> Prop.
Let blocks (branches : list (Expression * list Statement))
    (otherwise : option (list Statement)) : Prop :=
  Forall (fun branch => Forall P (snd branch)) branches
  /\ match otherwise with
     | Some block => Forall P block
     | None => True
     end.
Hypothesis HExpression : forall e a, P (ExpressionStatement e a).
Hypothesis HCall : forall f ps b a, P (CallStatement f ps b a).
Hypothesis HReturn : forall v, P (ReturnStatement v).
Hypothesis HIf : forall branches otherwise,
    blocks branches otherwise -> P (IfStatement branches otherwise).
Hypothesis HSwitch : forall pattern branches otherwise,
    blocks branches otherwise -> P (SwitchStatement pattern branches otherwise).
Hypothesis HLoop : forall skip i c it label body,
    Forall P body -> P (LoopStatement skip i c it label body).
Hypothesis HBreak : forall label, P (BreakStatement label).
Hypothesis HContinue : P ContinueStatement.
Hypothesis HExit : P ExitStatement.
Hypothesis HOther : forall type, P (OtherStatement type).

Fixpoint Statement_nested_ind (statement : Statement) : P statement :=
  let nested branches otherwise : blocks branches otherwise :=
    conj (Forall_fix (fun branch => Forall P (snd branch))
            (fun branch => Forall_fix P Statement_nested_ind (snd branch))
            branches)
         (match otherwise as o
                return match o with Some block => Forall P block | None => True end
          with
          | Some block => Forall_fix P Statement_nested_ind block
          | None => I
          end) in
  match statement with
  | ExpressionStatement e a => HExpression e a
  | CallStatement f ps b a => HCall f ps b a
  | ReturnStatement v => HReturn v
  | IfStatement branches otherwise =>
      HIf branches otherwise (nested branches otherwise)
  | SwitchStatement pattern branches otherwise =>
      HSwitch pattern branches otherwise (nested branches otherwise)
  | LoopStatement skip i c it label body =>
      HLoop skip i c it label body (Forall_fix P Statement_nested_ind body)
  | BreakStatement label => HBreak label
  | ContinueStatement => HContinue
  | ExitStatement => HExit
  | OtherStatement type => HOther type
  end.
End StatementInduction.

Section FlowNodeInduction.
Variable P : FlowNode -> Prop.
Let blocks (branches : list (Expression * FlowNode))
    (otherwise : option FlowNode) : Prop :=
  Forall (fun branch => P (snd branch)) branches
  /\ match otherwise with
     | Some block => P block
     | None => True
     end.
Hypothesis HNormal : forall s st n m, P (NormalFlowNode s st n m).
Hypothesis HExternCall : forall s st n m, P (ExternCallFlowNode s st n m).
Hypothesis HReturn : forall s st m, P (ReturnFlowNode s st m).
Hypothesis HIf : forall s st branches otherwise m n,
    blocks branches otherwise -> P (IfFlowNode s st branches otherwise m n).
Hypothesis HSwitch : forall s st branches otherwise m n,
    blocks branches otherwise -> P (SwitchFlowNode s st branches otherwise m n).
Hypothesis HLoop : forall s st body n m, P body -> P (LoopFlowNode s st body n m).
Hypothesis HLoopInitializer : forall s main m,
    P main -> P (LoopInitializerFlowNode s main m).
Hypothesis HJump : forall s st n m, P (JumpFlowNode s st n m).
Hypothesis HExit : forall s st m, P (ExitFlowNode s st m).
Hypothesis HBlock : forall s nodes n m,
    Forall P nodes -> P (BlockFlowNode s nodes n m).

Fixpoint FlowNode_nested_ind (node : FlowNode) : P node :=
  let nested branches otherwise : blocks branches otherwise :=
    conj (Forall_fix (fun branch => P (snd branch))
            (fun branch => FlowNode_nested_ind (snd branch)) branches)
         (match otherwise as o
                return match o with Some block => P block | None => True end
          with
          | Some block => FlowNode_nested_ind block
          | None => I
          end) in
  match node with
  | NormalFlowNode s st n m => HNormal s st n m
  | ExternCallFlowNode s st n m => HExternCall s st n m
  | ReturnFlowNode s st m => HReturn s st m
  | IfFlowNode s st branches otherwise m n =>
      HIf s st branches otherwise m n (nested branches otherwise)
  | SwitchFlowNode s st branches otherwise m n =>
      HSwitch s st branches otherwise m n (nested branches otherwise)
  | LoopFlowNode s st body n m => HLoop s st body n m (FlowNode_nested_ind body)
  | LoopInitializerFlowNode s main m =>
      HLoopInitializer s main m (FlowNode_nested_ind main)
  | JumpFlowNode s st n m => HJump s st n m
  | ExitFlowNode s st m => HExit s st m
  | BlockFlowNode s nodes n m =>
      HBlock s nodes n m (Forall_fix P FlowNode_nested_ind nodes)
  end.
End FlowNodeInduction.

(** ** The order in which lowering makes the objects

    [placed lo hi x]: the object [x] was made between the allocations [lo]
    and [hi], after the object that is its [next], and, when it is a
    Block, after every node below it. *)
Definition blockAfterNodes (x : FlowNode) : Prop :=
  match x with
  | BlockFlowNode s nodes _ _ =>
      Forall (fun d => (self d < s)%nat) (flat_map nodesOf nodes)
  | _ => True
  end.

Definition placed (lo hi : nat) (x : FlowNode) : Prop :=
  (lo <= self x < hi)%nat
  /\ (forall n, nextOf x = Some n -> (n < self x)%nat)
  /\ blockAfterNodes x.

(** The nodes [xs] are placed, and no two of them are one object. *)
Definition tidyAll (lo hi : nat) (xs : list FlowNode) : Prop :=
  Forall (placed lo hi) xs /\ NoDup (map self xs).

Definition tidy (lo hi : nat) (node : FlowNode) : Prop :=
  tidyAll lo hi (nodesOf node).

(** The loops that are open and the labels in scope are objects that exist. *)
Definition stateOK (st : Lowering) : Prop :=
  Forall (fun o => (o < allocated st)%nat) (breakableNodeStack st)
  /\ map_Forall (fun (_ : string) o => (o < allocated st)%nat) (labelMap st).

Definition statementTidy (f : Statement -> oid -> Lower FlowNode)
    (statement : Statement) : Prop :=
  forall successor st node st',
    stateOK st -> (successor < allocated st)%nat ->
    f statement successor st = OK (node, st') ->
    tidy (allocated st) (allocated st') node.

(** ** What the labelling walk leaves behind

    [labelled st]: an object whose [id] is the index [i] is the object at
    index [i] of [flowNodeMap], or was made after it (a Block takes the [id]
    of a node below it); and the object at index [i] has the [id] [i]. *)
Definition isBlock (x : FlowNode) : bool :=
  match x with
  | BlockFlowNode _ _ _ _ => true
  | _ => false
  end.

Definition labelled (st : Labelling) : Prop :=
  (forall k i, ids st !! k = Some (Z.of_nat i) ->
     exists o, flowNodeMap st !! i = Some o /\ (o <= k)%nat)
  /\ (forall i o, flowNodeMap st !! i = Some o -> ids st !! o = Some (Z.of_nat i)).

(** The walk [c] goes through the nodes [xs], which it meets for the first
    time: it keeps [labelled], and puts into [flowNodeMap] nodes of [xs]
    only, among them every one that is not a Block. *)
Definition labelsTidily (xs : list FlowNode) (c : State Labelling unit) : Prop :=
  forall st st',
    NoDup (map self xs) -> Forall blockAfterNodes xs ->
    labelled st ->
    (forall o, o ∈ flowNodeMap st -> o ∉ map self xs) ->
    c st = OK (tt, st') ->
    labelled st'
    /\ (forall o, o ∈ flowNodeMap st' -> o ∈ flowNodeMap st \/ o ∈ map self xs)
    /\ (forall o, o ∈ flowNodeMap st -> o ∈ flowNodeMap st')
    /\ (forall x, x ∈ xs -> isBlock x = false -> self x ∈ flowNodeMap st').

(** The step of an ExternCall node names another node as the next. *)
Definition awayNode (ids : gmap oid Z) (x : FlowNode) : Prop :=
  match x with
  | ExternCallFlowNode s _ n _ => idOf ids n <> idOf ids s
  | _ => True
  end.

(** ** Where the steps of a program send a call back

    [callsAway id step]: whenever [step] gives a Call, the node that the
    call names as the next is not [id]. *)
Definition isCall (op : OP) : bool :=
  match op with
  | Call _ _ _ => true
  | _ => false
  end.

Definition callsAway (id : Z) (step : ExecutionNode) : Prop :=
  forall fuel scope functionName ps n scope',
    step fuel scope = OK (Some (Call functionName ps n), scope') -> n <> id.

Definition noCall (step : ExecutionNode) : Prop :=
  forall fuel scope op scope',
    step fuel scope = OK (Some op, scope') -> isCall op = false.

Definition programAway (program : list (option ExecutionNode)) : Prop :=
  forall i step, program !! i = Some (Some step) -> callsAway (Z.of_nat i) step.

Definition emitsAway (c : State (list (option ExecutionNode)) unit) : Prop :=
  forall program program',
    programAway program -> c program = OK (tt, program') -> programAway program'.

Definition neverCalls (ev : JsStmt -> Scope -> Result (JsCompletion * Scope))
  : Prop :=
  forall s scope op scope',
    ev s scope = OK (JsReturned op, scope') -> isCall op = false.

(** ** Definitions for the properties of the passes as a whole *)

(** [items] put in front of the first chunk. *)
Definition pushToFirst {T : Type} (items : list T) (chunks : list (list T))
  : list (list T) :=
  match chunks with
  | first :: rest => (items ++ first) :: rest
  | [] => []
  end.

(** How many elements of an array [splitArray] puts in a chunk of their own. *)
Definition separators {T : Type} (predictor : T -> bool) (array : list T) : nat :=
  length (filter (fun item => predictor item = true) array).

(** What lowering by [f] keeps of a statement without empty blocks. *)
Definition statementFull (f : Statement -> oid -> Lower FlowNode)
    (statement : Statement) : Prop :=
  forall successor st node st',
    f statement successor st = OK (node, st') ->
    hasEmptyBlock statement = false -> hasEmptyNode node = false.

(** The nodes that the labelling walk numbers: all but the Blocks, in the
    order of the walk. *)
Definition numbered (xs : list FlowNode) : list FlowNode :=
  List.filter (fun x => negb (isBlock x)) xs.

(** The walk [c] appends the nodes of [xs] that it numbers to [flowNodeMap]. *)
Definition appends (xs : list FlowNode) (c : State Labelling unit) : Prop :=
  forall st st',
    c st = OK (tt, st') ->
    flowNodeMap st' = flowNodeMap st ++ map self (numbered xs).

(** Every Block of [xs] has the [id] of its first node. *)
Definition firstIds (ids : gmap oid Z) (xs : list FlowNode) : Prop :=
  forall b first rest n m,
    BlockFlowNode b (first :: rest) n m ∈ xs -> idOf ids b = idOf ids (self first).

(** The first node of every Block of [xs] is in [xs]. *)
Definition holdsFirst (xs : list FlowNode) : Prop :=
  forall b first rest n m,
    BlockFlowNode b (first :: rest) n m ∈ xs -> first ∈ xs.

(** The walk [c] writes the [id] of nodes of [xs] only, and leaves every
    Block of [xs] with the [id] of its first node. *)
Definition labelsBlocks (xs : list FlowNode) (c : State Labelling unit) : Prop :=
  forall st st',
    NoDup (map self xs) ->
    c st = OK (tt, st') ->
    (forall k, k ∉ map self xs -> ids st' !! k = ids st !! k)
    /\ firstIds (ids st') xs.

(** A statement that holds a call of a global function which keeps its
    node from being merged.  A loop with an initializer hides the calls
    of its body: its node is marked mergable whatever the body is. *)
Fixpoint callsGlobal (statement : Statement) : bool :=
  match statement with
  | CallStatement _ _ builtIn _ => negb builtIn
  | IfStatement branches otherwise
  | SwitchStatement _ branches otherwise =>
      existsb (fun branch => existsb callsGlobal (snd branch)) branches
      || match otherwise with
         | Some block => existsb callsGlobal block
         | None => false
         end
  | LoopStatement _ initializer _ _ _ body =>
      match initializer with
      | Some _ => false
      | None => existsb callsGlobal body
      end
  | _ => false
  end.

Definition statementMerges (f : Statement -> oid -> Lower FlowNode)
    (statement : Statement) : Prop :=
  forall successor st node st',
    f statement successor st = OK (node, st') ->
    mergable node = negb (callsGlobal statement).

(** The loop node that [toFlowNode] builds for a loop statement. *)
Definition loopNodeOf (st : Lowering) (statement : Statement) (flowBody : FlowNode)
    (successor : oid) : FlowNode :=
  LoopFlowNode (S (allocated st)) statement flowBody successor (mergable flowBody).

(** The link from a node to the node that follows it in the graph: the
    [next] of the node, and for the initializer of a loop, which has none,
    the [next] of its loop. *)
Definition exitOf (node : FlowNode) : option oid :=
  match node with
  | LoopInitializerFlowNode _ main _ => nextOf main
  | _ => nextOf node
  end.

(** The statements whose node is linked on to the node of the statement
    that follows: all but Return, Break, Continue and Exit, and but a loop
    that skips its first check and has no initializer, whose node is the
    body block.  For an Expression, a Call, an If and a Loop the link is
    where control goes when the statement is done; the blocks of the
    branches of a Switch have a [next] of their own. *)
Definition fallsThrough (statement : Statement) : bool :=
  match statement with
  | ExpressionStatement _ _ | CallStatement _ _ _ _
  | IfStatement _ _ | SwitchStatement _ _ _ => true
  | LoopStatement skipInitialCheck initializer _ _ _ _ =>
      match initializer with
      | Some _ => true
      | None => negb skipInitialCheck
      end
  | _ => false
  end.

(** The node at which a list of nodes is entered, or [successor] when the
    list is empty. *)
Definition entryOf (nodes : list FlowNode) (successor : oid) : oid :=
  match nodes with
  | node :: _ => self node
  | [] => successor
  end.

(** No branch of an If is taken: the scope after every condition was
    evaluated, or [None] when some condition is truthy. *)
Fixpoint noneTruthy (branches : list (Expression * FlowNode)) (scope : Scope)
  : option Scope :=
  match branches with
  | [] => Some scope
  | (condition, _) :: rest =>
      let '(v, scope1) := condition scope in
      if truthy v then None else noneTruthy rest scope1
  end.

(** The value that [new Map(entries).get(key)] gives: that of the last
    entry with the key. *)
Fixpoint lastEntry {V : Type} (key : string) (entries : list (string * V))
  : option V :=
  match entries with
  | [] => None
  | (k, v) :: rest =>
      match lastEntry key rest with
      | Some v' => Some v'
      | None => if String.eqb k key then Some v else None
      end
  end.

(** ** Induction through the lists of the emitted code *)

Section JsStmtInduction.
Variable P : JsStmt -> Prop.
Hypothesis HExpression : forall e, P (JsExpression e).
Hypothesis HBuiltIn : forall functionName f parameters,
  P (JsBuiltIn functionName f parameters).
Hypothesis HReturn : forall op, P (JsReturn op).
Hypothesis HIf : forall branches otherwise,
  Forall (fun branch => P (snd branch)) branches ->
  match otherwise with Some block => P block | None => True end ->
  P (JsIf branches otherwise).
Hypothesis HSwitch : forall pattern branches otherwise,
  Forall (fun branch => P (snd branch)) branches ->
  match otherwise with Some block => P block | None => True end ->
  P (JsSwitch pattern branches otherwise).
Hypothesis HFor : forall initializer condition iterator body,
  P body -> P (JsFor initializer condition iterator body).
Hypothesis HDoWhile : forall initializer body iterator condition,
  P body -> P (JsDoWhile initializer body iterator condition).
Hypothesis HBreak : forall label, P (JsBreak label).
Hypothesis HContinue : P JsContinue.
Hypothesis HBlock : forall statements, Forall P statements -> P (JsBlock statements).

Fixpoint JsStmt_nested_ind (s : JsStmt) : P s :=
match s with
| JsExpression e => HExpression e
| JsBuiltIn functionName f parameters => HBuiltIn functionName f parameters
| JsReturn op => HReturn op
| JsIf branches otherwise =>
    HIf branches otherwise
      (Forall_fix (fun branch => P (snd branch))
         (fun branch => JsStmt_nested_ind (snd branch)) branches)
      (match otherwise as o
             return match o with Some block => P block | None => True end
       with
       | Some block => JsStmt_nested_ind block
       | None => I
       end)
| JsSwitch pattern branches otherwise =>
    HSwitch pattern branches otherwise
      (Forall_fix (fun branch => P (snd branch))
         (fun branch => JsStmt_nested_ind (snd branch)) branches)
      (match otherwise as o
             return match o with Some block => P block | None => True end
       with
       | Some block => JsStmt_nested_ind block
       | None => I
       end)
| JsFor initializer condition iterator body =>
    HFor initializer condition iterator body (JsStmt_nested_ind body)
| JsDoWhile initializer body iterator condition =>
    HDoWhile initializer body iterator condition (JsStmt_nested_ind body)
| JsBreak label => HBreak label
| JsContinue => HContinue
| JsBlock statements =>
    HBlock statements (Forall_fix P JsStmt_nested_ind statements)
end.
End JsStmtInduction.

(** A computation that ends: it returns or throws. *)
Definition ends {A : Type} (r : Result A) : Prop := r <> OutOfFuel.

(** A statement that holds a call of a global function, anywhere. *)
Fixpoint callsAnyGlobal (statement : Statement) : bool :=
  match statement with
  | CallStatement _ _ builtIn _ => negb builtIn
  | IfStatement branches otherwise
  | SwitchStatement _ branches otherwise =>
      existsb (fun branch => existsb callsAnyGlobal (snd branch)) branches
      || match otherwise with
         | Some block => existsb callsAnyGlobal block
         | None => false
         end
  | LoopStatement _ _ _ _ _ body => existsb callsAnyGlobal body
  | _ => false
  end.

(** No code can be emitted for the node of a statement that calls a global
    function. *)
Definition statementJitFails (f : Statement -> oid -> Lower FlowNode)
    (statement : Statement) : Prop :=
  forall successor st node st',
    f statement successor st = OK (node, st') ->
    callsAnyGlobal statement = true ->
    forall ids getBuiltIn entry code,
      emitJITCode ids getBuiltIn entry node <> OK code.

(** What the Block case of [emitNode] does with a chunk. *)
Definition emitChunk (ids : gmap oid Z)
    (getBuiltIn : string -> Result BuiltInFunction)
    (chunk : list (FlowNode * State (list (option ExecutionNode)) unit))
  : State (list (option ExecutionNode)) unit :=
  match chunk with
  | [] => ret tt
  | [(child, emitChild)] =>
      if negb (isIfSwitchLoop child) || negb (mergable child)
      then emitChild
      else emitJITNode ids getBuiltIn [child]
  | _ => emitJITNode ids getBuiltIn (map fst chunk)
  end.

(** ** Straight-line programs

    The statements that neither branch nor call: an expression, a Return of
    nothing or of a computed value, Exit. *)
Definition simple (statement : Statement) : bool :=
  match statement with
  | ExpressionStatement _ _ | ReturnStatement (Some (Fun _))
  | ReturnStatement None | ExitStatement => true
  | _ => false
  end.

(** What a list of such statements does to a scope, read off the
    statements: the expressions are evaluated in order up to the first
    Return or Exit. *)
Fixpoint straightLine (statements : list Statement) (scope : Scope)
  : RunResult * Scope :=
  match statements with
  | [] => (Resolved VUndefined, scope)
  | ExpressionStatement e _ :: rest => straightLine rest (snd (e scope))
  | ReturnStatement (Some (Fun e)) :: _ => (Resolved (fst (e scope)), snd (e scope))
  | ReturnStatement _ :: _ => (Resolved VUndefined, scope)
  | ExitStatement :: _ => (EXIT_SIGNAL, scope)
  | _ :: rest => straightLine rest scope
  end.

(** The code that [emitJITCode] gives for the node of a simple statement. *)
Definition codeOf (statement : Statement) : JsStmt :=
  match statement with
  | ExpressionStatement e _ => JsExpression (emitJITExpression e)
  | ReturnStatement (Some (Fun e)) => JsReturn (JsReturnValue (emitJITExpression e))
  | ExitStatement => JsReturn JsExit
  | _ => JsReturn (JsReturnValue (JsText "undefined"))
  end.

(** The opcode with which a frame ends. *)
Definition opOf (r : RunResult) : OP :=
  match r with
  | Resolved v => Return v
  | EXIT_SIGNAL => Exit
  end.

(** The node of a simple statement: a leaf that is marked mergable, whose
    code is [codeOf]. *)
Definition leafOf (statement : Statement) (node : FlowNode) : Prop :=
  mergable node = true
  /\ isBlock node = false
  /\ nodesOf node = [node]
  /\ forall ids getBuiltIn entry,
       emitJITCode ids getBuiltIn entry node = OK (codeOf statement).

Definition isExpressionStatement (statement : Statement) : bool :=
  match statement with
  | ExpressionStatement _ _ => true
  | _ => false
  end.

(** ** The built-in functions that a program calls *)

Fixpoint builtInNames (statement : Statement) : list string :=
  match statement with
  | CallStatement functionName _ true _ => [functionName]
  | IfStatement branches otherwise
  | SwitchStatement _ branches otherwise =>
      flat_map (fun branch => flat_map builtInNames (snd branch)) branches
      ++ match otherwise with
         | Some block => flat_map builtInNames block
         | None => []
         end
  | LoopStatement _ _ _ _ _ body => flat_map builtInNames body
  | _ => []
  end.

(** The built-in function that the step of a node calls. *)
Definition builtInName (node : FlowNode) : option string :=
  match node with
  | NormalFlowNode _ (CallStatement functionName _ true _) _ _ => Some functionName
  | _ => None
  end.

Definition calledIn (key : string) (nodes : list FlowNode) : Prop :=
  exists x, x ∈ nodes /\ builtInName x = Some key.

Definition statementNames (f : Statement -> oid -> Lower FlowNode)
    (statement : Statement) : Prop :=
  forall successor st node st' key,
    f statement successor st = OK (node, st') ->
    key ∈ builtInNames statement -> calledIn key (nodesOf node).

Definition resolved (getBuiltIn : string -> Result BuiltInFunction)
    (node : FlowNode) : Prop :=
  match builtInName node with
  | Some key => exists f, getBuiltIn key = OK f
  | None => True
  end.

(** ** An If of two branches or more that is fused *)

(** The nodes that stand in the [nodes] of a Block, at any depth below
    [node]. *)
Fixpoint blockNodes (node : FlowNode) : list FlowNode :=
  match node with
  | IfFlowNode _ _ branches otherwise _ _
  | SwitchFlowNode _ _ branches otherwise _ _ =>
      flat_map (fun branch => blockNodes (snd branch)) branches
      ++ match otherwise with
         | Some block => blockNodes block
         | None => []
         end
  | LoopFlowNode _ _ body _ _ => blockNodes body
  | LoopInitializerFlowNode _ main _ => blockNodes main
  | BlockFlowNode _ nodes _ _ => flat_map (fun x => x :: blockNodes x) nodes
  | _ => []
  end.

(** Every node but an If that is marked mergable and has two branches or
    more. *)
Definition narrow (node : FlowNode) : bool :=
  match node with
  | IfFlowNode _ _ branches _ m _ => negb m || (length branches <? 2)%nat
  | _ => true
  end.

(** A statement that holds, at any depth, an If of two branches or more
    whose node is marked mergable. *)
Fixpoint elseIfFused (statement : Statement) : bool :=
  match statement with
  | IfStatement branches otherwise =>
      (2 <=? length branches)%nat && negb (callsGlobal statement)
      || existsb (fun branch => existsb elseIfFused (snd branch)) branches
      || match otherwise with
         | Some block => existsb elseIfFused block
         | None => false
         end
  | SwitchStatement _ branches otherwise =>
      existsb (fun branch => existsb elseIfFused (snd branch)) branches
      || match otherwise with
         | Some block => existsb elseIfFused block
         | None => false
         end
  | LoopStatement _ _ _ _ _ body => existsb elseIfFused body
  | _ => false
  end.

Definition wideIn (nodes : list FlowNode) : Prop :=
  exists x, x ∈ nodes /\ narrow x = false.

Definition statementWide (f : Statement -> oid -> Lower FlowNode)
    (statement : Statement) : Prop :=
  forall successor st node st',
    f statement successor st = OK (node, st') ->
    elseIfFused statement = true -> wideIn (node :: blockNodes node).

(** ** Programs of expressions, Returns, Exits and one-branch Ifs

    The statements that are fused and whose code is JS: an expression, a
    Return of nothing or of a computed value, Exit, and an If of one branch,
    with or without an otherwise block, whose blocks are not empty and hold
    such statements. *)
Fixpoint structured (statement : Statement) : bool :=
  match statement with
  | ExpressionStatement _ _ | ReturnStatement (Some (Fun _))
  | ReturnStatement None | ExitStatement => true
  | IfStatement [(_, body)] otherwise =>
      negb (emptyOr (fun s => negb (structured s)) body)
      && match otherwise with
         | Some block => negb (emptyOr (fun s => negb (structured s)) block)
         | None => true
         end
  | _ => false
  end.

(** How deep the Ifs of a statement are nested: the fuel that its code
    needs. *)
Fixpoint depth (statement : Statement) : nat :=
  match statement with
  | IfStatement branches otherwise =>
      2 + Nat.max
            (list_max (map (fun branch => list_max (map depth (snd branch)))
                         branches))
            match otherwise with
            | Some block => list_max (map depth block)
            | None => 0
            end
  | _ => 1
  end.

(** What such statements do to a scope, read off the statements: the result
    with which the frame ends, or [None] when control goes on with the next
    statement. *)
Section RunStatements.
Variable runStatement : Statement -> Scope -> option RunResult * Scope.

Fixpoint runStatements (statements : list Statement) (scope : Scope)
: option RunResult * Scope :=
match statements with
| [] => (None, scope)
| statement :: rest =>
    match runStatement statement scope with
    | (Some r, scope') => (Some r, scope')
    | (None, scope') => runStatements rest scope'
    end
end.
End RunStatements.

Fixpoint runStatement (statement : Statement) (scope : Scope)
  : option RunResult * Scope :=
  match statement with
  | ExpressionStatement e _ => (None, snd (e scope))
  | ReturnStatement (Some (Fun e)) =>
      (Some (Resolved (fst (e scope))), snd (e scope))
  | ReturnStatement _ => (Some (Resolved VUndefined), scope)
  | ExitStatement => (Some EXIT_SIGNAL, scope)
  | IfStatement [(condition, body)] otherwise =>
      if truthy (fst (condition scope))
      then runStatements runStatement body (snd (condition scope))
      else match otherwise with
           | Some block => runStatements runStatement block (snd (condition scope))
           | None => (None, snd (condition scope))
           end
  | _ => (None, scope)
  end.

(** The result of a frame that ran such statements: running off the end
    returns [undefined]. *)
Definition resultOf (r : option RunResult) : RunResult :=
  match r with
  | Some r => r
  | None => Resolved VUndefined
  end.

(** The code that [emitJITCode] gives for the node of such a statement. *)
Fixpoint structuredCode (statement : Statement) : JsStmt :=
  match statement with
  | IfStatement branches otherwise =>
      JsIf (map (fun branch => (emitJITExpression (fst branch),
                                JsBlock (map structuredCode (snd branch))))
              branches)
           (option_map (fun block => JsBlock (map structuredCode block)) otherwise)
  | _ => codeOf statement
  end.

Definition completionOf (r : option RunResult) : JsCompletion :=
  match r with
  | Some r => JsReturned (opOf r)
  | None => JsNormal
  end.

(** The node of such a statement: marked mergable, no Block, and its code
    is [structuredCode]. *)
Definition fusesAs (statement : Statement) (node : FlowNode) : Prop :=
  mergable node = true
  /\ isBlock node = false
  /\ forall ids getBuiltIn entry,
       emitJITCode ids getBuiltIn entry node = OK (structuredCode statement).

Definition statementFuses (f : Statement -> oid -> Lower FlowNode)
    (statement : Statement) : Prop :=
  forall successor st node st',
    structured statement = true ->
    f statement successor st = OK (node, st') -> fusesAs statement node.

(** ** The text of an expression in fused code

    [splicesAsWritten e]: the text that [emitJITExpression] cuts out of the
    source of [e] is a JS expression, and inside the compiled function it
    evaluates as [e] applied to the scope.  So it is for an arrow function
    written over [({ local, args, env })] whose body is one expression that
    names nothing else and holds no further [=>]; it is not so for
    [(scope) => ...], for a body in braces, for a body that names a
    variable of an enclosing function, nor for a function that is no
    arrow. *)
Definition splicesAsWritten (e : Expression) : Prop :=
  checkExpr (emitJITExpression e) = OK tt
  /\ forall scope, evalExpr (emitJITExpression e) scope = OK (e scope).

(** The expressions that a statement holds, at any depth. *)
Fixpoint expressionsOf (statement : Statement) : list Expression :=
  let ofValue (v : Value) :=
    match v with
    | Fun e => [e]
    | Lit _ => []
    end in
  let ofOption (e : option Expression) :=
    match e with
    | Some e => [e]
    | None => []
    end in
  let ofBranches (branches : list (Expression * list Statement)) :=
    flat_map (fun branch => fst branch :: flat_map expressionsOf (snd branch))
      branches in
  let ofOtherwise (otherwise : option (list Statement)) :=
    match otherwise with
    | Some block => flat_map expressionsOf block
    | None => []
    end in
  match statement with
  | ExpressionStatement e _ => [e]
  | CallStatement _ parameters _ _ =>
      flat_map (fun parameter => ofValue (snd parameter)) parameters
  | ReturnStatement value =>
      match value with
      | Some v => ofValue v
      | None => []
      end
  | IfStatement branches otherwise => ofBranches branches ++ ofOtherwise otherwise
  | SwitchStatement pattern branches otherwise =>
      pattern :: ofBranches branches ++ ofOtherwise otherwise
  | LoopStatement _ initializer condition iterator _ body =>
      ofOption initializer ++ ofOption condition ++ ofOption iterator
      ++ flat_map expressionsOf body
  | _ => []
  end.




(** * Proofs *)

(** ** Lowering *)


Lemma lowers_ret {A : Type} (a : A) st (Q : A -> Prop) :
  Q a -> lowers (ret a) st false Q.
Proof. intros H. unfold lowers, ret. auto. Qed.

Lemma lowers_bind {A B : Type} (c : Lower A) (k : A -> Lower B) st b1 b2
    (Q1 : A -> Prop) (Q2 : B -> Prop) :
  lowers c st b1 Q1 ->
  (forall a st',
      labelMap st' = labelMap st ->
      breakableNodeStack st' = breakableNodeStack st ->
      (allocated st <= allocated st')%nat ->
      Q1 a -> lowers (k a) st' b2 Q2) ->
  lowers (bind c k) st (b1 || b2) Q2.
Proof.
  unfold lowers, bind. intros Hc Hk.
  destruct (c st) as [[a st']|e|]; [|now rewrite Hc|contradiction].
  destruct Hc as (Hl & Hs & Ha & -> & HQ).
  specialize (Hk a st' Hl Hs Ha HQ).
  destruct (k a st') as [[b st'']|e|]; [|exact Hk|contradiction].
  destruct Hk as (Hl' & Hs' & Ha' & -> & HQ').
  split; [congruence|]. split; [congruence|]. split; [lia|]. split; [reflexivity|assumption].
Qed.

Lemma lowers_alloc st :
  lowers alloc st false (fun node => (allocated st <= node)%nat).
Proof.
  unfold lowers, alloc. simpl.
  split; [reflexivity|]. split; [reflexivity|]. split; [lia|]. split; [reflexivity|lia].
Qed.

Lemma lowers_bad {A : Type} (c : Lower A) st b b' (Q : A -> Prop) :
  lowers c st b Q -> b = b' -> lowers c st b' Q.
Proof. now intros H <-. Qed.


Lemma ill_eq st st' :
  labelMap st' = labelMap st ->
  breakableNodeStack st' = breakableNodeStack st ->
  ill st' = ill st.
Proof. unfold ill, inLoop. now intros -> ->. Qed.


Section LoweringLists.
Variable f : Statement -> oid -> Lower FlowNode.


Lemma lowerStatements_lowers statements :
  Forall (statementOK f) statements ->
  forall successor st,
    lowers (lowerStatements f statements successor) st
      (existsb (ill st) statements)
      (fun r => length (fst r) = length statements
                /\ (existsb hasEmptyBlock statements = true ->
                    existsb hasEmptyNode (fst r) = true)).
Proof.
  induction 1 as [|statement rest Hs _ IH]; intros successor st; simpl.
  - apply lowers_ret. simpl. split; [reflexivity|discriminate].
  - eapply lowers_bad.
    + eapply lowers_bind; [apply IH|].
      intros [nodes last] st1 Hl1 Hk1 Ha1 (Hlen & Hem).
      eapply lowers_bad.
      * eapply lowers_bind; [apply Hs|].
        intros node st2 Hl2 Hk2 Ha2 Hem'.
        apply lowers_ret. simpl in *. split; [now rewrite Hlen|].
        intros E. apply orb_true_iff in E as [E|E].
        -- now rewrite (Hem' E).
        -- rewrite (Hem E). apply orb_true_r.
      * rewrite orb_false_r. now rewrite (ill_eq st st1).
    + apply orb_comm.
Qed.

Lemma toBlockFlowNode_lowers statements :
  Forall (statementOK f) statements ->
  forall successor st,
    lowers (toBlockFlowNode f statements successor) st
      (existsb (ill st) statements) (blockLowered st statements successor).
Proof.
  intros H successor st. unfold toBlockFlowNode.
  eapply lowers_bad.
  - eapply lowers_bind; [apply (lowerStatements_lowers _ H)|].
    intros [nodes last] st1 Hl1 Hk1 Ha1 (Hlen & Hem).
    eapply lowers_bind; [apply lowers_alloc|].
    intros block st2 Hl2 Hk2 Ha2 Hb.
    apply lowers_ret. simpl in *. split.
    + intros E. destruct statements as [|s rest].
      * destruct nodes; [reflexivity|discriminate].
      * destruct nodes as [|n nodes]; [discriminate|]. apply Hem, E.
    + exists nodes. split; [reflexivity|]. split; [assumption|simpl; lia].
  - now rewrite orb_false_r.
Qed.


Lemma lowerOtherwise_lowers otherwise :
  match otherwise with
  | Some block => Forall (statementOK f) block
  | None => True
  end ->
  forall successor st,
    lowers (lowerOtherwise f otherwise successor) st (illOtherwise st otherwise)
      (fun flowOtherwise =>
         match otherwise, flowOtherwise with
         | Some statements, Some block => blockLowered st statements successor block
         | None, None => True
         | _, _ => False
         end).
Proof.
  intros H successor st. destruct otherwise as [statements|]; simpl.
  - eapply lowers_bad.
    + eapply lowers_bind; [apply toBlockFlowNode_lowers, H|].
      intros block st1 _ _ _ Hb. apply lowers_ret. exact Hb.
    + apply orb_false_r.
  - now apply lowers_ret.
Qed.



Lemma lowerIfBranches_lowers branches :
  Forall (fun branch => Forall (statementOK f) (snd branch)) branches ->
  forall successor st,
    lowers (lowerIfBranches f branches successor) st (illBranches st branches)
      (Forall2 (branchLowered st (eq successor)) branches).
Proof.
  induction 1 as [|[condition body] rest Hb _ IH]; intros successor st; simpl.
  - apply lowers_ret. constructor.
  - eapply lowers_bind; [apply toBlockFlowNode_lowers, Hb|].
    intros node st1 Hl1 Hk1 Ha1 Hn.
    eapply lowers_bad.
    + eapply lowers_bind; [apply IH|].
      intros flowRest st2 Hl2 Hk2 Ha2 Hrest.
      apply lowers_ret. constructor.
      * split; [reflexivity|]. exists st, successor.
        split; [lia|]. split; [reflexivity|exact Hn].
      * eapply Forall2_impl; [exact Hrest|].
        intros branch flowBranch (E & st' & succ' & Ha & HR & H').
        split; [assumption|]. exists st', succ'.
        split; [lia|]. split; assumption.
    + rewrite orb_false_r. unfold illBranches. now rewrite (ill_eq st st1).
Qed.

Lemma lowerSwitchBranches_lowers branches :
  Forall (fun branch => Forall (statementOK f) (snd branch)) branches ->
  forall last0 st,
    lowers (lowerSwitchBranches f branches last0) st (illBranches st branches)
      (fun r => Forall2 (branchLowered st (fun chained => (allocated st <= chained)%nat))
                  branches (fst r)).
Proof.
  induction 1 as [|[condition body] rest Hb _ IH]; intros last0 st; simpl.
  - apply lowers_ret. constructor.
  - eapply lowers_bad.
    + eapply lowers_bind; [apply IH|].
      intros [flowRest last] st1 Hl1 Hk1 Ha1 Hrest.
      eapply lowers_bad.
      * eapply lowers_bind; [apply toBlockFlowNode_lowers, Hb|].
        intros chained st2 Hl2 Hk2 Ha2 (_ & nodes & _ & _ & Hc).
        eapply lowers_bad.
        -- eapply lowers_bind; [apply toBlockFlowNode_lowers, Hb|].
           intros node st3 Hl3 Hk3 Ha3 Hn.
           apply lowers_ret. constructor; [|exact Hrest].
           split; [reflexivity|]. exists st2, (self chained).
           split; [lia|]. split; [lia|exact Hn].
        -- rewrite orb_false_r. rewrite (ill_eq st st2) by congruence.
           reflexivity.
      * rewrite (ill_eq st st1) by assumption. reflexivity.
    + simpl. fold (illBranches st rest).
      destruct (illBranches st rest), (existsb (ill st) body); reflexivity.
Qed.
End LoweringLists.

Lemma branches_empty st R branches flowBranches :
  Forall2 (branchLowered st R) branches flowBranches ->
  existsb (fun branch => emptyOr hasEmptyBlock (snd branch)) branches = true ->
  existsb (fun branch => hasEmptyNode (snd branch)) flowBranches = true.
Proof.
  induction 1 as [|b fb l fl (_ & st' & succ & _ & _ & Hb & _) _ IH]; simpl;
    [discriminate|].
  intros E. apply orb_true_iff in E as [E|E].
  - now rewrite (Hb E).
  - rewrite (IH E). apply orb_true_r.
Qed.

Lemma otherwise_empty st successor otherwise flowOtherwise :
  match otherwise, flowOtherwise with
  | Some statements, Some block => blockLowered st statements successor block
  | None, None => True
  | _, _ => False
  end ->
  match otherwise with
  | Some block => emptyOr hasEmptyBlock block
  | None => false
  end = true ->
  match flowOtherwise with
  | Some block => hasEmptyNode block
  | None => false
  end = true.
Proof.
  destruct otherwise as [statements|], flowOtherwise as [block|];
    try contradiction; try discriminate.
  intros (Hem & _). exact Hem.
Qed.

(** Every statement is lowered, or lowering throws because the statement
    is ill scoped. *)
Lemma toFlowNode_lowers statement : statementOK toFlowNode statement.
Proof.
  induction statement
    as [expression async | functionName parameters builtIn async | value
       | branches otherwise [IHb IHo] | pattern branches otherwise [IHb IHo]
       | skip initializer condition iterator label body IHbody
       | label | | | type]
    using Statement_nested_ind; intros successor st.
  - simpl. eapply (lowers_bind _ _ _ false false); [apply lowers_alloc|].
    intros node st1 _ _ _ _. apply lowers_ret. discriminate.
  - simpl. eapply (lowers_bind _ _ _ false false); [apply lowers_alloc|].
    intros node st1 _ _ _ _. destruct builtIn; apply lowers_ret; discriminate.
  - simpl. eapply (lowers_bind _ _ _ false false); [apply lowers_alloc|].
    intros node st1 _ _ _ _. apply lowers_ret. discriminate.
  - (* If *)
    simpl. eapply lowers_bad.
    + eapply lowers_bind; [apply (lowerIfBranches_lowers _ _ IHb)|].
      intros flowBranches st1 Hl1 Hk1 Ha1 Hbr.
      eapply lowers_bad.
      * eapply lowers_bind; [apply (lowerOtherwise_lowers _ _ IHo)|].
        intros flowOtherwise st2 Hl2 Hk2 Ha2 Hot.
        eapply (lowers_bind _ _ _ false false); [apply lowers_alloc|].
        intros node st3 _ _ _ _. apply lowers_ret.
        simpl. intros E. apply orb_true_iff in E as [E|E].
        -- now rewrite (branches_empty _ _ _ _ Hbr E).
        -- rewrite (otherwise_empty _ _ _ _ Hot E). apply orb_true_r.
      * rewrite orb_false_r. unfold illOtherwise.
        rewrite (ill_eq st st1) by assumption. reflexivity.
    + reflexivity.
  - (* Switch *)
    simpl. eapply lowers_bad.
    + eapply lowers_bind; [apply (lowerOtherwise_lowers _ _ IHo)|].
      intros flowOtherwise st1 Hl1 Hk1 Ha1 Hot.
      eapply lowers_bad.
      * eapply lowers_bind; [apply (lowerSwitchBranches_lowers _ _ IHb)|].
        intros [flowBranches last] st2 Hl2 Hk2 Ha2 Hbr. simpl in Hbr.
        eapply (lowers_bind _ _ _ false false); [apply lowers_alloc|].
        intros node st3 _ _ _ _. apply lowers_ret.
        simpl. intros E. apply orb_true_iff in E as [E|E].
        -- now rewrite (branches_empty _ _ _ _ Hbr E).
        -- rewrite (otherwise_empty _ _ _ _ Hot E). apply orb_true_r.
      * rewrite orb_false_r. unfold illBranches.
        rewrite (ill_eq st st1) by assumption. reflexivity.
    + apply orb_comm.
  - (* Loop *)
    pose proof (toBlockFlowNode_lowers toFlowNode body IHbody) as Hbody.
    unfold lowers. simpl. unfold bind, alloc, get, ret. simpl.
    set (loopNode := S (allocated st)).
    assert (Hrun : forall labels,
      let st2 := mkLowering (S loopNode) labels (loopNode :: breakableNodeStack st) in
      match toBlockFlowNode toFlowNode body loopNode st2 with
      | OK (flowBody, st3) =>
          labelMap st3 = labels
          /\ breakableNodeStack st3 = loopNode :: breakableNodeStack st
          /\ (allocated st <= allocated st3)%nat
          /\ existsb (illScoped (dom labels) true) body = false
          /\ (emptyOr hasEmptyBlock body = true -> hasEmptyNode flowBody = true)
      | Throw _ => existsb (illScoped (dom labels) true) body = true
      | OutOfFuel => False
      end).
    { intros labels st2. specialize (Hbody loopNode st2). unfold lowers in Hbody.
      destruct (toBlockFlowNode toFlowNode body loopNode st2) as [[flowBody st3]|e|];
        [|exact Hbody|contradiction].
      destruct Hbody as (Hl & Hk & Ha & Hsc & Hem & _).
      split; [exact Hl|]. split; [exact Hk|]. split; [simpl in Ha; lia|].
      split; [exact Hsc|exact Hem]. }
    unfold ill. simpl.
    destruct (labelOf label) as [l|] eqn:El.
    + simpl. destruct (labelMap st !! l) as [other|] eqn:Elookup; simpl.
      { apply orb_true_iff. left. apply bool_decide_eq_true, elem_of_dom. eauto. }
      unfold setLabel, pushBreakable, modify. simpl.
      specialize (Hrun (<[l := loopNode]> (labelMap st))). simpl in Hrun.
      rewrite dom_insert_L in Hrun.
      destruct (toBlockFlowNode toFlowNode body loopNode _) as [[flowBody st3]|e|];
        [|rewrite Hrun; apply orb_true_r|contradiction].
      destruct Hrun as (Hl & Hk & Ha & Hsc & Hem).
      unfold deleteLabel, popBreakable, modify. simpl.
      assert (Hnotin : bool_decide (l ∈ dom (labelMap st)) = false).
      { apply bool_decide_eq_false. now apply not_elem_of_dom. }
      assert (Hfl : delete l (labelMap st3) = labelMap st).
      { rewrite Hl. now apply delete_insert_id. }
      assert (Hfk : tail (breakableNodeStack st3) = breakableNodeStack st).
      { now rewrite Hk. }
      destruct initializer as [e|]; [|destruct skip]; simpl;
        (split; [exact Hfl|]); (split; [exact Hfk|]);
        (split; [lia|]); (split; [now rewrite Hnotin, Hsc|exact Hem]).
    + simpl. unfold pushBreakable, modify. simpl.
      specialize (Hrun (labelMap st)). simpl in Hrun.
      destruct (toBlockFlowNode toFlowNode body loopNode _) as [[flowBody st3]|e|];
        [|exact Hrun|contradiction].
      destruct Hrun as (Hl & Hk & Ha & Hsc & Hem).
      unfold popBreakable, modify. simpl.
      destruct initializer as [e|]; [|destruct skip]; simpl;
        (split; [exact Hl|]); (split; [now rewrite Hk|]);
        (split; [lia|]); (split; [exact Hsc|exact Hem]).
  - (* Break *)
    unfold lowers, ill. simpl. unfold bind, get, alloc, ret, throw. simpl.
    destruct (labelOf label) as [l|].
    + destruct (labelMap st !! l) as [to|] eqn:E; simpl.
      * split; [reflexivity|]. split; [reflexivity|]. split; [lia|].
        split; [|discriminate].
        apply negb_false_iff, bool_decide_eq_true, elem_of_dom. eauto.
      * apply negb_true_iff, bool_decide_eq_false. now apply not_elem_of_dom.
    + unfold inLoop.
      destruct (breakableNodeStack st) as [|to stack] eqn:E; [reflexivity|].
      simpl. split; [reflexivity|]. split; [now rewrite E|]. split; [lia|].
      split; [reflexivity|discriminate].
  - (* Continue *)
    unfold lowers, ill. simpl. unfold bind, get, alloc, ret, throw, inLoop. simpl.
    destruct (breakableNodeStack st) as [|to stack] eqn:E; [reflexivity|].
    simpl. split; [reflexivity|]. split; [now rewrite E|]. split; [lia|].
    split; [reflexivity|discriminate].
  - simpl. eapply (lowers_bind _ _ _ false false); [apply lowers_alloc|].
    intros node st1 _ _ _ _. apply lowers_ret. discriminate.
  - reflexivity.
Qed.

(** ** The labelling walk *)


Lemma forEach_labels {A : Type} (f : A -> State Labelling unit) (g : A -> bool) l :
  Forall (fun a => labels (f a) (g a)) l -> labels (forEach f l) (existsb g l).
Proof.
  induction 1 as [|a l Ha _ IH]; intros st; simpl; [reflexivity|].
  unfold bind. specialize (Ha st).
  destruct (f a st) as [[[] st1]|e|]; [|now destruct Ha as [-> ->]|contradiction].
  specialize (IH st1). rewrite Ha. simpl.
  destruct (forEach f l st1) as [[[] st2]|e|]; [exact IH|exact IH|contradiction].
Qed.

Lemma labelingFlowNode_labels node :
  labels (labelingFlowNode node) (hasEmptyNode node).
Proof.
  assert (Hbranchy : forall (s : oid) (branches : list (Expression * FlowNode))
                            (otherwise : option FlowNode) (node : FlowNode),
    Forall (fun branch => labels (labelingFlowNode (snd branch))
                            (hasEmptyNode (snd branch))) branches ->
    match otherwise with
    | Some block => labels (labelingFlowNode block) (hasEmptyNode block)
    | None => True
    end ->
    self node = s ->
    labels (addNode node ;;;
            forEach (fun branch => labelingFlowNode (snd branch)) branches ;;;
            match otherwise with
            | Some block => labelingFlowNode block
            | None => ret tt
            end)
           (existsb (fun branch => hasEmptyNode (snd branch)) branches
            || match otherwise with
               | Some block => hasEmptyNode block
               | None => false
               end)).
  { intros s branches otherwise node0 IHb IHo _ lst.
    unfold bind, addNode, modify.
    pose proof (forEach_labels _ (fun branch => hasEmptyNode (snd branch)) _ IHb
                  (mkLabelling (flowNodeMap lst ++ [self node0])
                     (<[self node0 := Z.of_nat (length (flowNodeMap lst))]> (ids lst))))
      as Hb.
    destruct (forEach _ branches _) as [[[] st1]|e|];
      [|now destruct Hb as [-> ->]|contradiction].
    rewrite Hb. simpl. destruct otherwise as [block|]; [apply IHo|reflexivity]. }
  induction node
    as [s st n m | s st n m | s st m
       | s st branches otherwise m n [IHb IHo]
       | s st branches otherwise m n [IHb IHo]
       | s st body n m IH | s main m IH | s st n m | s st m
       | s nodes n m IH]
    using FlowNode_nested_ind; try (intros lst; reflexivity).
  - now apply (Hbranchy s).
  - now apply (Hbranchy s).
  - intros lst. simpl. unfold bind, addNode, modify. apply IH.
  - intros lst. simpl. unfold bind, addNode, modify. apply IH.
  - intros lst. simpl. unfold bind.
    pose proof (forEach_labels _ hasEmptyNode _ IH lst) as Hn.
    destruct (forEach labelingFlowNode nodes lst) as [[[] st1]|e|];
      [|destruct nodes; [discriminate (proj1 Hn)|exact Hn]|contradiction].
    destruct nodes as [|first rest]; [now split|exact Hn].
Qed.

(** ** flowAnalyzePass as a whole *)

Lemma all_statements_lower statements :
  Forall (statementOK toFlowNode) statements.
Proof. apply Forall_forall. intros s _. apply toFlowNode_lowers. Qed.


(** The lowering of the root block: it throws exactly when a statement is
    ill scoped. *)
Lemma root_lowered program :
  match lowerRoot program (mkLowering 0 ∅ []) with
  | OK (root, _) =>
      existsb (illScoped ∅ false) program = false
      /\ (existsb hasEmptyBlock program = true -> hasEmptyNode root = true)
      /\ exists block nodes,
           root = BlockFlowNode block (nodes ++ [implicitReturnNode]) 0%nat
                    (forallb mergable nodes)
           /\ length nodes = length program
  | Throw _ => existsb (illScoped ∅ false) program = true
  | OutOfFuel => False
  end.
Proof.
  unfold lowerRoot. unfold bind at 1. unfold alloc at 1. simpl.
  set (st := mkLowering 1 ∅ []).
  pose proof (toBlockFlowNode_lowers toFlowNode program
                (all_statements_lower program) 0%nat st) as H.
  unfold lowers in H. unfold bind.
  assert (Hill : existsb (ill st) program = existsb (illScoped ∅ false) program).
  { unfold ill, st. simpl. now rewrite dom_empty_L. }
  rewrite Hill in H.
  destruct (toBlockFlowNode toFlowNode program 0%nat st) as [[root st1]|e|];
    [|exact H|contradiction].
  destruct H as (_ & _ & _ & Hsc & Hem & nodes & Hroot & Hlen & _).
  unfold ret. rewrite Hroot in Hem |- *. simpl. split; [exact Hsc|split].
  - intros E. simpl in Hem.
    destruct program as [|s rest]; [discriminate|].
    destruct nodes as [|n nodes]; [discriminate|].
    specialize (Hem E). simpl in *.
    rewrite existsb_app. apply orb_true_iff in Hem as [->| ->]; [reflexivity|].
    now rewrite orb_true_r.
  - exists (self root), nodes. split; [reflexivity|assumption].
Qed.

(** ** Claims C8, C9 and C10: flow analysis as a whole *)

(** C8. Flow analysis, and with it the whole compile, throws when the
    statement tree contains a loop label declared again inside the loop
    that declares it, a break or continue with no enclosing loop, a
    labelled break whose label is not in scope, or a statement of unknown
    kind. *)
Theorem C8_ill_scoped_program_fails_compile
    (program : Block) (getBuiltInFunction : string -> Result BuiltInFunction) :
  existsb (illScoped ∅ false) program = true ->
  exists e, flowAnalyzePass program = Throw e
            /\ compile program getBuiltInFunction = Throw e.
Proof.
  intros Hill. unfold compile, flowAnalyzePass.
  pose proof (root_lowered program) as H.
  destruct (lowerRoot program (mkLowering 0 ∅ [])) as [[root st]|e|]; [|now exists e|contradiction].
  destruct H as (Hsc & _). congruence.
Qed.

Lemma C8_witness :
  existsb (illScoped ∅ false)
    [LoopStatement false None None None (Some "outer")
       [LoopStatement false None None None (Some "outer") [ExitStatement]]] = true
  /\ exists e,
       flowAnalyzePass
         [LoopStatement false None None None (Some "outer")
            [LoopStatement false None None None (Some "outer") [ExitStatement]]]
       = Throw e
       /\ compile
            [LoopStatement false None None None (Some "outer")
               [LoopStatement false None None None (Some "outer") [ExitStatement]]]
            (fun name => Throw (MissingBuiltInFunction name)) = Throw e.
Proof.
  split; [vm_compute; reflexivity|].
  apply C8_ill_scoped_program_fails_compile. vm_compute. reflexivity.
Defined.

(** The four kinds of failure, each at a smallest program. *)
Example duplicate_label_throws :
  flowAnalyzePass
    [LoopStatement false None None None (Some "outer")
       [LoopStatement false None None None (Some "outer") [ExitStatement]]]
  = Throw (DuplicateLabel "outer").
Proof. vm_compute. reflexivity. Qed.

Example break_outside_loop_throws :
  flowAnalyzePass [BreakStatement None] = Throw UnexceptedBreak
  /\ flowAnalyzePass [ContinueStatement] = Throw UnexceptedContinue.
Proof. split; vm_compute; reflexivity. Qed.

Example undefined_label_throws :
  flowAnalyzePass
    [LoopStatement false None None None (Some "outer") [BreakStatement (Some "inner")]]
  = Throw UndefLabel.
Proof. vm_compute. reflexivity. Qed.

Example unknown_statement_throws :
  flowAnalyzePass [OtherStatement TFunctionDeclare] = Throw UnknownStatementType.
Proof. vm_compute. reflexivity. Qed.

(** C9. When flow analysis succeeds, the root block holds one node per
    statement of the program followed by the implicit Return node, which is
    also the root's [next]; and executing the empty program resolves to
    [undefined], not to the exit sentinel, whatever the interpreter, the
    parameters and the environment are. *)
Theorem C9_implicit_return :
  (forall (program : Block) root ids,
      flowAnalyzePass program = OK (root, ids) ->
      exists block nodes mergable,
        root = BlockFlowNode block (nodes ++ [implicitReturnNode])
                 (self implicitReturnNode) mergable
        /\ length nodes = length program)
  /\ (forall interpreter fuel parameters env,
        exec interpreter (S (S fuel)) [] parameters env
        = OK (Resolved VUndefined, mkContext env [] [[0]])).
Proof.
  split.
  - intros program root ids. unfold flowAnalyzePass.
    pose proof (root_lowered program) as H.
    destruct (lowerRoot program (mkLowering 0 ∅ [])) as [[root' st]|e|]; [|discriminate|contradiction].
    destruct H as (_ & _ & block & nodes & -> & Hlen).
    destruct (labelingFlowNode _ _) as [[[] lst]|e|]; try discriminate.
    intros E. injection E as <- _. eauto.
  - intros interpreter fuel parameters env. reflexivity.
Qed.

Lemma C9_witness :
  flowAnalyzePass [ExitStatement]
  = OK (BlockFlowNode 2%nat [ExitFlowNode 1%nat ExitStatement true; implicitReturnNode] 0%nat true,
        <[2%nat := 0]> (<[0%nat := 1]> (<[1%nat := 0]> ∅)))
  /\ exists block nodes mergable,
       BlockFlowNode 2%nat [ExitFlowNode 1%nat ExitStatement true; implicitReturnNode] 0%nat true
       = BlockFlowNode block (nodes ++ [implicitReturnNode])
           (self implicitReturnNode) mergable
       /\ length nodes = length [ExitStatement].
Proof.
  assert (E : flowAnalyzePass [ExitStatement]
    = OK (BlockFlowNode 2%nat [ExitFlowNode 1%nat ExitStatement true; implicitReturnNode] 0%nat true,
          <[2%nat := 0]> (<[0%nat := 1]> (<[1%nat := 0]> ∅)))).
  { vm_compute. reflexivity. }
  split; [exact E|].
  exact (proj1 C9_implicit_return [ExitStatement] _ _ E).
Defined.

(** C10. A program in which the body of an If branch, of a Switch branch,
    of an otherwise block or of a loop is the empty statement list does not
    compile: flow analysis throws.  When the program has none of the
    compile-time errors of C8, what is thrown is the labelling walk's read
    of [node.nodes[0].id] on the empty block.  The root block itself may be
    empty: the implicit Return is appended to it first. *)
Theorem C10_empty_nested_block_fails_compile
    (program : Block) (getBuiltInFunction : string -> Result BuiltInFunction) :
  existsb hasEmptyBlock program = true ->
  (exists e, flowAnalyzePass program = Throw e
             /\ compile program getBuiltInFunction = Throw e)
  /\ (existsb (illScoped ∅ false) program = false ->
      flowAnalyzePass program = Throw emptyBlockError).
Proof.
  intros Hempty. unfold compile, flowAnalyzePass.
  pose proof (root_lowered program) as H.
  destruct (lowerRoot program (mkLowering 0 ∅ [])) as [[root st]|e|]; [|split|contradiction].
  - destruct H as (_ & Hem & _). specialize (Hem Hempty).
    pose proof (labelingFlowNode_labels root (mkLabelling [] ∅)) as Hl.
    destruct (labelingFlowNode root _) as [[[] lst]|e|]; [congruence| |contradiction].
    destruct Hl as [_ ->]. split; [now exists emptyBlockError|reflexivity].
  - now exists e.
  - congruence.
Qed.

Lemma C10_witness :
  existsb hasEmptyBlock [IfStatement [(test (fun _ => true), [])] None] = true
  /\ (exists e,
        flowAnalyzePass [IfStatement [(test (fun _ => true), [])] None] = Throw e
        /\ compile [IfStatement [(test (fun _ => true), [])] None]
             (fun name => Throw (MissingBuiltInFunction name)) = Throw e)
  /\ (existsb (illScoped ∅ false)
        [IfStatement [(test (fun _ => true), [])] None] = false ->
      flowAnalyzePass [IfStatement [(test (fun _ => true), [])] None]
      = Throw emptyBlockError).
Proof.
  split; [reflexivity|].
  apply C10_empty_nested_block_fails_compile. reflexivity.
Defined.

(** The root block is the only one that may be empty. *)
Example empty_root_compiles :
  exists root ids, flowAnalyzePass [] = OK (root, ids).
Proof. eexists _, _. vm_compute. reflexivity. Qed.

Example empty_loop_body_throws :
  flowAnalyzePass [LoopStatement false None (Some (test (fun _ => true))) None None []]
  = Throw emptyBlockError.
Proof. vm_compute. reflexivity. Qed.

(** ** The stepping engine *)

Lemma next_inv interpreter run0 fuel ctx ctx1 :
  next interpreter run0 fuel ctx = OK ctx1 ->
  exists this rest op scope,
    callStack ctx = this :: rest
    /\ execNode (executable this) (current this) fuel (scopeOf this ctx)
       = OK (Some op, scope)
    /\ match op with
       | Move n => ctx1 = withCurrent n (stepped ctx this rest scope)
       | Call name ps n =>
           exists r, callByName interpreter run0 name ps
                       (withCurrent n (stepped ctx this rest scope)) = OK (r, ctx1)
       | Return v =>
           ctx1 = mkContext (env scope)
                    (setReturnValue v (setCurrent (-1) (afterStep this scope)) :: rest)
                    (snapshots (snapshot ctx))
       | Exit => ctx1 = withCurrent (-2) (stepped ctx this rest scope)
       end.
Proof.
  unfold next. simpl. destruct (callStack ctx) as [|this rest] eqn:E; [discriminate|].
  unfold bindR, scopeOf.
  destruct (execNode _ _ _ _) as [[[op|] scope]|e|] eqn:Hexec; try discriminate.
  intros H. exists this, rest, op, scope. split; [reflexivity|]. split; [exact Hexec|].
  unfold withCurrent, stepped, snapshot. simpl. rewrite E.
  destruct op as [n|name ps n|v|]; simpl in H |- *.
  - now injection H as <-.
  - destruct (callByName _ _ _ _ _) as [[r c]|e|]; try discriminate.
    injection H as <-. now exists r.
  - now injection H as <-.
  - now injection H as <-.
Qed.

Lemma call_keeps run0 executable ps ctx r ctx' :
  keepsFrames run0 ->
  call run0 executable ps ctx = OK (r, ctx') ->
  exists during,
    callStack ctx' = callStack ctx
    /\ snapshots ctx' = snapshots ctx ++ during
    /\ during <> []
    /\ above (callStack ctx) during.
Proof.
  intros Hrun. unfold call, bindR.
  destruct (run0 _) as [[res c]|e|] eqn:E; try discriminate.
  intros H. injection H as <- <-.
  destruct (Hrun _ _ _ E) as (this' & during & Hs & Hsn & Hne & Hab).
  simpl in *. exists during. rewrite Hs. simpl.
  split; [reflexivity|]. split; [assumption|]. split; [|assumption].
  apply (Hne _ eq_refl). simpl. lia.
Qed.

Lemma callByName_keeps interpreter run0 name ps ctx r ctx' :
  keepsFrames run0 ->
  callByName interpreter run0 name ps ctx = OK (r, ctx') ->
  exists during,
    callStack ctx' = callStack ctx
    /\ snapshots ctx' = snapshots ctx ++ during
    /\ during <> []
    /\ above (callStack ctx) during.
Proof.
  intros Hrun. unfold callByName, bindR.
  destruct (findGlobalFunction interpreter name) as [executable|e|]; try discriminate.
  now apply call_keeps.
Qed.

Lemma above_push this rest during :
  above (this :: rest) during -> above rest during.
Proof.
  unfold above. intros H. eapply Forall_impl; [exact H|].
  intros snap (upper & Hne & ->).
  exists (upper ++ [current this]). split.
  - now destruct upper.
  - simpl. now rewrite <- app_assoc.
Qed.

(** A step leaves the frames below the running one alone, and while a
    callee runs the running frame itself is below the callee's frames. *)
Lemma next_keeps interpreter run0 fuel ctx ctx1 this rest :
  keepsFrames run0 ->
  callStack ctx = this :: rest ->
  next interpreter run0 fuel ctx = OK ctx1 ->
  exists this1 during,
    callStack ctx1 = this1 :: rest
    /\ snapshots ctx1 = snapshots ctx ++ [map current (this :: rest)] ++ during
    /\ above rest during.
Proof.
  intros Hrun Hstack H.
  destruct (next_inv _ _ _ _ _ H) as (this0 & rest0 & op & scope & E & _ & Hop).
  rewrite Hstack in E. injection E as <- <-.
  unfold withCurrent, stepped, snapshot in Hop. simpl in Hop. rewrite Hstack in Hop.
  destruct op as [n|name ps n|v|].
  - subst ctx1. eexists _, []. simpl.
    split; [reflexivity|]. split; [reflexivity|constructor].
  - destruct Hop as (r & Hcall).
    destruct (callByName_keeps _ _ _ _ _ _ _ Hrun Hcall) as (during & Hs & Hsn & _ & Hab).
    simpl in *. eexists _, during. rewrite Hs, Hsn, <- app_assoc.
    split; [reflexivity|]. split; [reflexivity|]. now apply above_push in Hab.
  - subst ctx1. eexists _, []. simpl.
    split; [reflexivity|]. split; [reflexivity|constructor].
  - subst ctx1. eexists _, []. simpl.
    split; [reflexivity|]. split; [reflexivity|constructor].
Qed.

Lemma run_keeps interpreter fuel : keepsFrames (run interpreter fuel).
Proof.
  induction fuel as [|fuel IH]; intros ctx r ctx'; simpl; [discriminate|].
  destruct (callStack ctx) as [|this rest] eqn:Hstack; [discriminate|].
  destruct (current this >=? 0) eqn:Hpc.
  - unfold bindR at 1.
    destruct (next _ _ _ _) as [ctx1|e|] eqn:Hnext; try discriminate.
    intros Hrun.
    destruct (next_keeps _ _ _ _ _ _ _ IH Hstack Hnext)
      as (this1 & during1 & Hs1 & Hsn1 & Hab1).
    destruct (IH _ _ _ Hrun) as (this' & during2 & Hs2 & Hsn2 & _ & Hab2).
    rewrite Hs1 in Hs2, Hab2. simpl in *.
    exists this', ([current this :: map current rest] ++ during1 ++ during2).
    split; [exact Hs2|]. split.
    + now rewrite Hsn2, Hsn1, <- !app_assoc.
    + split; [discriminate|]. apply Forall_app. split.
      * constructor; [|constructor]. now exists [current this].
      * apply Forall_app. now split.
  - intros H. assert (ctx' = ctx) as ->.
    { destruct (current this =? -1); [now injection H|].
      destruct (current this =? -2); now injection H. }
    exists this, []. rewrite Hstack, app_nil_r. simpl.
    split; [reflexivity|]. split; [reflexivity|]. split; [|constructor].
    intros this0 [= <-] Hpos. rewrite Z.geb_leb in Hpc. lia.
Qed.

(** ** Lowering: the order of the objects *)

Lemma bind_OK {S A B : Type} (c : State S A) (k : A -> State S B) s b s2 :
  bind c k s = OK (b, s2) ->
  exists a s1, c s = OK (a, s1) /\ k a s1 = OK (b, s2).
Proof.
  unfold bind. destruct (c s) as [[a s1]|e|]; try discriminate. eauto.
Qed.

Lemma lowers_frame {A : Type} (c : Lower A) st bad (Q : A -> Prop) a st' :
  lowers c st bad Q -> c st = OK (a, st') ->
  labelMap st' = labelMap st
  /\ breakableNodeStack st' = breakableNodeStack st
  /\ (allocated st <= allocated st')%nat
  /\ Q a.
Proof. unfold lowers. intros H E. rewrite E in H. tauto. Qed.

Lemma stateOK_later st st' :
  stateOK st ->
  labelMap st' = labelMap st ->
  breakableNodeStack st' = breakableNodeStack st ->
  (allocated st <= allocated st')%nat ->
  stateOK st'.
Proof.
  intros [Hk Hl] El Ek Ha. unfold stateOK. rewrite El, Ek. split.
  - eapply Forall_impl; [exact Hk|]. simpl. intros. lia.
  - eapply map_Forall_impl; [exact Hl|]. simpl. intros. lia.
Qed.

Lemma placed_widen lo hi lo' hi' x :
  (lo' <= lo)%nat -> (hi <= hi')%nat -> placed lo hi x -> placed lo' hi' x.
Proof. intros ? ? (? & ? & ?). split; [lia|]. now split. Qed.

Lemma tidyAll_widen lo hi lo' hi' xs :
  (lo' <= lo)%nat -> (hi <= hi')%nat -> tidyAll lo hi xs -> tidyAll lo' hi' xs.
Proof.
  intros ? ? [H N]. split; [|exact N].
  eapply Forall_impl; [exact H|]. intros x. now apply placed_widen.
Qed.

Lemma tidyAll_nil lo hi : tidyAll lo hi [].
Proof. split; constructor. Qed.

Lemma tidyAll_selves lo hi xs o :
  tidyAll lo hi xs -> In o (map self xs) -> (lo <= o < hi)%nat.
Proof.
  intros [H _] Hin. apply in_map_iff in Hin as (x & <- & Hx).
  rewrite Forall_forall in H. apply list_elem_of_In in Hx. now apply H.
Qed.

(** Two groups of nodes made one after the other. *)
Lemma tidyAll_app a b c lo hi xs ys :
  tidyAll a b xs -> tidyAll b c ys ->
  (lo <= a)%nat -> (a <= b)%nat -> (b <= c)%nat -> (c <= hi)%nat ->
  tidyAll lo hi (xs ++ ys) /\ tidyAll lo hi (ys ++ xs).
Proof.
  intros Hx Hy Ha Hb Hc Hd.
  assert (Hdisj : forall o, In o (map self xs) -> In o (map self ys) -> False).
  { intros o I1 I2. apply (tidyAll_selves _ _ _ _ Hx) in I1.
    apply (tidyAll_selves _ _ _ _ Hy) in I2. lia. }
  pose proof (tidyAll_widen a b lo hi xs ltac:(lia) ltac:(lia) Hx) as [Fx Nx].
  pose proof (tidyAll_widen b c lo hi ys ltac:(lia) ltac:(lia) Hy) as [Fy Ny].
  split; (split; [apply Forall_app; now split|]); rewrite map_app;
    apply NoDup_app; (split; [assumption|]); (split; [|assumption]);
    intros o I1 I2; apply list_elem_of_In in I1, I2; eauto.
Qed.

(** A node made after the nodes below it. *)
Lemma tidyAll_cons lo hi mid x xs :
  tidyAll lo mid xs -> placed mid hi x -> (lo <= mid)%nat ->
  tidyAll lo hi (x :: xs).
Proof.
  intros Hxs Hx ?.
  pose proof (tidyAll_widen lo mid lo hi xs ltac:(lia) ltac:(destruct Hx; lia) Hxs)
    as [F N].
  split.
  - constructor; [|exact F]. now apply (placed_widen mid hi).
  - simpl. constructor; [|exact N]. intros Hin. apply list_elem_of_In in Hin.
    apply (tidyAll_selves _ _ _ _ Hxs) in Hin. destruct Hx. lia.
Qed.

(** A node made before the nodes below it (a loop). *)
Lemma tidyAll_cons_before lo hi mid x xs :
  placed lo mid x -> tidyAll mid hi xs -> (mid <= hi)%nat ->
  tidyAll lo hi (x :: xs).
Proof.
  intros Hx Hxs ?.
  pose proof (tidyAll_widen mid hi lo hi xs ltac:(destruct Hx; lia) ltac:(lia) Hxs)
    as [F N].
  split.
  - constructor; [|exact F]. now apply (placed_widen lo mid).
  - simpl. constructor; [|exact N]. intros Hin. apply list_elem_of_In in Hin.
    apply (tidyAll_selves _ _ _ _ Hxs) in Hin. destruct Hx. lia.
Qed.

Lemma tidy_self lo hi node : tidy lo hi node -> (lo <= self node < hi)%nat.
Proof.
  intros [H _]. destruct node; simpl in H; apply Forall_cons_1 in H as [(? & _) _];
    assumption.
Qed.

Section TidyLists.
Variable f : Statement -> oid -> Lower FlowNode.

Lemma lowerStatements_tidy statements :
Forall (statementOK f) statements ->
Forall (statementTidy f) statements ->
forall successor st nodes last st',
  stateOK st -> (successor < allocated st)%nat ->
  lowerStatements f statements successor st = OK ((nodes, last), st') ->
  tidyAll (allocated st) (allocated st') (flat_map nodesOf nodes)
  /\ (last < allocated st')%nat
  /\ (allocated st <= allocated st')%nat
  /\ labelMap st' = labelMap st
  /\ breakableNodeStack st' = breakableNodeStack st.
Proof.
intros Hok Htidy. induction Htidy as [|statement rest Hs _ IH];
  intros successor st nodes last st' Hst Hsucc; simpl.
- intros [= <- <- <-]. split; [apply tidyAll_nil|]. auto.
- apply Forall_cons_1 in Hok as [Hok1 Hok].
  intros H. apply bind_OK in H as ([nodes1 last1] & st1 & H1 & H).
  apply bind_OK in H as (node & st2 & H2 & H).
  injection H as <- <- <-.
  destruct (IH Hok _ _ _ _ _ Hst Hsucc H1) as (T1 & L1 & A1 & El1 & Ek1).
  assert (Hst1 : stateOK st1) by now apply (stateOK_later st).
  pose proof (Hs _ _ _ _ Hst1 L1 H2) as T2.
  destruct (lowers_frame _ _ _ _ _ _ (Hok1 last1 st1) H2) as (El2 & Ek2 & A2 & _).
  pose proof (tidy_self _ _ _ T2) as S2.
  split; [|split; [lia|split; [lia|split; congruence]]].
  simpl.
  apply (tidyAll_app (allocated st) (allocated st1) (allocated st2)
           (allocated st) (allocated st2) _ _ T1 T2); lia.
Qed.

Lemma toBlockFlowNode_tidy statements :
Forall (statementOK f) statements ->
Forall (statementTidy f) statements ->
forall successor st block st',
  stateOK st -> (successor < allocated st)%nat ->
  toBlockFlowNode f statements successor st = OK (block, st') ->
  tidy (allocated st) (allocated st') block
  /\ (allocated st < allocated st')%nat
  /\ labelMap st' = labelMap st
  /\ breakableNodeStack st' = breakableNodeStack st.
Proof.
intros Hok Htidy successor st block st' Hst Hsucc H.
unfold toBlockFlowNode in H.
apply bind_OK in H as ([nodes last] & st1 & H1 & H).
destruct (lowerStatements_tidy _ Hok Htidy _ _ _ _ _ Hst Hsucc H1)
  as (T1 & _ & A1 & El1 & Ek1).
unfold bind, alloc, ret in H. simpl in H. injection H as <- <-. simpl.
split; [|split; [lia|split; assumption]].
unfold tidy. simpl.
apply (tidyAll_cons _ _ (allocated st1)); [exact T1| |lia].
split; [simpl; lia|]. split.
- simpl. intros n [= <-]. lia.
- simpl. destruct T1 as [F _]. eapply Forall_impl; [exact F|].
  intros d (? & _). simpl in *. lia.
Qed.
End TidyLists.

Section TidyBranches.
Variable f : Statement -> oid -> Lower FlowNode.

Lemma lowerIfBranches_tidy branches :
Forall (fun branch => Forall (statementOK f) (snd branch)) branches ->
Forall (fun branch => Forall (statementTidy f) (snd branch)) branches ->
forall successor st flowBranches st',
  stateOK st -> (successor < allocated st)%nat ->
  lowerIfBranches f branches successor st = OK (flowBranches, st') ->
  tidyAll (allocated st) (allocated st')
    (flat_map (fun branch => nodesOf (snd branch)) flowBranches)
  /\ (allocated st <= allocated st')%nat
  /\ labelMap st' = labelMap st
  /\ breakableNodeStack st' = breakableNodeStack st.
Proof.
intros Hok Htidy. induction Htidy as [|[condition body] rest Hs _ IH];
  intros successor st flowBranches st' Hst Hsucc; simpl.
- intros [= <- <-]. split; [apply tidyAll_nil|]. auto.
- apply Forall_cons_1 in Hok as [Hok1 Hok]. simpl in Hok1, Hs.
  intros H. apply bind_OK in H as (node & st1 & H1 & H).
  apply bind_OK in H as (flowRest & st2 & H2 & H).
  injection H as <- <-.
  destruct (toBlockFlowNode_tidy f body Hok1 Hs _ _ _ _ Hst Hsucc H1)
    as (T1 & A1 & El1 & Ek1).
  assert (Hst1 : stateOK st1) by (apply (stateOK_later st); auto; lia).
  destruct (IH Hok successor st1 _ _ Hst1 ltac:(lia) H2) as (T2 & A2 & El2 & Ek2).
  split; [|split; [lia|split; congruence]].
  simpl.
  apply (tidyAll_app (allocated st) (allocated st1) (allocated st2)
           (allocated st) (allocated st2) _ _ T1 T2); lia.
Qed.

Lemma lowerSwitchBranches_tidy branches :
Forall (fun branch => Forall (statementOK f) (snd branch)) branches ->
Forall (fun branch => Forall (statementTidy f) (snd branch)) branches ->
forall last0 st flowBranches last st',
  stateOK st -> (last0 < allocated st)%nat ->
  lowerSwitchBranches f branches last0 st = OK ((flowBranches, last), st') ->
  tidyAll (allocated st) (allocated st')
    (flat_map (fun branch => nodesOf (snd branch)) flowBranches)
  /\ (last < allocated st')%nat
  /\ (allocated st <= allocated st')%nat
  /\ labelMap st' = labelMap st
  /\ breakableNodeStack st' = breakableNodeStack st.
Proof.
intros Hok Htidy. induction Htidy as [|[condition body] rest Hs _ IH];
  intros last0 st flowBranches last st' Hst Hlast; simpl.
- intros [= <- <- <-]. split; [apply tidyAll_nil|]. auto.
- apply Forall_cons_1 in Hok as [Hok1 Hok]. simpl in Hok1, Hs.
  intros H. apply bind_OK in H as ([flowRest last1] & st1 & H1 & H).
  apply bind_OK in H as (chained & st2 & H2 & H).
  apply bind_OK in H as (node & st3 & H3 & H).
  injection H as <- <- <-.
  destruct (IH Hok _ _ _ _ _ Hst Hlast H1) as (T1 & L1 & A1 & El1 & Ek1).
  assert (Hst1 : stateOK st1) by now apply (stateOK_later st).
  destruct (toBlockFlowNode_tidy f body Hok1 Hs _ _ _ _ Hst1 L1 H2)
    as (T2 & A2 & El2 & Ek2).
  pose proof (tidy_self _ _ _ T2) as S2.
  assert (Hst2 : stateOK st2) by (apply (stateOK_later st1); auto; lia).
  assert (L2 : (self chained < allocated st2)%nat) by lia.
  destruct (toBlockFlowNode_tidy f body Hok1 Hs _ _ _ _ Hst2 L2 H3)
    as (T3 & A3 & El3 & Ek3).
  split; [|split; [lia|split; [lia|split; congruence]]].
  simpl.
  apply (tidyAll_app (allocated st) (allocated st2) (allocated st3)
           (allocated st) (allocated st3) _ _); try lia; [|exact T3].
  apply (tidyAll_widen (allocated st) (allocated st1)); [lia|lia|exact T1].
Qed.

Lemma lowerOtherwise_tidy otherwise :
match otherwise with
| Some block => Forall (statementOK f) block /\ Forall (statementTidy f) block
| None => True
end ->
forall successor st flowOtherwise st',
  stateOK st -> (successor < allocated st)%nat ->
  lowerOtherwise f otherwise successor st = OK (flowOtherwise, st') ->
  tidyAll (allocated st) (allocated st')
    match flowOtherwise with Some block => nodesOf block | None => [] end
  /\ (match flowOtherwise with Some block => self block | None => successor end
      < allocated st')%nat
  /\ (allocated st <= allocated st')%nat
  /\ labelMap st' = labelMap st
  /\ breakableNodeStack st' = breakableNodeStack st.
Proof.
destruct otherwise as [block|]; simpl.
- intros [Hok Htidy] successor st flowOtherwise st' Hst Hsucc H.
  apply bind_OK in H as (node & st1 & H1 & H). injection H as <- <-.
  destruct (toBlockFlowNode_tidy f block Hok Htidy _ _ _ _ Hst Hsucc H1)
    as (T1 & A1 & El1 & Ek1).
  pose proof (tidy_self _ _ _ T1).
  split; [exact T1|]. split; [lia|]. split; [lia|]. now split.
- intros _ successor st flowOtherwise st' Hst Hsucc [= <- <-].
  split; [apply tidyAll_nil|]. auto.
Qed.
End TidyBranches.

Lemma placed_leaf lo x :
  self x = lo -> (forall n, nextOf x = Some n -> (n < lo)%nat) ->
  blockAfterNodes x -> placed lo (S lo) x.
Proof. intros E Hn Hb. split; [lia|]. split; [|exact Hb]. now rewrite E. Qed.

Lemma tidy_leaf lo x :
  nodesOf x = [x] -> self x = lo ->
  (forall n, nextOf x = Some n -> (n < lo)%nat) -> blockAfterNodes x ->
  tidy lo (S lo) x.
Proof.
  intros En E Hn Hb. unfold tidy. rewrite En. split.
  - constructor; [|constructor]. now apply placed_leaf.
  - simpl. constructor; [|constructor]. intros Hin. inversion Hin.
Qed.

Lemma all_statements_lower_in branches :
  Forall (fun branch : Expression * list Statement =>
            Forall (statementOK toFlowNode) (snd branch)) branches.
Proof.
  apply Forall_forall. intros branch _. apply Forall_forall. intros s _.
  apply toFlowNode_lowers.
Qed.

(** Every node that lowering makes is placed. *)
Lemma toFlowNode_tidy statement : statementTidy toFlowNode statement.
Proof.
  induction statement
    as [expression async | functionName parameters builtIn async | value
       | branches otherwise [IHb IHo] | pattern branches otherwise [IHb IHo]
       | skip initializer condition iterator label body IHbody
       | label | | | type]
    using Statement_nested_ind; intros successor st node st' Hst Hsucc.
  - simpl. unfold bind, alloc, ret. simpl. intros [= <- <-]. simpl.
    apply tidy_leaf; simpl; auto. intros n [= <-]. exact Hsucc.
  - simpl. unfold bind, alloc. simpl.
    destruct builtIn; unfold ret; intros [= <- <-]; simpl;
      (apply tidy_leaf; simpl; auto; intros n [= <-]; exact Hsucc).
  - simpl. unfold bind, alloc, ret. simpl. intros [= <- <-]. simpl.
    apply tidy_leaf; simpl; auto. discriminate.
  - (* If *)
    simpl. intros H.
    apply bind_OK in H as (flowBranches & st1 & H1 & H).
    apply bind_OK in H as (flowOtherwise & st2 & H2 & H).
    unfold bind, alloc, ret in H. simpl in H. injection H as <- <-.
    destruct (lowerIfBranches_tidy toFlowNode branches
                (all_statements_lower_in branches) IHb _ _ _ _ Hst Hsucc H1)
      as (T1 & A1 & El1 & Ek1).
    assert (Hst1 : stateOK st1) by now apply (stateOK_later st).
    assert (Hsucc1 : (successor < allocated st1)%nat) by lia.
    assert (Ho : match otherwise with
                 | Some block => Forall (statementOK toFlowNode) block
                                 /\ Forall (statementTidy toFlowNode) block
                 | None => True
                 end).
    { destruct otherwise; [|exact I]. split; [|exact IHo].
      apply Forall_forall. intros s _. apply toFlowNode_lowers. }
    destruct (lowerOtherwise_tidy toFlowNode otherwise Ho _ _ _ _ Hst1 Hsucc1 H2)
      as (T2 & _ & A2 & El2 & Ek2).
    unfold tidy. simpl.
    apply (tidyAll_cons _ _ (allocated st2)); [| |lia].
    + apply (tidyAll_app (allocated st) (allocated st1) (allocated st2)
               (allocated st) (allocated st2) _ _ T1 T2); lia.
    + apply placed_leaf; simpl; auto. intros n [= <-]. lia.
  - (* Switch *)
    simpl. intros H.
    assert (Ho : match otherwise with
                 | Some block => Forall (statementOK toFlowNode) block
                                 /\ Forall (statementTidy toFlowNode) block
                 | None => True
                 end).
    { destruct otherwise; [|exact I]. split; [|exact IHo].
      apply Forall_forall. intros s _. apply toFlowNode_lowers. }
    apply bind_OK in H as (flowOtherwise & st1 & H1 & H).
    apply bind_OK in H as ([flowBranches last] & st2 & H2 & H).
    unfold bind, alloc, ret in H. simpl in H. injection H as <- <-.
    destruct (lowerOtherwise_tidy toFlowNode otherwise Ho _ _ _ _ Hst Hsucc H1)
      as (T1 & L1 & A1 & El1 & Ek1).
    assert (Hst1 : stateOK st1) by now apply (stateOK_later st).
    destruct (lowerSwitchBranches_tidy toFlowNode branches
                (all_statements_lower_in branches) IHb _ _ _ _ _ Hst1 L1 H2)
      as (T2 & _ & A2 & El2 & Ek2).
    unfold tidy. simpl.
    apply (tidyAll_cons _ _ (allocated st2)); [| |lia].
    + apply (tidyAll_app (allocated st) (allocated st1) (allocated st2)
               (allocated st) (allocated st2) _ _ T1 T2); lia.
    + apply placed_leaf; simpl; auto. intros n [= <-]. lia.
  - (* Loop *)
    assert (Hbody : Forall (statementOK toFlowNode) body).
    { apply Forall_forall. intros s _. apply toFlowNode_lowers. }
    simpl. unfold bind, alloc, get, ret. simpl.
    set (loopNode := S (allocated st)).
    assert (Hrun : forall labels flowBody st3,
      map_Forall (fun (_ : string) o => (o < S loopNode)%nat) labels ->
      toBlockFlowNode toFlowNode body loopNode
        (mkLowering (S loopNode) labels (loopNode :: breakableNodeStack st))
      = OK (flowBody, st3) ->
      tidy (S loopNode) (allocated st3) flowBody
      /\ (S loopNode < allocated st3)%nat).
    { intros labels flowBody st3 Hlabels H.
      assert (Hst2 : stateOK (mkLowering (S loopNode) labels
                                (loopNode :: breakableNodeStack st))).
      { split; simpl; [|exact Hlabels]. constructor; [lia|].
        destruct Hst as [Hk _]. eapply Forall_impl; [exact Hk|].
        simpl. intros. lia. }
      pose proof (toBlockFlowNode_tidy toFlowNode body Hbody IHbody loopNode _
                    flowBody st3 Hst2) as HT.
      simpl in HT. destruct (HT (Nat.lt_succ_diag_r loopNode) H) as (T & A & _).
      now split. }
    assert (Hloop : forall flowBody st3,
      tidy (S loopNode) (allocated st3) flowBody ->
      (S loopNode < allocated st3)%nat ->
      tidy (allocated st) (allocated st3)
        (LoopFlowNode loopNode
           (LoopStatement skip initializer condition iterator label body)
           flowBody successor (mergable flowBody))).
    { intros flowBody st3 T A. unfold tidy. simpl.
      apply (tidyAll_cons_before _ _ (S loopNode)); [|exact T|lia].
      split; [simpl; lia|]. split; [|exact I].
      simpl. intros n [= <-]. lia. }
    assert (Hfinish : forall flowBody st3 labels stack,
      tidy (S loopNode) (allocated st3) flowBody ->
      (S loopNode < allocated st3)%nat ->
      match initializer with
      | Some _ =>
          OK (LoopInitializerFlowNode (allocated st3)
                (LoopFlowNode loopNode
                   (LoopStatement skip initializer condition iterator label body)
                   flowBody successor (mergable flowBody)) true,
              mkLowering (S (allocated st3)) labels stack)
      | None =>
          if skip then OK (flowBody, mkLowering (allocated st3) labels stack)
          else OK (LoopFlowNode loopNode
                     (LoopStatement skip initializer condition iterator label body)
                     flowBody successor (mergable flowBody),
                   mkLowering (allocated st3) labels stack)
      end = OK (node, st') ->
      tidy (allocated st) (allocated st') node).
    { intros flowBody st3 labels stack T A.
      pose proof (Hloop flowBody st3 T A) as TL.
      destruct initializer as [e|]; [|destruct skip]; intros [= <- <-]; simpl.
      - unfold tidy. simpl.
        apply (tidyAll_cons _ _ (allocated st3)); [exact TL| |lia].
        apply placed_leaf; simpl; auto. discriminate.
      - apply (tidyAll_widen (S loopNode) (allocated st3)); [lia|lia|exact T].
      - exact TL. }
    destruct (labelOf label) as [l|] eqn:El.
    + simpl. destruct (labelMap st !! l) as [other|] eqn:Elookup; simpl;
        [discriminate|].
      unfold setLabel, pushBreakable, modify. simpl.
      destruct (toBlockFlowNode toFlowNode body loopNode _)
        as [[flowBody st3]|e|] eqn:Eb; try discriminate.
      apply Hrun in Eb as [T A].
      * unfold deleteLabel, popBreakable, modify. simpl.
        destruct initializer as [e|]; [|destruct skip]; simpl;
          apply (Hfinish flowBody st3 _ _ T A).
      * apply map_Forall_insert_2; [lia|]. destruct Hst as [_ Hl].
        eapply map_Forall_impl; [exact Hl|]. simpl. intros. lia.
    + simpl. unfold pushBreakable, modify. simpl.
      destruct (toBlockFlowNode toFlowNode body loopNode _)
        as [[flowBody st3]|e|] eqn:Eb; try discriminate.
      apply Hrun in Eb as [T A].
      * unfold popBreakable, modify. simpl.
        destruct initializer as [e|]; [|destruct skip]; simpl;
          apply (Hfinish flowBody st3 _ _ T A).
      * destruct Hst as [_ Hl].
        eapply map_Forall_impl; [exact Hl|]. simpl. intros. lia.
  - (* Break *)
    simpl. unfold bind, get, alloc, ret. simpl.
    destruct (labelOf label) as [l|].
    + destruct (labelMap st !! l) as [to|] eqn:E; simpl; [|discriminate].
      intros [= <- <-]. simpl. apply tidy_leaf; simpl; auto.
      intros n [= <-]. destruct Hst as [_ Hl]. apply (Hl l to E).
    + destruct (breakableNodeStack st) as [|to stack] eqn:E; simpl; [discriminate|].
      intros [= <- <-]. simpl. apply tidy_leaf; simpl; auto.
      intros n [= <-]. destruct Hst as [Hk _]. rewrite E in Hk.
      now apply Forall_cons_1 in Hk as [Hk _].
  - (* Continue *)
    simpl. unfold bind, get, alloc, ret. simpl.
    destruct (breakableNodeStack st) as [|to stack] eqn:E; simpl; [discriminate|].
    intros [= <- <-]. simpl. apply tidy_leaf; simpl; auto.
    intros n [= <-]. destruct Hst as [Hk _]. rewrite E in Hk.
    now apply Forall_cons_1 in Hk as [Hk _].
  - simpl. unfold bind, alloc, ret. simpl. intros [= <- <-]. simpl.
    apply tidy_leaf; simpl; auto. discriminate.
  - discriminate.
Qed.

(** ** The labelling walk: which [id] a node gets *)

Lemma elem_of_selves (xs : list FlowNode) (o : oid) :
  o ∈ map self xs <-> exists x, x ∈ xs /\ self x = o.
Proof.
  rewrite list_elem_of_In, in_map_iff. split; intros (x & H1 & H2); exists x.
  - now rewrite list_elem_of_In.
  - now rewrite <- list_elem_of_In.
Qed.

Lemma idOf_index (ids : gmap oid Z) (k : oid) (i : nat) :
  idOf ids k = Z.of_nat i <-> ids !! k = Some (Z.of_nat i).
Proof.
  unfold idOf. destruct (ids !! k) as [z|]; simpl; split.
  - now intros ->.
  - now intros [= ->].
  - lia.
  - discriminate.
Qed.

Lemma labelsTidily_ret : labelsTidily [] (ret tt).
Proof.
  intros st st' _ _ Hl _ [= <-]. split; [exact Hl|]. split; [auto|].
  split; [auto|]. intros x Hx. now apply elem_of_nil in Hx.
Qed.

Lemma labelsTidily_seq xs ys (c1 c2 : State Labelling unit) :
  labelsTidily xs c1 -> labelsTidily ys c2 ->
  labelsTidily (xs ++ ys) (c1 ;;; c2).
Proof.
  intros H1 H2 st st' Hnd Hba Hl Hfresh H.
  apply bind_OK in H as ([] & st1 & E1 & E2).
  rewrite map_app in Hnd, Hfresh. apply NoDup_app in Hnd as (N1 & Hdisj & N2).
  apply Forall_app in Hba as [B1 B2].
  destruct (H1 st st1 N1 B1 Hl) as (L1 & Hin1 & Hkeep1 & Hall1); [|exact E1|].
  { intros o Ho Hx. apply (Hfresh o Ho). apply elem_of_app. now left. }
  destruct (H2 st1 st' N2 B2 L1) as (L2 & Hin2 & Hkeep2 & Hall2); [|exact E2|].
  { intros o Ho Hy. destruct (Hin1 o Ho) as [Hold|Hx].
    - apply (Hfresh o Hold). apply elem_of_app. now right.
    - exact (Hdisj o Hx Hy). }
  split; [exact L2|]. split; [|split].
  - intros o Ho. rewrite map_app, elem_of_app.
    destruct (Hin2 o Ho) as [Ho1|Hy]; [|auto].
    destruct (Hin1 o Ho1) as [Hold|Hx]; auto.
  - auto.
  - intros x Hx Hb. apply elem_of_app in Hx as [Hx|Hx]; auto.
Qed.

Lemma labelsTidily_addNode x : isBlock x = false -> labelsTidily [x] (addNode x).
Proof.
  intros Hx st st' _ _ [J K] Hfresh [= <-]. simpl.
  assert (Hnew : self x ∉ flowNodeMap st).
  { intros Hin. apply (Hfresh _ Hin). simpl. apply list_elem_of_here. }
  unfold labelled. simpl.
  split; [split|split; [|split]].
  - intros k i. destruct (decide (k = self x)) as [->|Hk].
    + rewrite lookup_insert_eq. intros [= E]. apply Nat2Z.inj in E as <-.
      exists (self x). split; [|lia]. apply list_lookup_middle. reflexivity.
    + rewrite lookup_insert_ne by congruence. intros E.
      destruct (J k i E) as (o & Eo & Ho). exists o. split; [|exact Ho].
      now apply lookup_app_l_Some.
  - intros i o E. apply lookup_app_Some in E as [E|[Hi E]].
    + rewrite lookup_insert_ne; [now apply K|].
      intros <-. apply Hnew. eapply list_elem_of_lookup_2. exact E.
    + apply list_lookup_singleton_Some in E as [E <-].
      replace i with (length (flowNodeMap st)) by lia.
      apply lookup_insert_eq.
  - intros o Ho. apply elem_of_app in Ho as [Ho|Ho]; [now left|right].
    apply list_elem_of_singleton in Ho as ->. simpl. apply list_elem_of_here.
  - intros o Ho. apply elem_of_app. now left.
  - intros y Hy _. apply list_elem_of_singleton in Hy as ->.
    apply elem_of_app. right. apply list_elem_of_here.
Qed.

Lemma labelsTidily_forEach {A : Type} (g : A -> FlowNode)
    (walk : A -> State Labelling unit) (l : list A) :
  Forall (fun a => labelsTidily (nodesOf (g a)) (walk a)) l ->
  labelsTidily (flat_map (fun a => nodesOf (g a)) l) (forEach walk l).
Proof.
  induction 1 as [|a rest Ha _ IH]; simpl.
  - apply labelsTidily_ret.
  - now apply labelsTidily_seq.
Qed.

Lemma labelsTidily_block block nodes next m (c : State Labelling unit) :
  labelsTidily (flat_map nodesOf nodes) c ->
  labelsTidily (BlockFlowNode block nodes next m :: flat_map nodesOf nodes)
    (c ;;;
     match nodes with
     | [] => throw (TypeError "node.nodes[0] is undefined")
     | first :: _ =>
         modify (fun st => mkLabelling (flowNodeMap st)
                   (<[block := idOf (ids st) (self first)]> (ids st)))
     end).
Proof.
  intros H st st' Hnd Hba Hl Hfresh E.
  apply bind_OK in E as ([] & st1 & E1 & E2).
  simpl in Hnd. apply NoDup_cons in Hnd as [Hb Hnd].
  apply Forall_cons_1 in Hba as [Hbelow Hba]. simpl in Hbelow.
  destruct (H st st1 Hnd Hba Hl) as ([J K] & Hin & Hkeep & Hall); [|exact E1|].
  { intros o Ho Hx. apply (Hfresh o Ho). simpl. now apply list_elem_of_further. }
  destruct nodes as [|first rest]; [discriminate|].
  injection E2 as <-. unfold labelled. simpl.
  split; [split|split; [|split]].
  - intros k i. destruct (decide (k = block)) as [->|Hk].
    + rewrite lookup_insert_eq. intros [= E]. apply idOf_index in E.
      destruct (J _ _ E) as (o & Eo & Ho). exists o. split; [exact Eo|].
      assert (Hfirst : (self first < block)%nat); [|lia].
      rewrite Forall_forall in Hbelow. apply Hbelow. simpl.
      apply elem_of_app. left. destruct first; simpl; apply list_elem_of_here.
    + rewrite lookup_insert_ne by congruence. apply J.
  - intros i o E. rewrite lookup_insert_ne; [now apply K|].
    intros <-. apply list_elem_of_lookup_2 in E.
    destruct (Hin _ E) as [Hold|Hx]; [|now apply Hb].
    apply (Hfresh _ Hold). simpl. apply list_elem_of_here.
  - intros o Ho. destruct (Hin o Ho) as [Hold|Hx]; [now left|right].
    simpl. now apply list_elem_of_further.
  - exact Hkeep.
  - intros x Hx Hnb. apply elem_of_cons in Hx as [->|Hx]; [discriminate|].
    now apply Hall.
Qed.

Lemma labelsTidily_cons x xs (c : State Labelling unit) :
  isBlock x = false -> labelsTidily xs c ->
  labelsTidily (x :: xs) (addNode x ;;; c).
Proof.
  intros Hx Hc. apply (labelsTidily_seq [x] xs); [|exact Hc].
  now apply labelsTidily_addNode.
Qed.

Lemma labelingFlowNode_tidily node :
  labelsTidily (nodesOf node) (labelingFlowNode node).
Proof.
  induction node
    as [s st n m | s st n m | s st m
       | s st branches otherwise m n [IHb IHo]
       | s st branches otherwise m n [IHb IHo]
       | s st body n m IHbody | s main m IHmain | s st n m | s st m
       | s nodes n m IHnodes]
    using FlowNode_nested_ind;
    try (apply labelsTidily_addNode; reflexivity).
  - simpl. apply labelsTidily_cons; [reflexivity|].
    apply labelsTidily_seq; [now apply (labelsTidily_forEach snd)|].
    destruct otherwise; [exact IHo|apply labelsTidily_ret].
  - simpl. apply labelsTidily_cons; [reflexivity|].
    apply labelsTidily_seq; [now apply (labelsTidily_forEach snd)|].
    destruct otherwise; [exact IHo|apply labelsTidily_ret].
  - simpl. apply labelsTidily_cons; [reflexivity|exact IHbody].
  - simpl. apply labelsTidily_cons; [reflexivity|exact IHmain].
  - simpl. apply labelsTidily_block.
    apply (labelsTidily_forEach (fun x => x) labelingFlowNode). exact IHnodes.
Qed.

(** The root that [flowAnalyzePass] labels is tidy. *)
Lemma lowerRoot_tidy program root st' :
  lowerRoot program (mkLowering 0 ∅ []) = OK (root, st') ->
  tidy 0 (allocated st') root.
Proof.
  unfold lowerRoot, toBlockFlowNode. unfold bind at 1. unfold alloc at 1. simpl.
  intros H. apply bind_OK in H as (block & st2 & H & E).
  apply bind_OK in H as ([nodes last] & st1 & H1 & H).
  unfold bind, alloc, ret in H. simpl in H. injection H as <- <-.
  injection E as <- <-. simpl.
  assert (Hst : stateOK (mkLowering 1 ∅ [])).
  { split; simpl; [constructor|apply map_Forall_empty]. }
  assert (Hok : Forall (statementOK toFlowNode) program).
  { apply Forall_forall. intros s _. apply toFlowNode_lowers. }
  assert (Htidy : Forall (statementTidy toFlowNode) program).
  { apply Forall_forall. intros s _. apply toFlowNode_tidy. }
  destruct (lowerStatements_tidy toFlowNode program Hok Htidy 0%nat _ nodes last
              st1 Hst (Nat.lt_0_succ 0) H1) as (T1 & _ & A1 & _).
  - simpl in T1, A1.
    assert (T0 : tidyAll 0 1 [ReturnFlowNode 0%nat (ReturnStatement None) true]).
    { apply (tidy_leaf 0%nat (ReturnFlowNode 0%nat (ReturnStatement None) true));
        simpl; auto. discriminate. }
    destruct (tidyAll_app 0 1 (allocated st1) 0%nat (allocated st1) _ _ T0 T1)
      as [_ T]; try lia.
    unfold tidy. simpl. rewrite flat_map_app. simpl.
    apply (tidyAll_cons _ _ (allocated st1)); [exact T| |lia].
    split; [simpl; lia|]. split.
    + simpl. intros n [= <-]. lia.
    + simpl. rewrite flat_map_app. simpl. destruct T as [F _].
      eapply Forall_impl; [exact F|]. intros d (? & _). simpl in *. lia.
Qed.

(** In a program that was analysed, the step of an ExternCall node and the
    node its call returns to have different ids. *)
Lemma flowAnalyzePass_away program root ids :
  flowAnalyzePass program = OK (root, ids) ->
  Forall (awayNode ids) (nodesOf root).
Proof.
  unfold flowAnalyzePass.
  destruct (lowerRoot program _) as [[root0 st0]|e|] eqn:Elower; try discriminate.
  destruct (labelingFlowNode root0 _) as [[[] st1]|e|] eqn:Elabel; try discriminate.
  intros [= <- <-].
  destruct (lowerRoot_tidy _ _ _ Elower) as [Hplaced Hnd].
  assert (Hba : Forall blockAfterNodes (nodesOf root0)).
  { eapply Forall_impl; [exact Hplaced|]. now intros x (_ & _ & ?). }
  assert (Hl : labelled (mkLabelling [] ∅)).
  { split; simpl.
    - intros k i E. now rewrite lookup_empty in E.
    - intros i o E. now rewrite lookup_nil in E. }
  assert (Hfresh : forall o, o ∈ flowNodeMap (mkLabelling [] ∅) ->
                             o ∉ map self (nodesOf root0)).
  { simpl. intros o Ho. now apply elem_of_nil in Ho. }
  destruct (labelingFlowNode_tidily root0 _ _ Hnd Hba Hl Hfresh Elabel)
    as ([J K] & _ & _ & Hall).
  - apply Forall_forall. intros x Hx.
    destruct x as [| s st n m | | | | | | | |]; simpl; try exact I.
    intros Eid.
    rewrite Forall_forall in Hplaced.
    destruct (Hplaced _ Hx) as (_ & Hnext & _).
    specialize (Hnext n eq_refl). simpl in Hnext.
    specialize (Hall _ Hx eq_refl). simpl in Hall.
    apply list_elem_of_lookup in Hall as [i Ei].
    pose proof (K _ _ Ei) as Es. apply idOf_index in Es.
    rewrite Es in Eid. apply idOf_index in Eid.
    destruct (J _ _ Eid) as (o & Eo & Ho).
    assert (Eso : Some s = Some o) by (rewrite <- Ei; exact Eo).
    injection Eso as ->. lia.
Qed.

(** ** The steps that are registered *)

Lemma noCall_away id step : noCall step -> callsAway id step.
Proof.
  intros H fuel scope functionName ps n scope' E. now apply H in E.
Qed.

Lemma setNode_away id step program :
  programAway program -> callsAway id step -> programAway (setNode id step program).
Proof.
  intros Hp Hs. unfold setNode.
  destruct (id <? 0) eqn:Eneg; [exact Hp|]. apply Z.ltb_ge in Eneg.
  destruct (Z.to_nat id <? length program)%nat eqn:Elt.
  - apply Nat.ltb_lt in Elt. intros i step' E.
    destruct (decide (i = Z.to_nat id)) as [->|Hi].
    + rewrite list_lookup_insert_eq in E by exact Elt. injection E as <-.
      now rewrite Z2Nat.id.
    + rewrite list_lookup_insert_ne in E by congruence. now apply Hp.
  - apply Nat.ltb_ge in Elt. intros i step' E.
    apply lookup_app_Some in E as [E|[Hi E]]; [now apply Hp|].
    apply lookup_app_Some in E as [E|[Hi' E]].
    + apply lookup_replicate in E as [E _]. discriminate.
    + apply list_lookup_singleton_Some in E as [E [= <-]].
      rewrite length_replicate in E, Hi'.
      replace (Z.of_nat i) with id by lia. exact Hs.
Qed.

Lemma emitsAway_ret : emitsAway (ret tt).
Proof. now intros program program' Hp [= <-]. Qed.

Lemma emitsAway_throw e : emitsAway (throw e).
Proof. intros program program' _ E. discriminate. Qed.

Lemma emitsAway_seq (c1 c2 : State (list (option ExecutionNode)) unit) :
  emitsAway c1 -> emitsAway c2 -> emitsAway (c1 ;;; c2).
Proof.
  intros H1 H2 program program' Hp E.
  apply bind_OK in E as ([] & program1 & E1 & E2). eauto.
Qed.

Lemma emitsAway_addNodeAt id step : callsAway id step -> emitsAway (addNodeAt id step).
Proof.
  intros Hs program program' Hp [= <-]. now apply setNode_away.
Qed.

Lemma emitsAway_forEach {A : Type}
    (f : A -> State (list (option ExecutionNode)) unit) (l : list A) :
  Forall (fun a => emitsAway (f a)) l -> emitsAway (forEach f l).
Proof.
  induction 1; simpl; [apply emitsAway_ret|now apply emitsAway_seq].
Qed.

(** The chunks of [splitArray] are made of the elements of the array. *)
Lemma splitArray_Forall {T : Type} (Q : T -> Prop) (array : list T)
    (predictor : T -> bool) :
  Forall Q array -> Forall (Forall Q) (splitArray array predictor).
Proof.
  unfold splitArray.
  assert (Hgen : forall chunks, Forall (Forall Q) chunks -> Forall Q array ->
    Forall (Forall Q)
      (fold_left
         (fun chunks item =>
            if predictor item then chunks ++ [[item]] ++ [[]]
            else removelast chunks ++ [List.last chunks [] ++ [item]])
         array chunks)).
  { induction array as [|item rest IH]; intros chunks Hc Ha; simpl; [exact Hc|].
    apply Forall_cons_1 in Ha as [Hitem Hrest]. apply IH; [|exact Hrest].
    destruct (predictor item).
    - apply Forall_app. split; [exact Hc|]. repeat constructor. exact Hitem.
    - apply Forall_app. split.
      + clear -Hc. induction Hc as [|c [|c' cs] Hc1 Hcs IHc]; simpl.
        * constructor.
        * constructor.
        * constructor; [exact Hc1|exact IHc].
      + constructor; [|constructor]. apply Forall_app. split.
        * clear -Hc. induction Hc as [|c [|c' cs] Hc1 Hcs IHc]; simpl.
          -- constructor.
          -- exact Hc1.
          -- exact IHc.
        * repeat constructor. exact Hitem. }
  intros Ha. apply Hgen; [|exact Ha]. repeat constructor.
Qed.

(** A fused step gives Move, Return or Exit, never Call. *)
Lemma evalStatements_neverCalls ev :
  neverCalls ev ->
  forall statements scope op scope',
    evalStatements ev statements scope = OK (JsReturned op, scope') ->
    isCall op = false.
Proof.
  intros Hev. induction statements as [|s rest IH]; intros scope op scope'; simpl.
  - discriminate.
  - destruct (ev s scope) as [[completion scope1]|e|] eqn:E; simpl;
      try discriminate.
    destruct completion; try discriminate.
    + apply IH.
    + intros [= <- <-]. eapply Hev. exact E.
Qed.

Lemma evalCases_neverCalls ev :
  neverCalls ev ->
  forall v branches otherwise scope op scope',
    evalCases ev v branches otherwise scope = OK (JsReturned op, scope') ->
    isCall op = false.
Proof.
  intros Hev v. induction branches as [|[c body] rest IH];
    intros otherwise scope op scope'; simpl.
  - now apply evalStatements_neverCalls.
  - destruct (evalExpr c scope) as [[v' scope1]|e|]; simpl; try discriminate.
    destruct (strictEq v v').
    + now apply (evalStatements_neverCalls ev Hev (body :: _)).
    + apply IH.
Qed.

Lemma evalStmt_neverCalls fuel : neverCalls (evalStmt fuel).
Proof.
  induction fuel as [|fuel IH]; intros s scope op scope'; simpl; [discriminate|].
  destruct s as [e | functionName f parameters | [id|e|]
                | branches otherwise | pattern branches otherwise
                | initializer condition iterator body
                | initializer body iterator condition | label | | statements].
  - destruct (evalExpr e scope) as [[v scope1]|?|]; simpl; discriminate.
  - destruct (evalObject parameters ∅ scope) as [[v scope1]|?|]; simpl;
      discriminate.
  - now intros [= <- <-].
  - destruct (evalExpr e scope) as [[v scope1]|?|]; simpl; try discriminate.
    now intros [= <- <-].
  - now intros [= <- <-].
  - destruct branches as [|[c body] [|second rest]]; try discriminate.
    destruct (evalExpr c scope) as [[v scope1]|?|]; simpl; try discriminate.
    destruct (truthy v); [apply IH|].
    destruct otherwise as [block|]; [apply IH|discriminate].
  - destruct (evalExpr pattern scope) as [[v scope1]|?|]; simpl; try discriminate.
    destruct (evalCases (evalStmt fuel) v branches otherwise scope1)
      as [[completion scope2]|?|] eqn:E; simpl; try discriminate.
    destruct completion; try discriminate.
    intros [= <- <-]. exact (evalCases_neverCalls _ IH _ _ _ _ _ _ E).
  - destruct (evalOptional initializer scope) as [scope1|?|]; simpl;
      try discriminate.
    destruct (match condition with
              | Some c => evalExpr c scope1
              | None => OK (VBool true, scope1)
              end) as [[v scope2]|?|]; simpl; try discriminate.
    destruct (truthy v); [|discriminate].
    destruct (evalStmt fuel body scope2) as [[completion scope3]|?|] eqn:E; simpl;
      try discriminate.
    destruct completion; simpl; try discriminate.
    + destruct (evalOptional iterator scope3) as [scope4|?|]; simpl;
        try discriminate.
      apply IH.
    + destruct (evalOptional iterator scope3) as [scope4|?|]; simpl;
        try discriminate.
      apply IH.
    + intros [= <- <-]. exact (IH _ _ _ _ E).
  - destruct (evalOptional initializer scope) as [scope1|?|]; simpl;
      try discriminate.
    destruct (evalStmt fuel body scope1) as [[completion scope2]|?|] eqn:E; simpl;
      try discriminate.
    destruct completion; simpl; try discriminate.
    + destruct (evalOptional iterator scope2) as [scope3|?|]; simpl;
        try discriminate.
      destruct condition as [c|]; [|discriminate].
      destruct (evalExpr c scope3) as [[v scope4]|?|]; simpl; try discriminate.
      destruct (truthy v); [apply IH|discriminate].
    + destruct condition as [c|]; [|discriminate].
      destruct (evalExpr c scope2) as [[v scope4]|?|]; simpl; try discriminate.
      destruct (truthy v); [apply IH|discriminate].
    + intros [= <- <-]. exact (IH _ _ _ _ E).
  - discriminate.
  - discriminate.
  - now apply evalStatements_neverCalls.
Qed.

Lemma jitFunction_noCall code : noCall (jitFunction code).
Proof.
  intros fuel scope op scope'. unfold jitFunction.
  destruct (evalStatements (evalStmt fuel) code scope)
    as [[completion scope1]|?|] eqn:E; simpl; try discriminate.
  destruct completion; try discriminate.
  intros [= <- <-].
  exact (evalStatements_neverCalls _ (evalStmt_neverCalls fuel) _ _ _ _ E).
Qed.

Lemma expressionStep_noCall expression next : noCall (expressionStep expression next).
Proof. intros fuel scope op scope'. unfold expressionStep. now intros [= <- <-]. Qed.

Lemma builtInStep_noCall builtFunc parameters next :
  noCall (builtInStep builtFunc parameters next).
Proof.
  intros fuel scope op scope'. unfold builtInStep.
  destruct (mapValues parameters ∅ scope). now intros [= <- <-].
Qed.

Lemma returnStep_noCall value : noCall (returnStep value).
Proof.
  intros fuel scope op scope'. unfold returnStep.
  destruct value as [[l|e]|]; try destruct (e scope); now intros [= <- <-].
Qed.

Lemma branchStep_noCall select otherwise next :
  noCall (branchStep select otherwise next).
Proof.
  intros fuel scope op scope'. unfold branchStep.
  destruct (select scope) as [[id|] scope1]; [|destruct otherwise];
    now intros [= <- <-].
Qed.

Lemma initializerStep_noCall initializer to : noCall (initializerStep initializer to).
Proof.
  intros fuel scope op scope'. unfold initializerStep.
  destruct initializer; [|discriminate]. now intros [= <- <-].
Qed.

Lemma loopStep_noCall iterator condition body next :
  noCall (loopStep iterator condition body next).
Proof.
  intros fuel scope op scope'. unfold loopStep.
  destruct condition as [c|]; [|now intros [= <- <-]].
  destruct (c _) as [v scope2]. destruct (truthy v); now intros [= <- <-].
Qed.

Lemma jumpStep_noCall next : noCall (jumpStep next).
Proof. intros fuel scope op scope'. unfold jumpStep. now intros [= <- <-]. Qed.

Lemma exitStep_noCall : noCall exitStep.
Proof. intros fuel scope op scope'. unfold exitStep. now intros [= <- <-]. Qed.

Lemma externCallStep_away id functionName parameters next :
  next <> id -> callsAway id (externCallStep functionName parameters next).
Proof.
  intros Hn fuel scope f ps n scope'. unfold externCallStep.
  destruct (mapValues parameters ∅ scope). now intros [= _ _ <- _].
Qed.

Create HintDb away.
#[local] Hint Resolve noCall_away expressionStep_noCall builtInStep_noCall
  returnStep_noCall branchStep_noCall initializerStep_noCall loopStep_noCall
  jumpStep_noCall exitStep_noCall jitFunction_noCall emitsAway_addNodeAt
  emitsAway_throw emitsAway_ret emitsAway_seq : away.

Lemma emitJITNode_away ids getBuiltInFunction nodes :
  emitsAway (emitJITNode ids getBuiltInFunction nodes).
Proof.
  intros program program' Hp. unfold emitJITNode.
  destruct nodes as [|entry rest]; [discriminate|].
  destruct (mapR _ (entry :: rest)) as [code|?|]; simpl; try discriminate.
  destruct (mapR _ code) as [checked|?|]; simpl; try discriminate.
  intros [= <-]. apply setNode_away; [exact Hp|]. auto with away.
Qed.

(** Every step that [emitNode] registers sends its calls back to another
    node, when the ExternCall nodes name another node as their next. *)
Lemma emitNode_away ids getBuiltInFunction node :
  Forall (awayNode ids) (nodesOf node) ->
  emitsAway (emitNode ids getBuiltInFunction node).
Proof.
  induction node
    as [s st n m | s st n m | s st m
       | s st branches otherwise m n [IHb IHo]
       | s st branches otherwise m n [IHb IHo]
       | s st body n m IHbody | s main m IHmain | s st n m | s st m
       | s nodes n m IHnodes]
    using FlowNode_nested_ind; intros Haway; simpl.
  - destruct st; auto with away. destruct builtIn; auto with away.
    intros program program' Hp.
    destruct (getBuiltInFunction functionName); simpl; try discriminate.
    apply emitsAway_addNodeAt; auto with away.
  - apply Forall_cons_1 in Haway as [Hthis _]. simpl in Hthis.
    destruct st; auto with away.
    apply emitsAway_addNodeAt. now apply externCallStep_away.
  - destruct st; auto with away.
  - simpl in Haway. apply Forall_cons_1 in Haway as [_ Haway].
    apply Forall_app in Haway as [Hbr Hot].
    apply emitsAway_seq; [|apply emitsAway_seq].
    + apply emitsAway_forEach. clear -IHb Hbr.
      induction IHb as [|branch rest Hb _ IH]; [constructor|].
      simpl in Hbr. apply Forall_app in Hbr as [H1 H2].
      constructor; [now apply Hb|now apply IH].
    + destruct otherwise; [now apply IHo|apply emitsAway_ret].
    + apply emitsAway_addNodeAt. apply noCall_away. apply branchStep_noCall.
  - simpl in Haway. apply Forall_cons_1 in Haway as [_ Haway].
    apply Forall_app in Haway as [Hbr Hot].
    apply emitsAway_seq; [|apply emitsAway_seq].
    + apply emitsAway_forEach. clear -IHb Hbr.
      induction IHb as [|branch rest Hb _ IH]; [constructor|].
      simpl in Hbr. apply Forall_app in Hbr as [H1 H2].
      constructor; [now apply Hb|now apply IH].
    + destruct otherwise; [now apply IHo|apply emitsAway_ret].
    + destruct st; auto with away.
      apply emitsAway_addNodeAt. apply noCall_away. apply branchStep_noCall.
  - simpl in Haway. apply Forall_cons_1 in Haway as [_ Haway].
    apply emitsAway_seq; [|now apply IHbody].
    destruct st; auto with away.
  - simpl in Haway. apply Forall_cons_1 in Haway as [_ Haway].
    apply emitsAway_seq; [|now apply IHmain].
    destruct main; auto with away. destruct statement; auto with away.
  - auto with away.
  - auto with away.
  - simpl in Haway. apply Forall_cons_1 in Haway as [_ Haway].
    apply emitsAway_forEach.
    eapply Forall_impl;
      [apply (splitArray_Forall
                (fun child : FlowNode * State (list (option ExecutionNode)) unit =>
                   emitsAway (snd child)))|].
    + clear -IHnodes Haway.
      induction IHnodes as [|child rest Hc _ IH]; [constructor|].
      simpl in Haway. apply Forall_app in Haway as [H1 H2].
      constructor; [now apply Hc|now apply IH].
    + intros chunk Hchunk. destruct chunk as [|[child emitChild] [|second rest]].
      * apply emitsAway_ret.
      * apply Forall_cons_1 in Hchunk as [Hchild _]. simpl in Hchild.
        destruct (negb (isIfSwitchLoop child) || negb (mergable child));
          [exact Hchild|apply emitJITNode_away].
      * apply emitJITNode_away.
Qed.

(** In a compiled program, a step that gives a Call names another node
    than itself as the next. *)
Lemma compile_away script getBuiltInFunction program :
  compile script getBuiltInFunction = OK program -> programAway program.
Proof.
  unfold compile.
  destruct (flowAnalyzePass script) as [[root ids]|?|] eqn:Eflow; simpl;
    try discriminate.
  pose proof (flowAnalyzePass_away _ _ _ Eflow) as Haway.
  unfold nodeGenPass. destruct root; try discriminate.
  destruct (emitNode ids getBuiltInFunction _ _) as [[[] program1]|?|] eqn:Eemit;
    simpl; try discriminate.
  intros [= <-].
  apply (emitNode_away _ _ _ Haway _ _) in Eemit; [exact Eemit|].
  intros i step E. apply lookup_replicate in E as [E _]. discriminate.
Qed.

(** ** Claim C7: the caller's program counter while a callee runs *)

(** The steps that run while [next] dispatches a Call opcode: every one of
    them is a step of a callee frame, there is at least one, and at each of
    them the caller frame already stands at the opcode's next-node id [n];
    it still stands there when the call has returned. *)
Lemma call_step_snapshots interpreter fuel ctx this rest name ps n scope ctx' :
  callStack ctx = this :: rest ->
  execNode (executable this) (current this) fuel (scopeOf this ctx)
  = OK (Some (Call name ps n), scope) ->
  next interpreter (run interpreter fuel) fuel ctx = OK ctx' ->
  exists during,
    snapshots ctx' = snapshots ctx ++ [map current (this :: rest)] ++ during
    /\ during <> []
    /\ Forall (fun snap => exists callee,
                 callee <> [] /\ snap = callee ++ n :: map current rest) during
    /\ callStack ctx' = setCurrent n (afterStep this scope) :: rest.
Proof.
  intros Hstack Hexec Hnext.
  destruct (next_inv _ _ _ _ _ Hnext) as (this0 & rest0 & op & scope0 & E & Hexec0 & Hop).
  rewrite Hstack in E. injection E as <- <-.
  rewrite Hexec in Hexec0. injection Hexec0 as <- <-.
  destruct Hop as (r & Hcall).
  destruct (callByName_keeps _ _ _ _ _ _ _ (run_keeps interpreter fuel) Hcall)
    as (during & Hs & Hsn & Hne & Hab).
  unfold withCurrent, stepped, snapshot in Hs, Hsn, Hab. simpl in Hs, Hsn, Hab.
  rewrite Hstack in Hsn. exists during.
  split; [now rewrite Hsn, <- app_assoc|]. split; [exact Hne|]. split; [exact Hab|exact Hs].
Qed.

(** A step of a compiled program that gives a Call opcode names another
    node than itself as the next. *)
Lemma compiled_call_leaves script getBuiltIn program id fuel scope name ps n scope' :
  compile script getBuiltIn = OK program ->
  execNode program id fuel scope = OK (Some (Call name ps n), scope') ->
  n <> id.
Proof.
  intros Hcompile. apply compile_away in Hcompile. unfold execNode.
  destruct (id >=? Z.of_nat (length program)); [discriminate|].
  destruct (id <? 0) eqn:Eneg; [discriminate|]. apply Z.ltb_ge in Eneg.
  match goal with
  | |- context [match ?found with _ => _ end] =>
      destruct found as [[step|]|] eqn:E; try discriminate
  end.
  intros Hstep. apply (Hcompile _ _ E) in Hstep. now rewrite Z2Nat.id in Hstep.
Qed.

(** C7. When [next] dispatches a Call opcode that a step of a compiled
    program gives, the opcode's next-node id [n] is not the id of the
    ExternCall node that was stepped; every step that runs before the call
    returns is a step of a callee frame, there is at least one, and at each
    of them the caller frame already stands at [n], so at none of them does
    it address the ExternCall node; it still stands at [n] when the call
    has returned. *)
Theorem C7_caller_stands_at_next_while_callee_runs
    script getBuiltIn interpreter fuel ctx this rest name ps n scope ctx' :
  compile script getBuiltIn = OK (executable this) ->
  callStack ctx = this :: rest ->
  execNode (executable this) (current this) fuel (scopeOf this ctx)
  = OK (Some (Call name ps n), scope) ->
  next interpreter (run interpreter fuel) fuel ctx = OK ctx' ->
  n <> current this
  /\ exists during,
       snapshots ctx' = snapshots ctx ++ [map current (this :: rest)] ++ during
       /\ during <> []
       /\ Forall (fun snap => exists callee,
                    callee <> []
                    /\ snap = callee ++ n :: map current rest
                    /\ snap <> callee ++ map current (this :: rest)) during
       /\ callStack ctx' = setCurrent n (afterStep this scope) :: rest.
Proof.
  intros Hcompile Hstack Hexec Hnext.
  pose proof (compiled_call_leaves _ _ _ _ _ _ _ _ _ _ Hcompile Hexec) as Hn.
  split; [exact Hn|].
  destruct (call_step_snapshots _ _ _ _ _ _ _ _ _ _ Hstack Hexec Hnext)
    as (during & H1 & H2 & H3 & H4).
  exists during. split; [exact H1|]. split; [exact H2|]. split; [|exact H4].
  eapply Forall_impl; [exact H3|]. simpl.
  intros snap (callee & Hne & ->). exists callee. split; [exact Hne|].
  split; [reflexivity|]. intros E. apply app_inv_head in E. now injection E.
Qed.

Lemma C7_witness :
  exists ctx',
    next handInterpreter (run handInterpreter 5) 5
      (mkContext ∅ [mkIterator callerProgram ∅ ∅ 0 VUndefined] []) = OK ctx'
    /\ 1 <> 0
    /\ exists during,
         snapshots ctx' = [] ++ [[0]] ++ during
         /\ during <> []
         /\ Forall (fun snap => exists callee,
                      callee <> []
                      /\ snap = callee ++ 1 :: map current []
                      /\ snap <> callee ++ [0]) during
         /\ map current (callStack ctx') = [1].
Proof.
  eexists. split; [vm_compute; reflexivity|].
  edestruct (C7_caller_stands_at_next_while_callee_runs
               [callGlobal "g"] (getBuiltInFunction ∅) handInterpreter 5
               (mkContext ∅ [mkIterator callerProgram ∅ ∅ 0 VUndefined] [])
               (mkIterator callerProgram ∅ ∅ 0 VUndefined) [])
    as (Hn & during & H1 & H2 & H3 & H4);
    [reflexivity|reflexivity|vm_compute; reflexivity|vm_compute; reflexivity|].
  split; [exact Hn|].
  exists during. split; [exact H1|]. split; [exact H2|]. split; [exact H3|].
  exact (f_equal (map current) H4).
Defined.

(** ** Claim C1: Exit and the frames of the call stack *)

(** C1, as the code has it.  A frame whose own step gives the Exit opcode
    ends its run with the exit sentinel; so [exec] resolves to the sentinel
    when the frame it starts reaches an Exit statement.  A call made by a
    frame resolves to the sentinel when the callee exits, but [next] drops
    what the call resolves to: the caller stands at the call's next node,
    and its run goes on from there as if the callee had returned. *)
Theorem C1_exit_ends_the_frame_that_steps_it
    interpreter fuel ctx this rest scope :
  callStack ctx = this :: rest ->
  0 <= current this ->
  (execNode (executable this) (current this) (S fuel) (scopeOf this ctx)
   = OK (Some Exit, scope) ->
   run interpreter (S (S fuel)) ctx
   = OK (EXIT_SIGNAL, withCurrent (-2) (stepped ctx this rest scope)))
  /\ (forall name ps n ctx1,
        execNode (executable this) (current this) fuel (scopeOf this ctx)
        = OK (Some (Call name ps n), scope) ->
        callByName interpreter (run interpreter fuel) name ps
          (withCurrent n (stepped ctx this rest scope)) = OK (EXIT_SIGNAL, ctx1) ->
        callStack ctx1 = setCurrent n (afterStep this scope) :: rest
        /\ run interpreter (S fuel) ctx = run interpreter fuel ctx1).
Proof.
  intros Hstack Hpc.
  assert (Hgeb : (current this >=? 0) = true) by (rewrite Z.geb_leb; lia).
  split.
  - intros Hexec. change (run interpreter (S (S fuel)) ctx) with
      (match callStack ctx with
       | [] => Throw (TypeError "no iterator")
       | this :: _ =>
           if current this >=? 0 then
             ctx' <~ next interpreter (run interpreter (S fuel)) (S fuel) ctx ;;
             run interpreter (S fuel) ctx'
           else if current this =? -1 then OK (Resolved (returnValue this), ctx)
           else if current this =? -2 then OK (EXIT_SIGNAL, ctx)
           else OK (Resolved VUndefined, ctx)
       end).
    rewrite Hstack, Hgeb. unfold next. simpl. rewrite Hstack.
    unfold scopeOf in Hexec. rewrite Hexec. simpl.
    unfold withCurrent, stepped, snapshot. simpl. now rewrite Hstack.
  - intros name ps n ctx1 Hexec Hcall. split.
    + destruct (callByName_keeps _ _ _ _ _ _ _ (run_keeps interpreter fuel) Hcall)
        as (during & Hs & _).
      exact Hs.
    + simpl. rewrite Hstack, Hgeb. unfold next. simpl. rewrite Hstack.
      unfold scopeOf in Hexec. rewrite Hexec. simpl.
      unfold withCurrent, stepped, snapshot in Hcall. simpl in Hcall.
      rewrite Hstack in Hcall. simpl in Hcall. rewrite Hcall. reflexivity.
Qed.

Lemma C1_witness :
  run handInterpreter 2 (mkContext ∅ [mkIterator exitingProgram ∅ ∅ 0 VUndefined] [])
  = OK (EXIT_SIGNAL,
        mkContext ∅ [mkIterator exitingProgram ∅ ∅ (-2) VUndefined] [[0]])
  /\ run handInterpreter 5
       (mkContext ∅ [mkIterator callingProgram ∅ ∅ 0 VUndefined] [])
     = run handInterpreter 4
         (mkContext ∅ [mkIterator callingProgram ∅ ∅ 1 VUndefined] [[0]; [0; 1]]).
Proof.
  split.
  - apply (proj1 (C1_exit_ends_the_frame_that_steps_it handInterpreter 0
                    (mkContext ∅ [mkIterator exitingProgram ∅ ∅ 0 VUndefined] [])
                    (mkIterator exitingProgram ∅ ∅ 0 VUndefined) []
                    (mkScope ∅ ∅ ∅) eq_refl ltac:(simpl; lia))).
    reflexivity.
  - apply (proj2 (C1_exit_ends_the_frame_that_steps_it handInterpreter 4
                    (mkContext ∅ [mkIterator callingProgram ∅ ∅ 0 VUndefined] [])
                    (mkIterator callingProgram ∅ ∅ 0 VUndefined) []
                    (mkScope ∅ ∅ ∅) eq_refl ltac:(simpl; lia))
             "g" ∅ 1).
    + reflexivity.
    + vm_compute. reflexivity.
Defined.

(** C1, the counterexample.  The global function [g] is [Exit]; main calls
    [g] and then returns 7.  Run by itself, [g] resolves to the exit
    sentinel.  Run from main, it exits at the second step, with main
    already at node 1; main then steps node 1 and [exec] resolves to 7. *)
Lemma C1_counterexample :
  observe (exec (interpreterOf exitLanguage) 10 [ExitStatement] ∅ ∅)
  = OK (EXIT_SIGNAL, ∅, [[0]])
  /\ observe (exec (interpreterOf exitLanguage) 10 callThenReturn ∅ ∅)
     = OK (Resolved (VNum 7), ∅, [[0]; [0; 1]; [1]]).
Proof. split; vm_compute; reflexivity. Qed.

(** ** Claim C2: the target of a break *)

(** The Jump that a break lowers to points at the loop node itself: the
    loop registered under the label, or the loop on top of the stack. *)
Lemma break_lowers_to_jump_at_loop label st successor :
  toFlowNode (BreakStatement label) successor st
  = match match labelOf label with
          | Some l => labelMap st !! l
          | None => head (breakableNodeStack st)
          end
    with
    | Some loopNode =>
        OK (JumpFlowNode (allocated st) (BreakStatement label) loopNode true,
            mkLowering (S (allocated st)) (labelMap st) (breakableNodeStack st))
    | None => Throw (match labelOf label with
                     | Some _ => UndefLabel
                     | None => UnexceptedBreak
                     end)
    end.
Proof.
  simpl. unfold bind, get. destruct (labelOf label) as [l|].
  - destruct (labelMap st !! l); reflexivity.
  - destruct (breakableNodeStack st) eqn:E; [reflexivity|].
    unfold alloc, ret. simpl. now rewrite E.
Qed.

(** C2, at the failing input [k = 0; for (; k < 3; k++) { g(); break; }
    return k].  The Jump of the break (object 4) has the Loop (object 3) as
    its [next], not the loop's own [next] (object 1, the Return): stepped
    node by node the break goes back to the loop head, the loop runs until
    its condition fails, and [exec] resolves to 3.  Without the call the
    loop is fused, the emitted [break;] leaves the loop, and [exec]
    resolves to 0. *)
Theorem C2_break_jump_targets_the_loop_head :
  edges (flowAnalyzePass (breakLoop true))
  = OK [("Block", 8, Some 0); ("Normal", 7, Some 3); ("Loop", 3, Some 1);
        ("Block", 6, Some 3); ("ExternCall", 5, Some 4); ("Jump", 4, Some 3);
        ("Return", 1, None); ("Return", 0, None)]%nat
  /\ observe (exec (interpreterOf idleLanguage) 30 (breakLoop true) ∅ ∅)
     = OK (Resolved (VNum 3), ∅,
           [[0]; [1]; [2]; [0; 3]; [3]; [1]; [2]; [0; 3]; [3]; [1]; [4]])
  /\ observe (exec (interpreterOf idleLanguage) 30 (breakLoop false) ∅ ∅)
     = OK (Resolved (VNum 0), ∅, [[0]]).
Proof. repeat split; vm_compute; reflexivity. Qed.

(** ** Claim C3: parameters of a built-in call in a fused step *)

(** Numbers, booleans and null are read back from the emitted text as
    themselves. *)
Lemma fused_literals_that_survive :
  evalExpr (emitJITValue (Lit (LNum (-12)))) (mkScope ∅ ∅ ∅)
  = OK (VNum (-12), mkScope ∅ ∅ ∅)
  /\ evalExpr (emitJITValue (Lit (LBool false))) (mkScope ∅ ∅ ∅)
     = OK (VBool false, mkScope ∅ ∅ ∅)
  /\ evalExpr (emitJITValue (Lit LNull)) (mkScope ∅ ∅ ∅)
     = OK (VNull, mkScope ∅ ∅ ∅).
Proof. repeat split; vm_compute; reflexivity. Qed.

(** C3, at the failing input: the built-in call [echo({ text: "hello" })].
    Followed by a call of a global function the statement is stepped alone,
    and [echo] gets the string.  As the whole program it is fused with the
    implicit return; the emitted object literal reads [{"text": hello}], and
    the step throws on the unbound variable [hello]. *)
Theorem C3_fused_string_literal_is_not_passed_through :
  observe (exec (interpreterOf echoLanguage) 10
             [echoLiteral (LStr "hello"); callGlobal "g"] ∅ ∅)
  = OK (Resolved VUndefined, {["out" := VStr "hello"]}, [[0]; [1]; [0; 2]; [2]])
  /\ observe (exec (interpreterOf echoLanguage) 10 [echoLiteral (LStr "hello")] ∅ ∅)
     = Throw (ReferenceError "hello").
Proof. split; vm_compute; reflexivity. Qed.

(** ** Claim C4: Switch *)



(** The lowering of a Switch: the otherwise block has the outer successor
    as its [next]; the [next] of a branch block is an object that the
    lowering of the Switch itself has made. *)
Lemma switch_lowers pattern branches otherwise successor st :
  lowers (toFlowNode (SwitchStatement pattern branches otherwise) successor) st
    (ill st (SwitchStatement pattern branches otherwise))
    (fun node =>
       exists this flowBranches flowOtherwise m,
         node = SwitchFlowNode this (SwitchStatement pattern branches otherwise)
                  flowBranches flowOtherwise m successor
         /\ (forall block, flowOtherwise = Some block -> nextOf block = Some successor)
         /\ Forall2 (fun branch flowBranch =>
                       fst flowBranch = fst branch
                       /\ exists chained,
                            nextOf (snd flowBranch) = Some chained
                            /\ (allocated st <= chained)%nat)
                    branches flowBranches).
Proof.
  assert (IHb : Forall (fun branch : Expression * list Statement =>
                          Forall (statementOK toFlowNode) (snd branch)) branches).
  { apply Forall_forall. intros branch _. apply all_statements_lower. }
  assert (IHo : match otherwise with
                | Some block => Forall (statementOK toFlowNode) block
                | None => True
                end).
  { destruct otherwise; [apply all_statements_lower|exact I]. }
  simpl. eapply lowers_bad.
  - eapply lowers_bind; [apply (lowerOtherwise_lowers _ _ IHo)|].
    intros flowOtherwise st1 Hl1 Hk1 Ha1 Hot.
    eapply lowers_bad.
    + eapply lowers_bind; [apply (lowerSwitchBranches_lowers _ _ IHb)|].
      intros [flowBranches last] st2 Hl2 Hk2 Ha2 Hbr. simpl in Hbr.
      eapply (lowers_bind _ _ _ false false); [apply lowers_alloc|].
      intros node st3 _ _ _ _. apply lowers_ret.
      eexists _, _, _, _. split; [reflexivity|]. split.
      * intros block ->. destruct otherwise as [statements|]; [|contradiction].
        destruct Hot as (_ & nodes & -> & _). reflexivity.
      * eapply Forall2_impl; [exact Hbr|].
        intros branch flowBranch (E & st' & chained & _ & Hc & _ & nodes & -> & _).
        split; [exact E|]. exists chained. split; [reflexivity|lia].
    + rewrite orb_false_r. unfold illBranches.
      rewrite (ill_eq st st1) by assumption. reflexivity.
  - apply orb_comm.
Qed.


(** ** Claims C5 and C6: loops stepped node by node *)

(** The step of a loop head without a condition moves to the loop's
    successor, whatever the scope is. *)
Lemma loopStep_without_condition iterator body next fuel scope :
  exists scope',
    loopStep iterator None body next fuel scope = OK (Some (Move next), scope').
Proof. unfold loopStep. eauto. Qed.

(** C5, at the failing input [for (;;) { env.hit = true; g(); }].  The
    loop holds a call, so it is stepped node by node: the head (node 0)
    moves to the implicit return (node 3), the body never runs, [env] stays
    empty and [exec] resolves to [undefined].  Without the call the loop
    is fused into [for (;;) {...}], which loops for ever. *)
Theorem C5_loop_without_condition_skips_its_body :
  observe (exec (interpreterOf idleLanguage) 30 (loopWithoutCondition true) ∅ ∅)
  = OK (Resolved VUndefined, ∅, [[0]; [3]])
  /\ observe (exec (interpreterOf idleLanguage) 30 (loopWithoutCondition false) ∅ ∅)
     = OutOfFuel.
Proof. split; vm_compute; reflexivity. Qed.

(** C6, at the failing input: the loop [i = 0; i < 3; i++] whose body
    counts its runs in [k], between two calls of a global function.  The
    loop is stepped node by node; its head runs the iterator before the
    first test, so the body runs twice and [exec] resolves to 2; with
    [i < 0] it does not run.  The same loop alone is fused into a [for]
    statement and runs three times, and the counting loop of the spec,
    fused too, resolves to 45. *)
Theorem C6_unfused_counting_loop_runs_one_time_less :
  observe (exec (interpreterOf idleLanguage) 30 (countIterations 3 true) ∅ ∅)
  = OK (Resolved (VNum 2), ∅,
        [[0]; [0; 1]; [1]; [2]; [3]; [2]; [3]; [2]; [4]; [0; 5]; [5]])
  /\ observe (exec (interpreterOf idleLanguage) 30 (countIterations 3 false) ∅ ∅)
     = OK (Resolved (VNum 3), ∅, [[0]])
  /\ observe (exec (interpreterOf idleLanguage) 30 sumLoop ∅ ∅)
     = OK (Resolved (VNum 45), ∅, [[0]]).
Proof. repeat split; vm_compute; reflexivity. Qed.

(** * Properties of the passes as a whole *)

(** ** utils.ts: splitArray *)

Section SplitArray.
Context {T : Type} (predictor : T -> bool).

Let step (chunks : list (list T)) (item : T) : list (list T) :=
if predictor item then chunks ++ [[item]] ++ [[]]
else removelast chunks ++ [List.last chunks [] ++ [item]].

Lemma pushToFirst_app (a b : list T) chunks :
pushToFirst a (pushToFirst b chunks) = pushToFirst (a ++ b) chunks.
Proof. destruct chunks; simpl; [reflexivity|]. now rewrite app_assoc. Qed.

Lemma splitArray_from array init (chunk : list T) :
fold_left step array (init ++ [chunk])
= init ++ pushToFirst chunk (splitArray array predictor).
Proof.
unfold splitArray. fold step. revert init chunk.
induction array as [|item rest IH]; intros init chunk; simpl.
- now rewrite app_nil_r.
- unfold step at 2 4. destruct (predictor item).
  + change ([[]] ++ [[item]] ++ [[]]) with ([[]; [item]] ++ [[]]).
    rewrite (IH [[]; [item]] []).
    replace ((init ++ [chunk]) ++ [[item]] ++ [[]])
      with ((init ++ [chunk; [item]]) ++ [[]])
      by (now rewrite <- !app_assoc).
    rewrite (IH (init ++ [chunk; [item]]) []). simpl.
    now rewrite app_nil_r, <- app_assoc.
  + rewrite removelast_last, last_last. simpl.
    pose proof (IH [] [item]) as Hitem. simpl in Hitem.
    rewrite Hitem, (IH init (chunk ++ [item])).
    now rewrite pushToFirst_app.
Qed.

(** The loop of [splitArray], read from the front of the array. *)
Lemma splitArray_cons item rest :
splitArray (item :: rest) predictor
= if predictor item then [] :: [item] :: splitArray rest predictor
  else pushToFirst [item] (splitArray rest predictor).
Proof.
assert (E : splitArray (item :: rest) predictor
            = fold_left step rest (step [[]] item)) by reflexivity.
rewrite E. unfold step at 2. destruct (predictor item).
- change ([[]] ++ [[item]] ++ [[]]) with ([[]; [item]] ++ [[]]).
  rewrite splitArray_from. simpl.
  destruct (splitArray rest predictor); reflexivity.
- apply (splitArray_from rest [] [item]).
Qed.

Lemma splitArray_not_empty array : splitArray array predictor <> [].
Proof.
induction array as [|item rest IH]; [discriminate|].
rewrite splitArray_cons. destruct (predictor item); [discriminate|].
destruct (splitArray rest predictor); [contradiction|discriminate].
Qed.

Lemma splitArray_joins array : concat (splitArray array predictor) = array.
Proof.
induction array as [|item rest IH]; [reflexivity|].
rewrite splitArray_cons. destruct (predictor item); simpl.
- now rewrite IH.
- destruct (splitArray rest predictor) as [|first others] eqn:E.
  + now apply splitArray_not_empty in E.
  + simpl in *. now rewrite IH.
Qed.

(** X1. The chunks of [splitArray], put end to end, are the array: no
  element is lost, repeated or moved. *)
Theorem splitArray_concat array : concat (splitArray array predictor) = array.
Proof. apply splitArray_joins. Qed.

(** X2. [splitArray] gives two chunks for every element that the predictor
  accepts and one more; the chunks at even places hold only elements the
  predictor refuses (and may be empty), and each chunk at an odd place is
  one accepted element alone. *)
Theorem splitArray_chunks array :
length (splitArray array predictor) = S (2 * separators predictor array)
/\ forall i chunk,
     splitArray array predictor !! i = Some chunk ->
     if Nat.even i then Forall (fun item => predictor item = false) chunk
     else exists item, chunk = [item] /\ predictor item = true.
Proof.
unfold separators. induction array as [|item rest [IHlen IH]].
- split; [reflexivity|]. intros [|[|i]] chunk; simpl; try discriminate.
  intros [= <-]. constructor.
- rewrite splitArray_cons. simpl.
  destruct (predictor item) eqn:Ep.
  + rewrite filter_cons_True by exact Ep. simpl. split; [lia|].
    intros [|[|i]] chunk; simpl.
    * intros [= <-]. constructor.
    * intros [= <-]. eauto.
    * intros E. apply IH in E.
      change (Nat.even (S (S i))) with (Nat.even i). exact E.
  + rewrite filter_cons_False by (rewrite Ep; discriminate).
    destruct (splitArray rest predictor) as [|first others] eqn:E.
    { now apply splitArray_not_empty in E. }
    simpl in *. split; [exact IHlen|].
    intros [|i] chunk; simpl.
    * intros [= <-]. constructor; [exact Ep|]. exact (IH 0%nat first eq_refl).
    * intros Ei. exact (IH (S i) chunk Ei).
Qed.
End SplitArray.

(** ** flowAnalyzePass: when it succeeds *)

Section FullLists.
Variable f : Statement -> oid -> Lower FlowNode.

Lemma lowerStatements_full statements :
Forall (statementFull f) statements ->
forall successor st nodes last st',
  lowerStatements f statements successor st = OK ((nodes, last), st') ->
  length nodes = length statements
  /\ (existsb hasEmptyBlock statements = false ->
      existsb hasEmptyNode nodes = false).
Proof.
induction 1 as [|statement rest Hs _ IH];
  intros successor st nodes last st'; simpl.
- intros [= <- <- <-]. auto.
- intros H. apply bind_OK in H as ([nodes1 last1] & st1 & H1 & H).
  apply bind_OK in H as (node & st2 & H2 & H). injection H as <- <- <-.
  destruct (IH _ _ _ _ _ H1) as [Hlen Hfull]. simpl. split; [now rewrite Hlen|].
  intros E. apply orb_false_iff in E as [E1 E2].
  now rewrite (Hs _ _ _ _ H2 E1), (Hfull E2).
Qed.

Lemma toBlockFlowNode_full statements :
Forall (statementFull f) statements ->
forall successor st block st',
  toBlockFlowNode f statements successor st = OK (block, st') ->
  emptyOr hasEmptyBlock statements = false -> hasEmptyNode block = false.
Proof.
intros Hs successor st block st' H. unfold toBlockFlowNode in H.
apply bind_OK in H as ([nodes last] & st1 & H1 & H).
unfold bind, alloc, ret in H. simpl in H. injection H as <- <-. simpl.
destruct (lowerStatements_full _ Hs _ _ _ _ _ H1) as [Hlen Hfull].
destruct statements as [|s rest]; [discriminate|].
destruct nodes as [|n nodes]; [discriminate|]. exact Hfull.
Qed.

Lemma lowerIfBranches_full branches :
Forall (fun branch => Forall (statementFull f) (snd branch)) branches ->
forall successor st flowBranches st',
  lowerIfBranches f branches successor st = OK (flowBranches, st') ->
  existsb (fun branch => emptyOr hasEmptyBlock (snd branch)) branches = false ->
  existsb (fun branch => hasEmptyNode (snd branch)) flowBranches = false.
Proof.
induction 1 as [|[condition body] rest Hs _ IH];
  intros successor st flowBranches st'; simpl.
- now intros [= <- <-].
- intros H. apply bind_OK in H as (node & st1 & H1 & H).
  apply bind_OK in H as (flowRest & st2 & H2 & H). injection H as <- <-.
  simpl. intros E. apply orb_false_iff in E as [E1 E2].
  now rewrite (toBlockFlowNode_full _ Hs _ _ _ _ H1 E1), (IH _ _ _ _ H2 E2).
Qed.

Lemma lowerSwitchBranches_full branches :
Forall (fun branch => Forall (statementFull f) (snd branch)) branches ->
forall last0 st flowBranches last st',
  lowerSwitchBranches f branches last0 st = OK ((flowBranches, last), st') ->
  existsb (fun branch => emptyOr hasEmptyBlock (snd branch)) branches = false ->
  existsb (fun branch => hasEmptyNode (snd branch)) flowBranches = false.
Proof.
induction 1 as [|[condition body] rest Hs _ IH];
  intros last0 st flowBranches last st'; simpl.
- now intros [= <- <- <-].
- intros H. apply bind_OK in H as ([flowRest last1] & st1 & H1 & H).
  apply bind_OK in H as (chained & st2 & H2 & H).
  apply bind_OK in H as (node & st3 & H3 & H). injection H as <- <- <-.
  simpl. intros E. apply orb_false_iff in E as [E1 E2].
  now rewrite (toBlockFlowNode_full _ Hs _ _ _ _ H3 E1), (IH _ _ _ _ _ H1 E2).
Qed.

Lemma lowerOtherwise_full otherwise :
match otherwise with
| Some block => Forall (statementFull f) block
| None => True
end ->
forall successor st flowOtherwise st',
  lowerOtherwise f otherwise successor st = OK (flowOtherwise, st') ->
  match otherwise with
  | Some block => emptyOr hasEmptyBlock block
  | None => false
  end = false ->
  match flowOtherwise with
  | Some node => hasEmptyNode node
  | None => false
  end = false.
Proof.
destruct otherwise as [block|]; simpl.
- intros Hs successor st flowOtherwise st' H.
  apply bind_OK in H as (node & st1 & H1 & H). injection H as <- <-.
  exact (toBlockFlowNode_full _ Hs _ _ _ _ H1).
- now intros _ successor st flowOtherwise st' [= <- <-].
Qed.
End FullLists.

(** A statement without empty blocks is lowered to a node without empty
    Block nodes. *)
Lemma toFlowNode_full statement : statementFull toFlowNode statement.
Proof.
  induction statement
    as [expression async | functionName parameters builtIn async | value
       | branches otherwise [IHb IHo] | pattern branches otherwise [IHb IHo]
       | skip initializer condition iterator label body IHbody
       | label | | | type]
    using Statement_nested_ind; intros successor st node st'.
  - simpl. unfold bind, alloc, ret. simpl. now intros [= <- <-].
  - simpl. unfold bind, alloc. simpl.
    destruct builtIn; unfold ret; now intros [= <- <-].
  - simpl. unfold bind, alloc, ret. simpl. now intros [= <- <-].
  - simpl. intros H.
    apply bind_OK in H as (flowBranches & st1 & H1 & H).
    apply bind_OK in H as (flowOtherwise & st2 & H2 & H).
    unfold bind, alloc, ret in H. simpl in H. injection H as <- <-. simpl.
    intros E. apply orb_false_iff in E as [E1 E2].
    rewrite (lowerIfBranches_full _ _ IHb _ _ _ _ H1 E1).
    exact (lowerOtherwise_full _ _ IHo _ _ _ _ H2 E2).
  - simpl. intros H.
    apply bind_OK in H as (flowOtherwise & st1 & H1 & H).
    apply bind_OK in H as ([flowBranches last] & st2 & H2 & H).
    unfold bind, alloc, ret in H. simpl in H. injection H as <- <-. simpl.
    intros E. apply orb_false_iff in E as [E1 E2].
    rewrite (lowerSwitchBranches_full _ _ IHb _ _ _ _ _ H2 E1).
    exact (lowerOtherwise_full _ _ IHo _ _ _ _ H1 E2).
  - simpl. unfold bind, alloc, get, ret. simpl.
    pose proof (toBlockFlowNode_full toFlowNode body IHbody) as Hbody.
    assert (Hfinish : forall flowBody st3 labels stack,
      hasEmptyNode flowBody = false ->
      match initializer with
      | Some _ =>
          OK (LoopInitializerFlowNode (allocated st3)
                (LoopFlowNode (S (allocated st))
                   (LoopStatement skip initializer condition iterator label body)
                   flowBody successor (mergable flowBody)) true,
              mkLowering (S (allocated st3)) labels stack)
      | None =>
          if skip then OK (flowBody, mkLowering (allocated st3) labels stack)
          else OK (LoopFlowNode (S (allocated st))
                     (LoopStatement skip initializer condition iterator label body)
                     flowBody successor (mergable flowBody),
                   mkLowering (allocated st3) labels stack)
      end = OK (node, st') ->
      hasEmptyNode node = false).
    { intros flowBody st3 labels stack Hf.
      destruct initializer as [e|]; [|destruct skip]; now intros [= <- <-]. }
    destruct (labelOf label) as [l|].
    + simpl. destruct (labelMap st !! l); simpl; [discriminate|].
      unfold setLabel, pushBreakable, modify. simpl.
      destruct (toBlockFlowNode toFlowNode body _ _)
        as [[flowBody st3]|e|] eqn:Eb; try discriminate.
      unfold deleteLabel, popBreakable, modify. simpl.
      intros H E. specialize (Hbody _ _ _ _ Eb E).
      revert H. destruct initializer as [e|]; [|destruct skip]; simpl;
        apply (Hfinish flowBody st3 _ _ Hbody).
    + simpl. unfold pushBreakable, modify. simpl.
      destruct (toBlockFlowNode toFlowNode body _ _)
        as [[flowBody st3]|e|] eqn:Eb; try discriminate.
      unfold popBreakable, modify. simpl.
      intros H E. specialize (Hbody _ _ _ _ Eb E).
      revert H. destruct initializer as [e|]; [|destruct skip]; simpl;
        apply (Hfinish flowBody st3 _ _ Hbody).
  - simpl. unfold bind, get, alloc, ret. simpl.
    destruct (labelOf label) as [l|].
    + destruct (labelMap st !! l); simpl; [|discriminate]. now intros [= <- <-].
    + destruct (breakableNodeStack st); simpl; [discriminate|]. now intros [= <- <-].
  - simpl. unfold bind, get, alloc, ret. simpl.
    destruct (breakableNodeStack st); simpl; [discriminate|]. now intros [= <- <-].
  - simpl. unfold bind, alloc, ret. simpl. now intros [= <- <-].
  - discriminate.
Qed.

(** Flow analysis, taken apart: the lowering decides on the scopes, the
    labelling walk on the empty blocks. *)
Lemma flowAnalyzePass_cases program :
  match flowAnalyzePass program with
  | OK _ =>
      existsb (illScoped ∅ false) program = false
      /\ existsb hasEmptyBlock program = false
  | Throw _ =>
      existsb (illScoped ∅ false) program = true
      \/ existsb hasEmptyBlock program = true
  | OutOfFuel => False
  end.
Proof.
  unfold flowAnalyzePass. pose proof (root_lowered program) as H.
  destruct (lowerRoot program (mkLowering 0 ∅ [])) as [[root st]|e|] eqn:Elower;
    [|now left|contradiction].
  destruct H as (Hsc & Hem & _).
  pose proof (labelingFlowNode_labels root (mkLabelling [] ∅)) as Hl.
  destruct (labelingFlowNode root _) as [[[] lst]|e|]; [| |contradiction].
  - split; [exact Hsc|].
    destruct (existsb hasEmptyBlock program); [|reflexivity].
    rewrite Hem in Hl by reflexivity. discriminate.
  - right. destruct Hl as [Hl _].
    destruct (existsb hasEmptyBlock program) eqn:E; [reflexivity|]. exfalso.
    unfold lowerRoot in Elower. unfold bind at 1 in Elower.
    unfold alloc at 1 in Elower. simpl in Elower.
    apply bind_OK in Elower as (block & st1 & Hb & Hr). injection Hr as <- <-.
    unfold toBlockFlowNode in Hb.
    apply bind_OK in Hb as ([nodes last] & st2 & Hn & Hb).
    unfold bind, alloc, ret in Hb. simpl in Hb. injection Hb as <- <-.
    destruct (lowerStatements_full toFlowNode program) with (2 := Hn)
      as [_ Hfull].
    { apply Forall_forall. intros s _. apply toFlowNode_full. }
    simpl in Hl. specialize (Hfull E).
    destruct nodes as [|n nodes]; simpl in Hl; [discriminate|].
    rewrite existsb_app in Hl. simpl in Hfull, Hl.
    apply orb_false_iff in Hfull as [F1 F2]. rewrite F1, F2 in Hl. discriminate.
Qed.

(** X3. Flow analysis returns a root exactly for the programs that are well
    scoped (no label declared again inside its loop, no break or continue
    outside a loop, no break to a label out of scope, no statement of
    unknown kind) and in which no If or Switch branch, otherwise block or
    loop body is the empty statement list. *)
Theorem flowAnalyzePass_succeeds_iff program :
  (exists root ids, flowAnalyzePass program = OK (root, ids))
  <-> existsb (illScoped ∅ false) program = false
      /\ existsb hasEmptyBlock program = false.
Proof.
  pose proof (flowAnalyzePass_cases program) as H.
  destruct (flowAnalyzePass program) as [[root ids]|e|]; [|split|contradiction].
  - split; [now intros _|eauto].
  - now intros (? & ? & ?).
  - intros [E1 E2]. destruct H; congruence.
Qed.

(** ** flowAnalyzePass: the ids that the labelling walk gives *)

Lemma numbered_app xs ys : numbered (xs ++ ys) = numbered xs ++ numbered ys.
Proof. apply List.filter_app. Qed.

Lemma appends_ret : appends [] (ret tt).
Proof. intros st st' [= <-]. simpl. now rewrite app_nil_r. Qed.

Lemma appends_seq xs ys (c1 c2 : State Labelling unit) :
  appends xs c1 -> appends ys c2 -> appends (xs ++ ys) (c1 ;;; c2).
Proof.
  intros H1 H2 st st' E. apply bind_OK in E as ([] & st1 & E1 & E2).
  rewrite (H2 _ _ E2), (H1 _ _ E1), numbered_app, map_app. now rewrite app_assoc.
Qed.

Lemma appends_cons x xs (c : State Labelling unit) :
  isBlock x = false -> appends xs c -> appends (x :: xs) (addNode x ;;; c).
Proof.
  intros Hx Hc. apply (appends_seq [x] xs); [|exact Hc].
  intros st st' [= <-]. unfold numbered. simpl. now rewrite Hx.
Qed.

Lemma appends_forEach {A : Type} (g : A -> FlowNode)
    (walk : A -> State Labelling unit) (l : list A) :
  Forall (fun a => appends (nodesOf (g a)) (walk a)) l ->
  appends (flat_map (fun a => nodesOf (g a)) l) (forEach walk l).
Proof.
  induction 1; simpl; [apply appends_ret|now apply appends_seq].
Qed.

Lemma labelingFlowNode_appends node :
  appends (nodesOf node) (labelingFlowNode node).
Proof.
  induction node
    as [s st n m | s st n m | s st m
       | s st branches otherwise m n [IHb IHo]
       | s st branches otherwise m n [IHb IHo]
       | s st body n m IHbody | s main m IHmain | s st n m | s st m
       | s nodes n m IHnodes]
    using FlowNode_nested_ind;
    try (intros lst lst' [= <-]; simpl; reflexivity).
  - simpl. apply appends_cons; [reflexivity|].
    apply appends_seq; [now apply (appends_forEach snd)|].
    destruct otherwise; [exact IHo|apply appends_ret].
  - simpl. apply appends_cons; [reflexivity|].
    apply appends_seq; [now apply (appends_forEach snd)|].
    destruct otherwise; [exact IHo|apply appends_ret].
  - simpl. apply appends_cons; [reflexivity|exact IHbody].
  - simpl. apply appends_cons; [reflexivity|exact IHmain].
  - intros lst lst' E. simpl in E.
    apply bind_OK in E as ([] & lst1 & E1 & E2).
    apply (appends_forEach (fun x => x) labelingFlowNode nodes IHnodes) in E1.
    destruct nodes; [discriminate|]. injection E2 as <-. exact E1.
Qed.

(** What [flowAnalyzePass] returns, taken apart: the root is tidy, and the
    walk labelled it from the empty map. *)
Lemma flowAnalyzePass_inv program root ids0 :
  flowAnalyzePass program = OK (root, ids0) ->
  exists st lst,
    lowerRoot program (mkLowering 0 ∅ []) = OK (root, st)
    /\ labelingFlowNode root (mkLabelling [] ∅) = OK (tt, lst)
    /\ ids0 = ids lst.
Proof.
  unfold flowAnalyzePass.
  destruct (lowerRoot program _) as [[root0 st0]|e|]; try discriminate.
  destruct (labelingFlowNode root0 _) as [[[] lst]|e|] eqn:E; try discriminate.
  intros [= <- <-]. eauto.
Qed.

Lemma flowAnalyzePass_labelled program root st lst :
  lowerRoot program (mkLowering 0 ∅ []) = OK (root, st) ->
  labelingFlowNode root (mkLabelling [] ∅) = OK (tt, lst) ->
  labelled lst.
Proof.
  intros Elower Elabel.
  destruct (lowerRoot_tidy _ _ _ Elower) as [Hplaced Hnd].
  assert (Hba : Forall blockAfterNodes (nodesOf root)).
  { eapply Forall_impl; [exact Hplaced|]. now intros x (_ & _ & ?). }
  assert (Hl : labelled (mkLabelling [] ∅)).
  { split; simpl.
    - intros k i E. now rewrite lookup_empty in E.
    - intros i o E. now rewrite lookup_nil in E. }
  assert (Hfresh : forall o, o ∈ flowNodeMap (mkLabelling [] ∅) ->
                             o ∉ map self (nodesOf root)).
  { simpl. intros o Ho. now apply elem_of_nil in Ho. }
  now destruct (labelingFlowNode_tidily root _ _ Hnd Hba Hl Hfresh Elabel).
Qed.

Lemma flowAnalyzePass_numbered program root ids i x :
  flowAnalyzePass program = OK (root, ids) ->
  numbered (nodesOf root) !! i = Some x ->
  idOf ids (self x) = Z.of_nat i.
Proof.
  intros Hflow Hx.
  destruct (flowAnalyzePass_inv _ _ _ Hflow) as (st & lst & Elower & Elabel & ->).
  destruct (flowAnalyzePass_labelled _ _ _ _ Elower Elabel) as [_ K].
  pose proof (labelingFlowNode_appends root _ _ Elabel) as Emap. simpl in Emap.
  apply idOf_index, K. rewrite Emap.
  change (map self (numbered (nodesOf root))) with (self <$> numbered (nodesOf root)).
  rewrite list_lookup_fmap.
  change (numbered (nodesOf root) !! i) with (numbered (nodesOf root) !! i).
  now rewrite Hx.
Qed.

(** X4. The labelling walk numbers the nodes other than Blocks 0, 1, 2, ...
    in the order in which it meets them: a node before the nodes below
    it, the nodes of a block in the order of their statements. *)
Theorem flowAnalyzePass_numbers_in_walk_order program root ids i x :
  flowAnalyzePass program = OK (root, ids) ->
  numbered (nodesOf root) !! i = Some x ->
  idOf ids (self x) = Z.of_nat i.
Proof. apply flowAnalyzePass_numbered. Qed.

Lemma flowAnalyzePass_numbers_witness :
  exists root ids x,
    flowAnalyzePass [IfStatement [(test (fun _ => true), [ExitStatement])] None;
                     ExitStatement] = OK (root, ids)
    /\ map edge (numbered (nodesOf root))
       = [("If", 4%nat, Some 1%nat); ("Exit", 2%nat, None);
          ("Exit", 1%nat, None); ("Return", 0%nat, None)]
    /\ numbered (nodesOf root) !! 2%nat = Some x
    /\ edge x = ("Exit", 1%nat, None)
    /\ idOf ids (self x) = 2.
Proof.
  eexists _, _, _. split; [vm_compute; reflexivity|].
  match goal with
  | |- map edge (numbered (nodesOf ?root)) = _ /\ _ =>
      split; [reflexivity|];
      split; [vm_compute; reflexivity|];
      split; [reflexivity|];
      apply (flowAnalyzePass_numbers_in_walk_order
               [IfStatement [(test (fun _ => true), [ExitStatement])] None;
                ExitStatement] root _ 2%nat _);
      vm_compute; reflexivity
  end.
Defined.

Lemma holdsFirst_app xs ys : holdsFirst xs -> holdsFirst ys -> holdsFirst (xs ++ ys).
Proof.
  intros Hx Hy b first rest n m Hin. apply elem_of_app.
  apply elem_of_app in Hin as [Hin|Hin]; [left|right]; eauto.
Qed.

Lemma holdsFirst_cons x xs :
  isBlock x = false -> holdsFirst xs -> holdsFirst (x :: xs).
Proof.
  intros Hx Hxs b first rest n m Hin. apply elem_of_cons.
  apply elem_of_cons in Hin as [<-|Hin]; [discriminate|]. right. eauto.
Qed.

Lemma holdsFirst_flat_map {A : Type} (g : A -> FlowNode) (l : list A) :
  Forall (fun a => holdsFirst (nodesOf (g a))) l ->
  holdsFirst (flat_map (fun a => nodesOf (g a)) l).
Proof.
  induction 1; simpl; [|now apply holdsFirst_app].
  intros b first rest n m Hin. now apply elem_of_nil in Hin.
Qed.

Lemma self_in_nodesOf node : node ∈ nodesOf node.
Proof. destruct node; simpl; apply list_elem_of_here. Qed.

Lemma holdsFirst_nodesOf node : holdsFirst (nodesOf node).
Proof.
  induction node
    as [s st n m | s st n m | s st m
       | s st branches otherwise m n [IHb IHo]
       | s st branches otherwise m n [IHb IHo]
       | s st body n m IHbody | s main m IHmain | s st n m | s st m
       | s nodes n m IHnodes]
    using FlowNode_nested_ind; simpl;
    try (apply holdsFirst_cons; [reflexivity|];
         intros b first rest n' m' Hin; now apply elem_of_nil in Hin).
  - apply holdsFirst_cons; [reflexivity|]. apply holdsFirst_app.
    + now apply (holdsFirst_flat_map snd).
    + destruct otherwise; [exact IHo|].
      intros b first rest n' m' Hin. now apply elem_of_nil in Hin.
  - apply holdsFirst_cons; [reflexivity|]. apply holdsFirst_app.
    + now apply (holdsFirst_flat_map snd).
    + destruct otherwise; [exact IHo|].
      intros b first rest n' m' Hin. now apply elem_of_nil in Hin.
  - apply holdsFirst_cons; [reflexivity|exact IHbody].
  - apply holdsFirst_cons; [reflexivity|exact IHmain].
  - intros b first rest n' m' Hin. apply elem_of_cons.
    apply elem_of_cons in Hin as [E|Hin].
    + injection E as <- <- <- <-. right. simpl. apply elem_of_app. left.
      apply self_in_nodesOf.
    + right. exact (holdsFirst_flat_map (fun x => x) nodes IHnodes _ _ _ _ _ Hin).
Qed.

Lemma labelsBlocks_ret : labelsBlocks [] (ret tt).
Proof.
  intros st st' _ [= <-]. split; [reflexivity|].
  intros b first rest n m Hin. now apply elem_of_nil in Hin.
Qed.

Lemma labelsBlocks_seq xs ys (c1 c2 : State Labelling unit) :
  holdsFirst xs ->
  labelsBlocks xs c1 -> labelsBlocks ys c2 -> labelsBlocks (xs ++ ys) (c1 ;;; c2).
Proof.
  intros Hfirst H1 H2 st st' Hnd E.
  apply bind_OK in E as ([] & st1 & E1 & E2).
  rewrite map_app in Hnd. apply NoDup_app in Hnd as (N1 & Hdisj & N2).
  destruct (H1 _ _ N1 E1) as [F1 B1]. destruct (H2 _ _ N2 E2) as [F2 B2].
  split.
  - intros k Hk. rewrite map_app in Hk. apply not_elem_of_app in Hk as [Hx Hy].
    now rewrite F2, F1.
  - intros b first rest n m Hin. apply elem_of_app in Hin as [Hin|Hin]; [|eauto].
    assert (Hb : b ∈ map self xs).
    { apply elem_of_selves. eexists. split; [exact Hin|reflexivity]. }
    assert (Hf : self first ∈ map self xs).
    { apply elem_of_selves. exists first. split; [|reflexivity]. eauto. }
    unfold idOf. rewrite (F2 b) by (intros Hy; exact (Hdisj _ Hb Hy)).
    rewrite (F2 (self first)) by (intros Hy; exact (Hdisj _ Hf Hy)).
    exact (B1 _ _ _ _ _ Hin).
Qed.

Lemma labelsBlocks_cons x xs (c : State Labelling unit) :
  isBlock x = false -> labelsBlocks xs c -> labelsBlocks (x :: xs) (addNode x ;;; c).
Proof.
  intros Hx Hc. apply (labelsBlocks_seq [x] xs); [| |exact Hc].
  - intros b first rest n m Hin. apply list_elem_of_singleton in Hin as <-.
    discriminate.
  - intros st st' _ [= <-]. simpl. split.
    + intros k Hk. apply lookup_insert_ne. intros <-. apply Hk.
      apply list_elem_of_here.
    + intros b first rest n m Hin. apply list_elem_of_singleton in Hin as <-.
      discriminate.
Qed.

Lemma labelsBlocks_forEach {A : Type} (g : A -> FlowNode)
    (walk : A -> State Labelling unit) (l : list A) :
  Forall (fun a => labelsBlocks (nodesOf (g a)) (walk a)) l ->
  labelsBlocks (flat_map (fun a => nodesOf (g a)) l) (forEach walk l).
Proof.
  induction 1; simpl; [apply labelsBlocks_ret|].
  apply labelsBlocks_seq; [apply holdsFirst_nodesOf|assumption|assumption].
Qed.

Lemma labelingFlowNode_blocks node :
  labelsBlocks (nodesOf node) (labelingFlowNode node).
Proof.
  induction node
    as [s st n m | s st n m | s st m
       | s st branches otherwise m n [IHb IHo]
       | s st branches otherwise m n [IHb IHo]
       | s st body n m IHbody | s main m IHmain | s st n m | s st m
       | s nodes n m IHnodes]
    using FlowNode_nested_ind;
    try (intros lst lst' _ [= <-]; simpl; split;
         [intros k Hk; apply lookup_insert_ne; intros <-; apply Hk;
          apply list_elem_of_here
         |intros b first rest n' m' Hin;
          apply list_elem_of_singleton in Hin; discriminate]).
  - simpl. apply labelsBlocks_cons; [reflexivity|].
    apply labelsBlocks_seq.
    + apply (holdsFirst_flat_map snd), Forall_forall. intros a _.
      apply holdsFirst_nodesOf.
    + now apply (labelsBlocks_forEach snd).
    + destruct otherwise; [exact IHo|apply labelsBlocks_ret].
  - simpl. apply labelsBlocks_cons; [reflexivity|].
    apply labelsBlocks_seq.
    + apply (holdsFirst_flat_map snd), Forall_forall. intros a _.
      apply holdsFirst_nodesOf.
    + now apply (labelsBlocks_forEach snd).
    + destruct otherwise; [exact IHo|apply labelsBlocks_ret].
  - simpl. apply labelsBlocks_cons; [reflexivity|exact IHbody].
  - simpl. apply labelsBlocks_cons; [reflexivity|exact IHmain].
  - intros lst lst' Hnd E. simpl in E, Hnd.
    apply NoDup_cons in Hnd as [Hs Hnd].
    apply bind_OK in E as ([] & lst1 & E1 & E2).
    destruct (labelsBlocks_forEach (fun x => x) labelingFlowNode nodes IHnodes
                _ _ Hnd E1) as [F1 B1].
    destruct nodes as [|first0 rest0]; [discriminate|]. injection E2 as <-.
    simpl. split.
    + intros k Hk. apply not_elem_of_cons in Hk as [Hk1 Hk2].
      rewrite lookup_insert_ne by congruence. now apply F1.
    + assert (Hinner : holdsFirst (flat_map nodesOf (first0 :: rest0))).
      { apply (holdsFirst_flat_map (fun x => x)), Forall_forall. intros a _.
        apply holdsFirst_nodesOf. }
      assert (Hother : forall x, x ∈ flat_map nodesOf (first0 :: rest0) ->
                idOf (<[s := idOf (ids lst1) (self first0)]> (ids lst1)) (self x)
                = idOf (ids lst1) (self x)).
      { intros x Hx. unfold idOf at 1. rewrite lookup_insert_ne; [reflexivity|].
        intros ->. apply Hs. apply elem_of_selves. eauto. }
      intros b first rest n' m' Hin. apply elem_of_cons in Hin as [E|Hin].
      * injection E as <- <- <- <-. unfold idOf at 1. rewrite lookup_insert_eq.
        simpl. symmetry. apply Hother. simpl. apply elem_of_app. left.
        apply self_in_nodesOf.
      * rewrite (Hother _ (Hinner _ _ _ _ _ Hin)).
        rewrite <- (B1 _ _ _ _ _ Hin).
        exact (Hother _ Hin).
Qed.

(** X5. After flow analysis a Block node has the id of its first node: a
    Move to a block enters it at its first statement. *)
Theorem flowAnalyzePass_block_id program root ids b first rest n m :
  flowAnalyzePass program = OK (root, ids) ->
  BlockFlowNode b (first :: rest) n m ∈ nodesOf root ->
  idOf ids b = idOf ids (self first).
Proof.
  intros Hflow Hin.
  destruct (flowAnalyzePass_inv _ _ _ Hflow) as (st & lst & Elower & Elabel & ->).
  destruct (lowerRoot_tidy _ _ _ Elower) as [_ Hnd].
  destruct (labelingFlowNode_blocks root _ _ Hnd Elabel) as [_ B].
  exact (B _ _ _ _ _ Hin).
Qed.

Lemma flowAnalyzePass_block_id_witness :
  exists root ids nodes m,
    flowAnalyzePass [ExitStatement] = OK (root, ids)
    /\ root = BlockFlowNode 2%nat
                (ExitFlowNode 1%nat ExitStatement true :: nodes) 0%nat m
    /\ idOf ids 2%nat = idOf ids 1%nat.
Proof.
  eexists _, _, _, _. split; [vm_compute; reflexivity|]. split; [reflexivity|].
  eapply (flowAnalyzePass_block_id [ExitStatement] _ _ 2%nat
            (ExitFlowNode 1%nat ExitStatement true));
    [vm_compute; reflexivity|apply list_elem_of_here].
Defined.

(** ** flowAnalyzePass: the nodes that lowering builds *)

(** The Loop case of [toFlowNode], taken apart. *)
Lemma toFlowNode_loop_inv skip initializer condition iterator label body
    successor st node st' :
  toFlowNode (LoopStatement skip initializer condition iterator label body)
    successor st = OK (node, st') ->
  exists flowBody st3,
    toBlockFlowNode toFlowNode body (S (allocated st))
      (mkLowering (S (S (allocated st)))
         match labelOf label with
         | Some l => <[l := S (allocated st)]> (labelMap st)
         | None => labelMap st
         end
         (S (allocated st) :: breakableNodeStack st))
    = OK (flowBody, st3)
    /\ (forall l, labelOf label = Some l -> labelMap st !! l = None)
    /\ node
       = match initializer with
         | Some _ =>
             LoopInitializerFlowNode (allocated st3)
               (loopNodeOf st
                  (LoopStatement skip initializer condition iterator label body)
                  flowBody successor) true
         | None =>
             if skip then flowBody
             else loopNodeOf st
                    (LoopStatement skip initializer condition iterator label body)
                    flowBody successor
         end.
Proof.
  simpl. unfold bind, alloc, get, ret. simpl.
  destruct (labelOf label) as [l|].
  - simpl. destruct (labelMap st !! l) eqn:El; simpl; [discriminate|].
    unfold setLabel, pushBreakable, modify. simpl.
    destruct (toBlockFlowNode toFlowNode body _ _)
      as [[flowBody st3]|e|] eqn:Eb; try discriminate.
    unfold deleteLabel, popBreakable, modify. simpl.
    intros H. exists flowBody, st3. split; [reflexivity|].
    split; [now intros l' [= <-]|].
    destruct initializer as [e|]; [|destruct skip]; now injection H as <- <-.
  - simpl. unfold pushBreakable, modify. simpl.
    destruct (toBlockFlowNode toFlowNode body _ _)
      as [[flowBody st3]|e|] eqn:Eb; try discriminate.
    unfold popBreakable, modify. simpl.
    intros H. exists flowBody, st3. split; [reflexivity|].
    split; [discriminate|].
    destruct initializer as [e|]; [|destruct skip]; now injection H as <- <-.
Qed.

Section MergeLists.
Variable f : Statement -> oid -> Lower FlowNode.

Lemma lowerStatements_merges statements :
Forall (statementMerges f) statements ->
forall successor st nodes last st',
  lowerStatements f statements successor st = OK ((nodes, last), st') ->
  forallb mergable nodes = negb (existsb callsGlobal statements).
Proof.
induction 1 as [|statement rest Hs _ IH];
  intros successor st nodes last st'; simpl.
- now intros [= <- <- <-].
- intros H. apply bind_OK in H as ([nodes1 last1] & st1 & H1 & H).
  apply bind_OK in H as (node & st2 & H2 & H). injection H as <- <- <-.
  simpl. rewrite (Hs _ _ _ _ H2), (IH _ _ _ _ _ H1). now rewrite negb_orb.
Qed.

Lemma toBlockFlowNode_merges statements :
Forall (statementMerges f) statements ->
forall successor st block st',
  toBlockFlowNode f statements successor st = OK (block, st') ->
  mergable block = negb (existsb callsGlobal statements).
Proof.
intros Hs successor st block st' H. unfold toBlockFlowNode in H.
apply bind_OK in H as ([nodes last] & st1 & H1 & H).
unfold bind, alloc, ret in H. simpl in H. injection H as <- <-. simpl.
exact (lowerStatements_merges _ Hs _ _ _ _ _ H1).
Qed.

Lemma lowerIfBranches_merges branches :
Forall (fun branch => Forall (statementMerges f) (snd branch)) branches ->
forall successor st flowBranches st',
  lowerIfBranches f branches successor st = OK (flowBranches, st') ->
  forallb (fun branch => mergable (snd branch)) flowBranches
  = negb (existsb (fun branch => existsb callsGlobal (snd branch)) branches).
Proof.
induction 1 as [|[condition body] rest Hs _ IH];
  intros successor st flowBranches st'; simpl.
- now intros [= <- <-].
- intros H. apply bind_OK in H as (node & st1 & H1 & H).
  apply bind_OK in H as (flowRest & st2 & H2 & H). injection H as <- <-.
  simpl. rewrite (toBlockFlowNode_merges _ Hs _ _ _ _ H1), (IH _ _ _ _ H2).
  now rewrite negb_orb.
Qed.

Lemma lowerSwitchBranches_merges branches :
Forall (fun branch => Forall (statementMerges f) (snd branch)) branches ->
forall last0 st flowBranches last st',
  lowerSwitchBranches f branches last0 st = OK ((flowBranches, last), st') ->
  forallb (fun branch => mergable (snd branch)) flowBranches
  = negb (existsb (fun branch => existsb callsGlobal (snd branch)) branches).
Proof.
induction 1 as [|[condition body] rest Hs _ IH];
  intros last0 st flowBranches last st'; simpl.
- now intros [= <- <- <-].
- intros H. apply bind_OK in H as ([flowRest last1] & st1 & H1 & H).
  apply bind_OK in H as (chained & st2 & H2 & H).
  apply bind_OK in H as (node & st3 & H3 & H). injection H as <- <- <-.
  simpl. rewrite (toBlockFlowNode_merges _ Hs _ _ _ _ H3), (IH _ _ _ _ _ H1).
  now rewrite negb_orb.
Qed.

Lemma lowerOtherwise_merges otherwise :
match otherwise with
| Some block => Forall (statementMerges f) block
| None => True
end ->
forall successor st flowOtherwise st',
  lowerOtherwise f otherwise successor st = OK (flowOtherwise, st') ->
  match flowOtherwise with
  | Some node => mergable node
  | None => true
  end
  = negb match otherwise with
         | Some block => existsb callsGlobal block
         | None => false
         end.
Proof.
destruct otherwise as [block|]; simpl.
- intros Hs successor st flowOtherwise st' H.
  apply bind_OK in H as (node & st1 & H1 & H). injection H as <- <-.
  exact (toBlockFlowNode_merges _ Hs _ _ _ _ H1).
- now intros _ successor st flowOtherwise st' [= <- <-].
Qed.
End MergeLists.

Lemma toFlowNode_merges statement : statementMerges toFlowNode statement.
Proof.
  induction statement
    as [expression async | functionName parameters builtIn async | value
       | branches otherwise [IHb IHo] | pattern branches otherwise [IHb IHo]
       | skip initializer condition iterator label body IHbody
       | label | | | type]
    using Statement_nested_ind; intros successor st node st'.
  - simpl. unfold bind, alloc, ret. simpl. now intros [= <- <-].
  - simpl. unfold bind, alloc. simpl.
    destruct builtIn; unfold ret; now intros [= <- <-].
  - simpl. unfold bind, alloc, ret. simpl. now intros [= <- <-].
  - simpl. intros H.
    apply bind_OK in H as (flowBranches & st1 & H1 & H).
    apply bind_OK in H as (flowOtherwise & st2 & H2 & H).
    unfold bind, alloc, ret in H. simpl in H. injection H as <- <-. simpl.
    unfold branchesMergable.
    rewrite (lowerIfBranches_merges _ _ IHb _ _ _ _ H1).
    rewrite (lowerOtherwise_merges _ _ IHo _ _ _ _ H2). now rewrite negb_orb.
  - simpl. intros H.
    apply bind_OK in H as (flowOtherwise & st1 & H1 & H).
    apply bind_OK in H as ([flowBranches last] & st2 & H2 & H).
    unfold bind, alloc, ret in H. simpl in H. injection H as <- <-. simpl.
    unfold branchesMergable.
    rewrite (lowerSwitchBranches_merges _ _ IHb _ _ _ _ _ H2).
    rewrite (lowerOtherwise_merges _ _ IHo _ _ _ _ H1). now rewrite negb_orb.
  - intros H. apply toFlowNode_loop_inv in H as (flowBody & st3 & Hb & _ & ->).
    pose proof (toBlockFlowNode_merges _ _ IHbody _ _ _ _ Hb) as Hm.
    simpl. destruct initializer as [e|]; [reflexivity|].
    destruct skip; exact Hm.
  - simpl. unfold bind, get, alloc, ret. simpl.
    destruct (labelOf label) as [l|].
    + destruct (labelMap st !! l); simpl; [|discriminate]. now intros [= <- <-].
    + destruct (breakableNodeStack st); simpl; [discriminate|]. now intros [= <- <-].
  - simpl. unfold bind, get, alloc, ret. simpl.
    destruct (breakableNodeStack st); simpl; [discriminate|]. now intros [= <- <-].
  - simpl. unfold bind, alloc, ret. simpl. now intros [= <- <-].
  - discriminate.
Qed.

(** X6. The node of a statement is marked mergable exactly when the
    statement holds no call of a global function, where the body of a loop
    with an initializer does not count: the node of such a loop is marked
    mergable whatever its body calls. *)
Theorem toFlowNode_mergable statement successor st node st' :
  toFlowNode statement successor st = OK (node, st') ->
  mergable node = negb (callsGlobal statement).
Proof. apply toFlowNode_merges. Qed.

Lemma toFlowNode_mergable_witness :
  exists node st',
    toFlowNode
      (LoopStatement false (Some (assign "i" (fun _ => 0))) None None None
         [callGlobal "g"]) 0%nat (mkLowering 1 ∅ []) = OK (node, st')
    /\ mergable node = true.
Proof.
  eexists _, _. split; [vm_compute; reflexivity|].
  eapply (toFlowNode_mergable
            (LoopStatement false (Some (assign "i" (fun _ => 0))) None None None
               [callGlobal "g"]) 0%nat (mkLowering 1 ∅ [])).
  vm_compute. reflexivity.
Defined.

Section ChainLists.
Variable f : Statement -> oid -> Lower FlowNode.
Hypothesis f_exit : forall statement successor st node st',
f statement successor st = OK (node, st') ->
fallsThrough statement = true -> exitOf node = Some successor.

Lemma lowerStatements_chain statements :
forall successor st nodes last st',
  lowerStatements f statements successor st = OK ((nodes, last), st') ->
  last = entryOf nodes successor
  /\ length nodes = length statements
  /\ forall i statement node,
       statements !! i = Some statement -> nodes !! i = Some node ->
       fallsThrough statement = true ->
       exitOf node = Some (entryOf (drop (S i) nodes) successor).
Proof.
induction statements as [|statement rest IH];
  intros successor st nodes last st'; simpl.
- intros [= <- <- <-]. split; [reflexivity|]. split; [reflexivity|].
  intros i statement node E. now rewrite lookup_nil in E.
- intros H. apply bind_OK in H as ([nodes1 last1] & st1 & H1 & H).
  apply bind_OK in H as (node & st2 & H2 & H). injection H as <- <- <-.
  destruct (IH _ _ _ _ _ H1) as (-> & Hlen & Hchain).
  split; [reflexivity|]. split; [simpl; now rewrite Hlen|].
  intros [|i] statement0 node0; simpl.
  + intros [= <-] [= <-] Hfalls. rewrite drop_0. exact (f_exit _ _ _ _ _ H2 Hfalls).
  + apply Hchain.
Qed.
End ChainLists.

Lemma toFlowNode_exit statement successor st node st' :
  toFlowNode statement successor st = OK (node, st') ->
  fallsThrough statement = true -> exitOf node = Some successor.
Proof.
  destruct statement
    as [expression async | functionName parameters builtIn async | value
       | branches otherwise | pattern branches otherwise
       | skip initializer condition iterator label body
       | label | | | type]; try discriminate.
  - simpl. unfold bind, alloc, ret. simpl. now intros [= <- <-].
  - simpl. unfold bind, alloc. simpl.
    destruct builtIn; unfold ret; now intros [= <- <-].
  - simpl. intros H.
    apply bind_OK in H as (flowBranches & st1 & H1 & H).
    apply bind_OK in H as (flowOtherwise & st2 & H2 & H).
    unfold bind, alloc, ret in H. simpl in H. now injection H as <- <-.
  - simpl. intros H.
    apply bind_OK in H as (flowOtherwise & st1 & H1 & H).
    apply bind_OK in H as ([flowBranches last] & st2 & H2 & H).
    unfold bind, alloc, ret in H. simpl in H. now injection H as <- <-.
  - intros H. apply toFlowNode_loop_inv in H as (flowBody & st3 & _ & _ & ->).
    simpl. destruct initializer as [e|]; [reflexivity|].
    destruct skip; [discriminate|reflexivity].
Qed.

(** X7. The nodes of a block are linked in the order of the statements:
    the block has one node for each statement and its [next] is the
    successor it was given; the [next] of the node of an Expression, Call,
    If, Switch or Loop statement (of the Loop node, for a loop with an
    initializer; a loop that skips its first check and has no initializer
    apart) is the node of the statement that follows, and the block's
    successor for the last statement.  This is the link of the node itself:
    the blocks below an If or a Switch have a [next] of their own. *)
Theorem toBlockFlowNode_chains statements successor st block st' :
  toBlockFlowNode toFlowNode statements successor st = OK (block, st') ->
  exists b nodes m,
    block = BlockFlowNode b nodes successor m
    /\ length nodes = length statements
    /\ forall i statement node,
         statements !! i = Some statement -> nodes !! i = Some node ->
         fallsThrough statement = true ->
         exitOf node = Some (entryOf (drop (S i) nodes) successor).
Proof.
  unfold toBlockFlowNode. intros H.
  apply bind_OK in H as ([nodes last] & st1 & H1 & H).
  unfold bind, alloc, ret in H. simpl in H. injection H as <- <-.
  destruct (lowerStatements_chain toFlowNode toFlowNode_exit _ _ _ _ _ _ H1)
    as (_ & Hlen & Hchain).
  eauto 7.
Qed.

Lemma toBlockFlowNode_chains_witness :
  exists block st',
    toBlockFlowNode toFlowNode [callGlobal "g"; ExitStatement] 0%nat
      (mkLowering 1 ∅ []) = OK (block, st')
    /\ exists b nodes m,
         block = BlockFlowNode b nodes 0%nat m
         /\ length nodes = length [callGlobal "g"; ExitStatement]
         /\ forall i statement node,
              [callGlobal "g"; ExitStatement] !! i = Some statement ->
              nodes !! i = Some node ->
              fallsThrough statement = true ->
              exitOf node = Some (entryOf (drop (S i) nodes) 0%nat).
Proof.
  eexists _, _. split; [vm_compute; reflexivity|].
  eapply (toBlockFlowNode_chains [callGlobal "g"; ExitStatement] 0%nat
            (mkLowering 1 ∅ [])).
  vm_compute. reflexivity.
Defined.

(** ** flowAnalyzePass: If *)

Section IfBranches.
Variable f : Statement -> oid -> Lower FlowNode.

Lemma lowerIfBranches_next branches :
forall successor st flowBranches st',
  lowerIfBranches f branches successor st = OK (flowBranches, st') ->
  map fst flowBranches = map fst branches
  /\ Forall (fun branch => exists b nodes m,
               snd branch = BlockFlowNode b nodes successor m) flowBranches.
Proof.
induction branches as [|[condition body] rest IH];
  intros successor st flowBranches st'; simpl.
- intros [= <- <-]. split; [reflexivity|constructor].
- intros H. apply bind_OK in H as (node & st1 & H1 & H).
  apply bind_OK in H as (flowRest & st2 & H2 & H). injection H as <- <-.
  destruct (IH _ _ _ _ H2) as [Hc Hn]. simpl. split; [now rewrite Hc|].
  constructor; [|exact Hn]. simpl. unfold toBlockFlowNode in H1.
  apply bind_OK in H1 as ([nodes last] & st3 & _ & H1).
  unfold bind, alloc, ret in H1. simpl in H1. injection H1 as <- <-. eauto.
Qed.
End IfBranches.

(** X8. An If statement is lowered to an If node that keeps the conditions
    of the branches in their order; the block of every branch and the
    otherwise block have the If's own successor as their [next], and so
    has the If node: no branch runs on into another. *)
Theorem toFlowNode_if branches otherwise successor st node st' :
  toFlowNode (IfStatement branches otherwise) successor st = OK (node, st') ->
  exists s flowBranches flowOtherwise m,
    node = IfFlowNode s (IfStatement branches otherwise) flowBranches
             flowOtherwise m successor
    /\ map fst flowBranches = map fst branches
    /\ Forall (fun branch => nextOf (snd branch) = Some successor) flowBranches
    /\ match otherwise, flowOtherwise with
       | Some _, Some block => nextOf block = Some successor
       | None, None => True
       | _, _ => False
       end.
Proof.
  simpl. intros H.
  apply bind_OK in H as (flowBranches & st1 & H1 & H).
  apply bind_OK in H as (flowOtherwise & st2 & H2 & H).
  unfold bind, alloc, ret in H. simpl in H. injection H as <- <-.
  destruct (lowerIfBranches_next _ _ _ _ _ _ H1) as [Hc Hn].
  eexists _, _, _, _. split; [reflexivity|]. split; [exact Hc|]. split.
  - eapply Forall_impl; [exact Hn|]. simpl. now intros branch (b & nodes & m & ->).
  - destruct otherwise as [block|]; simpl in H2.
    + apply bind_OK in H2 as (blockNode & st3 & H3 & H2). injection H2 as <- <-.
      unfold toBlockFlowNode in H3.
      apply bind_OK in H3 as ([nodes last] & st4 & _ & H3).
      unfold bind, alloc, ret in H3. simpl in H3. now injection H3 as <- <-.
    + now injection H2 as <- <-.
Qed.

Lemma toFlowNode_if_witness :
  exists node st',
    toFlowNode (IfStatement [(test (fun _ => true), [ExitStatement]);
                             (test (fun _ => false), [ExitStatement])] None)
      0%nat (mkLowering 1 ∅ []) = OK (node, st')
    /\ exists s flowBranches flowOtherwise m,
         node = IfFlowNode s
                  (IfStatement [(test (fun _ => true), [ExitStatement]);
                                (test (fun _ => false), [ExitStatement])] None)
                  flowBranches flowOtherwise m 0%nat
         /\ map fst flowBranches
            = map fst [(test (fun _ => true), [ExitStatement]);
                       (test (fun _ => false), [ExitStatement])]
         /\ Forall (fun branch => nextOf (snd branch) = Some 0%nat) flowBranches
         /\ match @None (list Statement), flowOtherwise with
            | Some _, Some block => nextOf block = Some 0%nat
            | None, None => True
            | _, _ => False
            end.
Proof.
  eexists _, _. split; [vm_compute; reflexivity|].
  eapply (toFlowNode_if
            [(test (fun _ => true), [ExitStatement]);
             (test (fun _ => false), [ExitStatement])] None
            0%nat (mkLowering 1 ∅ [])).
  vm_compute. reflexivity.
Defined.

(** ** flowAnalyzePass: the scope of labels and loops *)

(** X9. From any state of the analysis, [toFlowNode] throws exactly when
    the statement is ill scoped for the labels and the loops that are in
    scope there; when it returns a node, the label map and the stack of
    loops are as they were before: a loop's label and the loop itself are
    in scope for its body and nowhere else. *)
Theorem toFlowNode_scope statement successor st :
  match toFlowNode statement successor st with
  | OK (node, st') =>
      ill st statement = false
      /\ labelMap st' = labelMap st
      /\ breakableNodeStack st' = breakableNodeStack st
  | Throw _ => ill st statement = true
  | OutOfFuel => False
  end.
Proof.
  pose proof (toFlowNode_lowers statement successor st) as H. unfold lowers in H.
  destruct (toFlowNode statement successor st) as [[node st']|e|];
    [|exact H|exact H].
  destruct H as (Hl & Hk & _ & Hill & _). auto.
Qed.

(** ** nodeGenPass: the step of an If *)

Lemma firstTruthy_none ids branches scope scope1 :
  noneTruthy branches scope = Some scope1 ->
  firstTruthy ids branches scope = (None, scope1).
Proof.
  revert scope. induction branches as [|[condition node] rest IH];
    intros scope; simpl.
  - now intros [= <-].
  - destruct (condition scope) as [v s1]. destruct (truthy v); [discriminate|].
    apply IH.
Qed.

Lemma firstTruthy_first ids before condition node after scope scope1 v scope2 :
  noneTruthy before scope = Some scope1 ->
  condition scope1 = (v, scope2) ->
  truthy v = true ->
  firstTruthy ids (before ++ (condition, node) :: after) scope
  = (Some (idOf ids (self node)), scope2).
Proof.
  revert scope. induction before as [|[c n] rest IH]; intros scope; simpl.
  - intros [= <-] -> ->. reflexivity.
  - destruct (c scope) as [v' s1]. destruct (truthy v'); [discriminate|]. apply IH.
Qed.

(** X10. The step of an If evaluates the conditions of the branches in
    their order, each in the scope the one before left, up to the first
    that is truthy, and moves to the block of that branch; the conditions
    after it are not evaluated.  When none is truthy it moves to the
    otherwise block, and without one to the If's successor. *)
Theorem ifStep_selects_first_truthy :
  (forall ids before condition node after otherwise next fuel
          scope scope1 v scope2,
      noneTruthy before scope = Some scope1 ->
      condition scope1 = (v, scope2) ->
      truthy v = true ->
      ifStep ids (before ++ (condition, node) :: after) otherwise next fuel scope
      = OK (Some (Move (idOf ids (self node))), scope2))
  /\ (forall ids branches otherwise next fuel scope scope1,
        noneTruthy branches scope = Some scope1 ->
        ifStep ids branches otherwise next fuel scope
        = OK (Some (Move match otherwise with
                         | Some block => idOf ids (self block)
                         | None => idOf ids next
                         end), scope1)).
Proof.
  split.
  - intros. unfold ifStep, branchStep.
    now erewrite firstTruthy_first by eassumption.
  - intros. unfold ifStep, branchStep.
    erewrite firstTruthy_none by eassumption. now destruct otherwise.
Qed.

Lemma ifStep_selects_first_truthy_witness :
  ifStep ∅ ([(test (fun _ => false), ExitFlowNode 5%nat ExitStatement true)]
            ++ (test (fun _ => true), ExitFlowNode 6%nat ExitStatement true)
            :: [(test (fun _ => true), ExitFlowNode 7%nat ExitStatement true)])
    None 9%nat 0%nat (mkScope ∅ ∅ ∅)
  = OK (Some (Move (idOf ∅ 6%nat)), mkScope ∅ ∅ ∅)
  /\ ifStep ∅ [(test (fun _ => false), ExitFlowNode 5%nat ExitStatement true)]
       None 9%nat 0%nat (mkScope ∅ ∅ ∅)
     = OK (Some (Move (idOf ∅ 9%nat)), mkScope ∅ ∅ ∅).
Proof.
  split.
  - apply (proj1 ifStep_selects_first_truthy ∅
             [(test (fun _ => false), ExitFlowNode 5%nat ExitStatement true)]
             (test (fun _ => true)) (ExitFlowNode 6%nat ExitStatement true)
             [(test (fun _ => true), ExitFlowNode 7%nat ExitStatement true)]
             None 9%nat 0%nat (mkScope ∅ ∅ ∅) (mkScope ∅ ∅ ∅) (VBool true)
             (mkScope ∅ ∅ ∅));
      reflexivity.
  - apply (proj2 ifStep_selects_first_truthy ∅ _ None). reflexivity.
Defined.

(** ** interpreter.ts: calls *)

(** X11. A call that returns leaves the call stack as it found it: the
    frame it pushed is popped, whatever the callee ran and however deep its
    own calls went, and every step taken in between was taken with the
    caller's frames below the running ones. *)
Theorem call_restores_the_stack interpreter fuel executable ps ctx r ctx' :
  call (run interpreter fuel) executable ps ctx = OK (r, ctx') ->
  callStack ctx' = callStack ctx
  /\ exists during,
       snapshots ctx' = snapshots ctx ++ during
       /\ during <> []
       /\ Forall (fun snap => exists upper,
                    upper <> [] /\ snap = upper ++ map current (callStack ctx))
                 during.
Proof.
  intros H.
  destruct (call_keeps _ _ _ _ _ _ (run_keeps interpreter fuel) H)
    as (during & Hs & Hsn & Hne & Hab).
  split; [exact Hs|]. now exists during.
Qed.

Lemma call_restores_the_stack_witness :
  exists r ctx',
    call (run handInterpreter 5) callerProgram ∅ (mkContext ∅ [] [])
    = OK (r, ctx')
    /\ callStack ctx' = []
    /\ exists during,
         snapshots ctx' = [] ++ during
         /\ during <> []
         /\ Forall (fun snap => exists upper,
                      upper <> [] /\ snap = upper ++ map current []) during.
Proof.
  eexists _, _. split; [vm_compute; reflexivity|].
  eapply (call_restores_the_stack handInterpreter 5 callerProgram ∅
            (mkContext ∅ [] [])).
  vm_compute. reflexivity.
Defined.

(** ** interpreter.ts: the functions of an interpreter *)

Lemma loadGlobalFunctions_lookup builtIns globalFunctions acc globals key :
  loadGlobalFunctions builtIns globalFunctions acc = OK globals ->
  match lastEntry key globalFunctions with
  | Some script =>
      exists program,
        compileScript builtIns script = OK program /\ globals !! key = Some program
  | None => globals !! key = acc !! key
  end.
Proof.
  revert acc. induction globalFunctions as [|[k script] rest IH]; intros acc; simpl.
  - now intros [= <-].
  - destruct (compileScript builtIns script) as [program|e|] eqn:Ec; simpl;
      try discriminate.
    intros H. specialize (IH _ H).
    destruct (lastEntry key rest) as [later|]; [exact IH|].
    destruct (String.eqb k key) eqn:Ek.
    + apply String.eqb_eq in Ek as ->. exists program. split; [exact Ec|].
      now rewrite IH, lookup_insert_eq.
    + apply String.eqb_neq in Ek. now rewrite IH, lookup_insert_ne.
Qed.

Lemma builtIns_lookup (builtIns : list BuiltInFunction)
    (acc : gmap string BuiltInFunction) key :
  fold_left (fun m e => <[name e := e]> m) builtIns acc !! key
  = match lastEntry key (map (fun e => (name e, e)) builtIns) with
    | Some f => Some f
    | None => acc !! key
    end.
Proof.
  revert acc. induction builtIns as [|e rest IH]; intros acc; simpl; [reflexivity|].
  rewrite IH. destruct (lastEntry key _) as [later|]; [reflexivity|].
  destruct (String.eqb (name e) key) eqn:Ek.
  - apply String.eqb_eq in Ek as <-. apply lookup_insert_eq.
  - apply String.eqb_neq in Ek. now apply lookup_insert_ne.
Qed.

(** X12. In an interpreter that was constructed, a global function name
    stands for the compiled script of the last pair of that name in the
    language (every script compiled, or the constructor would have thrown),
    and a built-in name for the last built-in of that name; a name that
    the language does not have throws the missing-function error. *)
Theorem newInterpreter_functions lang interpreter :
  newInterpreter lang = OK interpreter ->
  (forall key,
      match lastEntry key (globalFunctions lang) with
      | Some script =>
          exists program,
            compileScript (builtInFunctionMap interpreter) script = OK program
            /\ findGlobalFunction interpreter key = OK program
      | None => findGlobalFunction interpreter key = Throw (MissingGlobalFunction key)
      end)
  /\ (forall key,
        getBuiltInFunction (builtInFunctionMap interpreter) key
        = match lastEntry key (map (fun e => (name e, e)) (builtInFunctions lang)) with
          | Some f => OK f
          | None => Throw (MissingBuiltInFunction key)
          end).
Proof.
  unfold newInterpreter.
  destruct (loadGlobalFunctions _ _ _) as [globals|e|] eqn:Eload; simpl;
    try discriminate.
  intros [= <-]. split.
  - intros key. unfold findGlobalFunction. simpl.
    pose proof (loadGlobalFunctions_lookup _ _ _ _ key Eload) as H.
    destruct (lastEntry key (globalFunctions lang)) as [script|].
    + destruct H as (program & Hc & ->). now exists program.
    + now rewrite H, lookup_empty.
  - intros key. unfold getBuiltInFunction. simpl. rewrite builtIns_lookup.
    destruct (lastEntry key _); [reflexivity|]. now rewrite lookup_empty.
Qed.

Lemma newInterpreter_functions_witness :
  exists interpreter,
    newInterpreter (mkLanguage [] [("g", [ExitStatement]); ("g", [])]) = OK interpreter
    /\ (exists program,
          compileScript (builtInFunctionMap interpreter) [] = OK program
          /\ findGlobalFunction interpreter "g" = OK program)
    /\ findGlobalFunction interpreter "h" = Throw (MissingGlobalFunction "h").
Proof.
  eexists. split; [vm_compute; reflexivity|].
  split.
  - apply (proj1 (newInterpreter_functions
                    (mkLanguage [] [("g", [ExitStatement]); ("g", [])]) _
                    ltac:(vm_compute; reflexivity)) "g").
  - apply (proj1 (newInterpreter_functions
                    (mkLanguage [] [("g", [ExitStatement]); ("g", [])]) _
                    ltac:(vm_compute; reflexivity)) "h").
Defined.

(** ** compile ends *)

Lemma bindR_OK {A B : Type} (c : Result A) (k : A -> Result B) b :
  bindR c k = OK b -> exists a, c = OK a /\ k a = OK b.
Proof. destruct c as [a|e|]; simpl; try discriminate. eauto. Qed.

Lemma bindR_ends {A B : Type} (c : Result A) (k : A -> Result B) :
  ends c -> (forall a, c = OK a -> ends (k a)) -> ends (bindR c k).
Proof.
  unfold ends. destruct c as [a|e|]; simpl; [auto|discriminate|contradiction].
Qed.

Lemma mapR_OK {A B : Type} (f : A -> Result B) l ys :
  mapR f l = OK ys -> Forall2 (fun x y => f x = OK y) l ys.
Proof.
  revert ys. induction l as [|x rest IH]; intros ys; simpl.
  - intros [= <-]. constructor.
  - intros H. apply bindR_OK in H as (y & Hy & H).
    apply bindR_OK in H as (ys' & Hys & H). injection H as <-.
    constructor; [exact Hy|now apply IH].
Qed.

Lemma mapR_ends {A B : Type} (f : A -> Result B) l :
  Forall (fun x => ends (f x)) l -> ends (mapR f l).
Proof.
  induction 1 as [|x rest Hx _ IH]; simpl; [discriminate|].
  apply bindR_ends; [exact Hx|]. intros y _.
  apply bindR_ends; [exact IH|]. discriminate.
Qed.

Lemma forEach_OK {S A : Type} (f : A -> State S unit) l s s' :
  forEach f l s = OK (tt, s') ->
  Forall (fun a => exists s1 s2, f a s1 = OK (tt, s2)) l.
Proof.
  revert s. induction l as [|a rest IH]; intros s; simpl; [constructor|].
  intros H. apply bind_OK in H as ([] & s1 & H1 & H).
  constructor; [eauto|]. exact (IH _ H).
Qed.

Lemma forEach_ends {S A : Type} (f : A -> State S unit) l :
  Forall (fun a => forall s, ends (f a s)) l -> forall s, ends (forEach f l s).
Proof.
  induction 1 as [|a rest Ha _ IH]; intros s; simpl; [discriminate|].
  unfold bind. specialize (Ha s). destruct (f a s) as [[[] s1]|e|];
    [apply IH|discriminate|exact Ha].
Qed.

Lemma checkExpr_ends e : ends (checkExpr e).
Proof.
  destruct e as [f|code]; simpl; [discriminate|].
  destruct (classifyText code); discriminate.
Qed.

Lemma checkSyntax_ends s : forall inLoop inSwitch, ends (checkSyntax inLoop inSwitch s).
Proof.
  induction s
    as [e | functionName f parameters | op
       | branches otherwise IHb IHo | pattern branches otherwise IHb IHo
       | initializer condition iterator body IH
       | initializer body iterator condition IH | label | | statements IH]
    using JsStmt_nested_ind; intros inLoop inSwitch; simpl.
  - apply checkExpr_ends.
  - apply bindR_ends; [|discriminate]. apply mapR_ends, Forall_forall.
    intros kv _. apply checkExpr_ends.
  - destruct op; [discriminate|apply checkExpr_ends|discriminate].
  - destruct branches as [|[c body] [|second rest]].
    + destruct otherwise; discriminate.
    + apply Forall_cons_1 in IHb as [Hbody _]. simpl in Hbody.
      destruct otherwise as [block|]; [|apply Hbody].
      apply bindR_ends; [apply Hbody|]. intros _ _. apply IHo.
    + destruct otherwise; discriminate.
  - apply bindR_ends.
    + apply mapR_ends. eapply Forall_impl; [exact IHb|]. simpl. auto.
    + intros _ _. destruct otherwise; [apply IHo|discriminate].
  - apply IH.
  - destruct condition; [apply IH|discriminate].
  - destruct label; [discriminate|]. destruct (inLoop || inSwitch); discriminate.
  - destruct inLoop; discriminate.
  - apply bindR_ends; [|discriminate]. apply mapR_ends.
    eapply Forall_impl; [exact IH|]. simpl. auto.
Qed.

Section EmitEnds.
Variable ids : gmap oid Z.
Variable getBuiltIn : string -> Result BuiltInFunction.
Hypothesis getBuiltIn_ends : forall key, ends (getBuiltIn key).

Lemma emitJITCode_ends entry node : ends (emitJITCode ids getBuiltIn entry node).
Proof.
induction node
  as [s st n m | s st n m | s st m
     | s st branches otherwise m n [IHb IHo]
     | s st branches otherwise m n [IHb IHo]
     | s st body n m IHbody | s main m IHmain | s st n m | s st m
     | s nodes n m IHnodes]
  using FlowNode_nested_ind; simpl.
- destruct st; try discriminate. destruct builtIn; [|discriminate].
  apply bindR_ends; [apply getBuiltIn_ends|discriminate].
- discriminate.
- destruct st as [| |[[l|e]|]| | | | | | |]; discriminate.
- apply bindR_ends.
  + apply mapR_ends. eapply Forall_impl; [exact IHb|]. simpl.
    intros branch Hb. apply bindR_ends; [exact Hb|discriminate].
  + intros branchList _. apply bindR_ends; [|discriminate].
    destruct otherwise; [|discriminate].
    apply bindR_ends; [exact IHo|discriminate].
- apply bindR_ends.
  + apply mapR_ends. eapply Forall_impl; [exact IHb|]. simpl.
    intros branch Hb. apply bindR_ends; [exact Hb|discriminate].
  + intros branchList _. apply bindR_ends.
    * destruct otherwise; [|discriminate].
      apply bindR_ends; [exact IHo|discriminate].
    * intros otherwiseCode _. destruct st; discriminate.
- destruct st; try discriminate.
  apply bindR_ends; [exact IHbody|]. intros bodyCode _.
  destruct skipInitialCheck; discriminate.
- exact IHmain.
- destruct (idOf ids n <? entry); [discriminate|]. destruct st; discriminate.
- discriminate.
- apply bindR_ends; [|discriminate]. now apply mapR_ends.
Qed.

Lemma emitJITNode_ends nodes program :
ends (emitJITNode ids getBuiltIn nodes program).
Proof.
unfold emitJITNode. destruct nodes as [|entry rest]; [discriminate|].
apply bindR_ends.
- apply mapR_ends, Forall_forall. intros x _. apply emitJITCode_ends.
- intros code _. apply bindR_ends; [|discriminate].
  apply mapR_ends, Forall_forall. intros x _. apply checkSyntax_ends.
Qed.

Lemma bind_ends {S A B : Type} (c : State S A) (k : A -> State S B) s :
ends (c s) -> (forall a s1, c s = OK (a, s1) -> ends (k a s1)) ->
ends (bind c k s).
Proof.
unfold ends, bind. destruct (c s) as [[a s1]|e|]; [auto|discriminate|contradiction].
Qed.

Lemma emitNode_ends node : forall program, ends (emitNode ids getBuiltIn node program).
Proof.
induction node
  as [s st n m | s st n m | s st m
     | s st branches otherwise m n [IHb IHo]
     | s st branches otherwise m n [IHb IHo]
     | s st body n m IHbody | s main m IHmain | s st n m | s st m
     | s nodes n m IHnodes]
  using FlowNode_nested_ind; intros program; simpl.
- destruct st; try discriminate. destruct builtIn; [|discriminate].
  apply bindR_ends; [apply getBuiltIn_ends|discriminate].
- destruct st; discriminate.
- destruct st; discriminate.
- apply bind_ends.
  + apply forEach_ends. eapply Forall_impl; [exact IHb|]. simpl. auto.
  + intros [] program1 _. apply bind_ends; [|discriminate].
    destruct otherwise; [apply IHo|discriminate].
- apply bind_ends.
  + apply forEach_ends. eapply Forall_impl; [exact IHb|]. simpl. auto.
  + intros [] program1 _. apply bind_ends.
    * destruct otherwise; [apply IHo|discriminate].
    * intros [] program2 _. destruct st; discriminate.
- apply bind_ends; [|intros; apply IHbody]. destruct st; discriminate.
- apply bind_ends; [|intros; apply IHmain].
  destruct main; try discriminate. destruct statement; discriminate.
- discriminate.
- discriminate.
- apply forEach_ends.
  eapply Forall_impl;
    [apply (splitArray_Forall
              (fun child : FlowNode * State (list (option ExecutionNode)) unit =>
                 forall program, ends (snd child program)))|].
  + clear -IHnodes. induction IHnodes; constructor; assumption.
  + intros chunk Hchunk program1.
    destruct chunk as [|[child emitChild] [|second rest]].
    * discriminate.
    * apply Forall_cons_1 in Hchunk as [Hchild _]. simpl in Hchild.
      destruct (negb (isIfSwitchLoop child) || negb (mergable child));
        [apply Hchild|apply emitJITNode_ends].
    * apply emitJITNode_ends.
Qed.
End EmitEnds.

Lemma flowAnalyzePass_ends program : ends (flowAnalyzePass program).
Proof.
  unfold flowAnalyzePass. pose proof (root_lowered program) as H.
  destruct (lowerRoot program _) as [[root st]|e|]; [|discriminate|contradiction].
  pose proof (labelingFlowNode_labels root (mkLabelling [] ∅)) as Hl.
  destruct (labelingFlowNode root _) as [[[] lst]|e|];
    [discriminate|discriminate|contradiction].
Qed.

(** Compilation ends: it returns a program or throws. *)
Lemma compile_ends script getBuiltIn :
  (forall key, ends (getBuiltIn key)) -> ends (compile script getBuiltIn).
Proof.
  intros Hg. unfold compile. apply bindR_ends; [apply flowAnalyzePass_ends|].
  intros [root ids] _. simpl. unfold nodeGenPass. destruct root; try discriminate.
  apply bindR_ends; [|discriminate]. now apply emitNode_ends.
Qed.

Lemma getBuiltInFunction_ends builtIns key : ends (getBuiltInFunction builtIns key).
Proof. unfold getBuiltInFunction. destruct (builtIns !! key); discriminate. Qed.

Lemma not_OK_throws {A : Type} (r : Result A) :
  ends r -> (forall a, r <> OK a) -> exists e, r = Throw e.
Proof.
  destruct r as [a|e|]; [intros _ H; now destruct (H a)|eauto|intros H; now destruct H].
Qed.

(** ** nodeGenPass: a loop with an initializer that calls a global function *)

Lemma mapR_OK_each {A B : Type} (f : A -> Result B) l ys x :
  mapR f l = OK ys -> x ∈ l -> exists y, f x = OK y.
Proof.
  intros H Hx. apply mapR_OK in H. revert Hx.
  induction H as [|x0 y0 l0 ys0 Hy _ IH]; intros Hx.
  - now apply elem_of_nil in Hx.
  - apply elem_of_cons in Hx as [->|Hx]; eauto.
Qed.

Section JitFailsLists.
Variable f : Statement -> oid -> Lower FlowNode.

Lemma lowerStatements_jitFails statements :
Forall (statementJitFails f) statements ->
forall successor st nodes last st',
  lowerStatements f statements successor st = OK ((nodes, last), st') ->
  existsb callsAnyGlobal statements = true ->
  forall ids getBuiltIn entry codes,
    mapR (emitJITCode ids getBuiltIn entry) nodes <> OK codes.
Proof.
induction 1 as [|statement rest Hs _ IH];
  intros successor st nodes last st'; simpl.
- discriminate.
- intros H. apply bind_OK in H as ([nodes1 last1] & st1 & H1 & H).
  apply bind_OK in H as (node & st2 & H2 & H). injection H as <- <- <-.
  intros E ids getBuiltIn entry codes Hc. simpl in Hc.
  apply bindR_OK in Hc as (code & Hcode & Hc).
  apply bindR_OK in Hc as (codes1 & Hcodes & _).
  apply orb_true_iff in E as [E|E].
  + exact (Hs _ _ _ _ H2 E _ _ _ _ Hcode).
  + exact (IH _ _ _ _ _ H1 E _ _ _ _ Hcodes).
Qed.

Lemma toBlockFlowNode_jitFails statements :
Forall (statementJitFails f) statements ->
forall successor st block st',
  toBlockFlowNode f statements successor st = OK (block, st') ->
  existsb callsAnyGlobal statements = true ->
  forall ids getBuiltIn entry code,
    emitJITCode ids getBuiltIn entry block <> OK code.
Proof.
intros Hs successor st block st' H E ids getBuiltIn entry code.
unfold toBlockFlowNode in H.
apply bind_OK in H as ([nodes last] & st1 & H1 & H).
unfold bind, alloc, ret in H. simpl in H. injection H as <- <-. simpl.
intros Hc. apply bindR_OK in Hc as (codes & Hcodes & _).
exact (lowerStatements_jitFails _ Hs _ _ _ _ _ H1 E _ _ _ _ Hcodes).
Qed.

Lemma lowerIfBranches_jitFails branches :
Forall (fun branch => Forall (statementJitFails f) (snd branch)) branches ->
forall successor st flowBranches st',
  lowerIfBranches f branches successor st = OK (flowBranches, st') ->
  existsb (fun branch => existsb callsAnyGlobal (snd branch)) branches = true ->
  forall ids getBuiltIn entry codes,
    mapR (fun branch =>
            code <~ emitJITCode ids getBuiltIn entry (snd branch) ;;
            OK (emitJITExpression (fst branch), code)) flowBranches
    <> OK codes.
Proof.
induction 1 as [|[condition body] rest Hs _ IH];
  intros successor st flowBranches st'; simpl.
- discriminate.
- intros H. apply bind_OK in H as (node & st1 & H1 & H).
  apply bind_OK in H as (flowRest & st2 & H2 & H). injection H as <- <-.
  intros E ids getBuiltIn entry codes Hc. simpl in Hc.
  apply bindR_OK in Hc as (code & Hcode & Hc).
  apply bindR_OK in Hcode as (code1 & Hcode1 & _).
  apply bindR_OK in Hc as (codes1 & Hcodes & _).
  apply orb_true_iff in E as [E|E].
  + exact (toBlockFlowNode_jitFails _ Hs _ _ _ _ H1 E _ _ _ _ Hcode1).
  + exact (IH _ _ _ _ H2 E _ _ _ _ Hcodes).
Qed.

Lemma lowerSwitchBranches_jitFails branches :
Forall (fun branch => Forall (statementJitFails f) (snd branch)) branches ->
forall last0 st flowBranches last st',
  lowerSwitchBranches f branches last0 st = OK ((flowBranches, last), st') ->
  existsb (fun branch => existsb callsAnyGlobal (snd branch)) branches = true ->
  forall ids getBuiltIn entry codes,
    mapR (fun branch =>
            code <~ emitJITCode ids getBuiltIn entry (snd branch) ;;
            OK (emitJITExpression (fst branch), code)) flowBranches
    <> OK codes.
Proof.
induction 1 as [|[condition body] rest Hs _ IH];
  intros last0 st flowBranches last st'; simpl.
- discriminate.
- intros H. apply bind_OK in H as ([flowRest last1] & st1 & H1 & H).
  apply bind_OK in H as (chained & st2 & H2 & H).
  apply bind_OK in H as (node & st3 & H3 & H). injection H as <- <- <-.
  intros E ids getBuiltIn entry codes Hc. simpl in Hc.
  apply bindR_OK in Hc as (code & Hcode & Hc).
  apply bindR_OK in Hcode as (code1 & Hcode1 & _).
  apply bindR_OK in Hc as (codes1 & Hcodes & _).
  apply orb_true_iff in E as [E|E].
  + exact (toBlockFlowNode_jitFails _ Hs _ _ _ _ H3 E _ _ _ _ Hcode1).
  + exact (IH _ _ _ _ _ H1 E _ _ _ _ Hcodes).
Qed.

Lemma lowerOtherwise_jitFails otherwise :
match otherwise with
| Some block => Forall (statementJitFails f) block
| None => True
end ->
forall successor st flowOtherwise st',
  lowerOtherwise f otherwise successor st = OK (flowOtherwise, st') ->
  match otherwise with
  | Some block => existsb callsAnyGlobal block
  | None => false
  end = true ->
  forall ids getBuiltIn entry code,
    match flowOtherwise with
    | Some block =>
        code <~ emitJITCode ids getBuiltIn entry block ;; OK (Some code)
    | None => OK None
    end <> OK code.
Proof.
destruct otherwise as [block|]; simpl; [|discriminate].
intros Hs successor st flowOtherwise st' H E ids getBuiltIn entry code.
apply bind_OK in H as (node & st1 & H1 & H). injection H as <- <-.
intros Hc. apply bindR_OK in Hc as (code1 & Hcode1 & _).
exact (toBlockFlowNode_jitFails _ Hs _ _ _ _ H1 E _ _ _ _ Hcode1).
Qed.
End JitFailsLists.

Lemma toFlowNode_jitFails statement : statementJitFails toFlowNode statement.
Proof.
  induction statement
    as [expression async | functionName parameters builtIn async | value
       | branches otherwise [IHb IHo] | pattern branches otherwise [IHb IHo]
       | skip initializer condition iterator label body IHbody
       | label | | | type]
    using Statement_nested_ind; intros successor st node st'; try discriminate.
  - simpl. unfold bind, alloc. simpl.
    destruct builtIn; unfold ret; intros [= <- <-]; discriminate.
  - intros H E ids getBuiltIn entry code. simpl in H.
    apply bind_OK in H as (flowBranches & st1 & H1 & H).
    apply bind_OK in H as (flowOtherwise & st2 & H2 & H).
    unfold bind, alloc, ret in H. simpl in H. injection H as <- <-. simpl.
    intros Hc. apply bindR_OK in Hc as (branchList & Hbranches & Hc).
    apply bindR_OK in Hc as (otherwiseCode & Hotherwise & _).
    simpl in E. apply orb_true_iff in E as [E|E].
    + exact (lowerIfBranches_jitFails _ _ IHb _ _ _ _ H1 E _ _ _ _ Hbranches).
    + exact (lowerOtherwise_jitFails _ _ IHo _ _ _ _ H2 E _ _ _ _ Hotherwise).
  - intros H E ids getBuiltIn entry code. simpl in H.
    apply bind_OK in H as (flowOtherwise & st1 & H1 & H).
    apply bind_OK in H as ([flowBranches last] & st2 & H2 & H).
    unfold bind, alloc, ret in H. simpl in H. injection H as <- <-. simpl.
    intros Hc. apply bindR_OK in Hc as (branchList & Hbranches & Hc).
    apply bindR_OK in Hc as (otherwiseCode & Hotherwise & _).
    simpl in E. apply orb_true_iff in E as [E|E].
    + exact (lowerSwitchBranches_jitFails _ _ IHb _ _ _ _ _ H2 E _ _ _ _ Hbranches).
    + exact (lowerOtherwise_jitFails _ _ IHo _ _ _ _ H1 E _ _ _ _ Hotherwise).
  - intros H E ids getBuiltIn entry code.
    apply toFlowNode_loop_inv in H as (flowBody & st3 & Hb & _ & ->).
    pose proof (toBlockFlowNode_jitFails _ _ IHbody _ _ _ _ Hb E ids getBuiltIn entry)
      as Hbody.
    simpl in E.
    destruct initializer as [e|]; [|destruct skip]; simpl;
      try (exact (Hbody code));
      intros Hc; apply bindR_OK in Hc as (bodyCode & Hcode & _);
      exact (Hbody _ Hcode).
Qed.

Lemma lowerStatements_app f xs ys successor st nodes last st' :
  lowerStatements f (xs ++ ys) successor st = OK ((nodes, last), st') ->
  exists nodesY lastY st1 nodesX,
    lowerStatements f ys successor st = OK ((nodesY, lastY), st1)
    /\ lowerStatements f xs lastY st1 = OK ((nodesX, last), st')
    /\ nodes = nodesX ++ nodesY.
Proof.
  revert nodes last st'. induction xs as [|x rest IH]; intros nodes last st'; simpl.
  - intros H. exists nodes, last, st', []. auto.
  - intros H. apply bind_OK in H as ([nodes1 last1] & st1 & H1 & H).
    apply bind_OK in H as (node & st2 & H2 & H). injection H as <- <- <-.
    destruct (IH _ _ _ H1) as (nodesY & lastY & st0 & nodesX & HY & HX & ->).
    exists nodesY, lastY, st0, (node :: nodesX). split; [exact HY|].
    split; [|reflexivity]. unfold bind. rewrite HX. simpl. unfold bind.
    now rewrite H2.
Qed.

Lemma lowerStatements_one f statement successor st nodes last st' :
  lowerStatements f [statement] successor st = OK ((nodes, last), st') ->
  exists node,
    f statement successor st = OK (node, st') /\ nodes = [node] /\ last = self node.
Proof.
  simpl. unfold bind, ret.
  destruct (f statement successor st) as [[node st1]|e|]; try discriminate.
  intros [= <- <- <-]. eauto.
Qed.

Lemma emitNode_block ids getBuiltIn s nodes n m :
  emitNode ids getBuiltIn (BlockFlowNode s nodes n m)
  = forEach (emitChunk ids getBuiltIn)
      (splitArray (map (fun child => (child, emitNode ids getBuiltIn child)) nodes)
         (fun child => negb (mergable (fst child)))).
Proof. reflexivity. Qed.

Lemma emitChunk_many ids getBuiltIn chunk a b :
  emitChunk ids getBuiltIn (chunk ++ [a; b])
  = emitJITNode ids getBuiltIn (map fst chunk ++ [fst a; fst b]).
Proof.
  destruct a as [a1 a2], b as [b1 b2].
  destruct chunk as [|[first1 first2] [|second others]]; try reflexivity.
  unfold emitChunk. now rewrite map_app.
Qed.

Lemma splitArray_two_more {T : Type} (predictor : T -> bool) xs a b :
  predictor a = false -> predictor b = false ->
  exists init chunk,
    splitArray (xs ++ [a; b]) predictor = init ++ [chunk ++ [a; b]].
Proof.
  intros Ha Hb.
  destruct (exists_last (splitArray_not_empty predictor xs)) as (init & chunk & E).
  exists init, chunk. unfold splitArray in *. rewrite fold_left_app, E. simpl.
  rewrite Ha, removelast_last, last_last, Hb, removelast_last, last_last.
  now rewrite <- app_assoc.
Qed.

(** X13. A program that ends in a loop with an initializer whose body holds
    a call of a global function does not compile: the node of the loop is
    marked mergable whatever its body holds, it is fused with the implicit
    Return of the root, and no code can be emitted for the call. *)
Theorem compile_initializer_loop_with_call
    builtIns before skip initializer condition iterator label body :
  existsb callsAnyGlobal body = true ->
  exists e,
    compileScript builtIns
      (before ++ [LoopStatement skip (Some initializer) condition iterator label body])
    = Throw e.
Proof.
  intros Hcalls. apply not_OK_throws.
  { apply compile_ends. apply getBuiltInFunction_ends. }
  intros program Hcompile. unfold compileScript, compile in Hcompile.
  apply bindR_OK in Hcompile as ([root ids] & Hflow & Hgen). simpl in Hgen.
  destruct (flowAnalyzePass_inv _ _ _ Hflow) as (st & lst & Elower & _ & _).
  unfold lowerRoot in Elower. unfold bind at 1 in Elower.
  unfold alloc at 1 in Elower. simpl in Elower.
  apply bind_OK in Elower as (block & st1 & Hb & Hr). injection Hr as <- <-.
  unfold toBlockFlowNode in Hb.
  apply bind_OK in Hb as ([nodes last] & st2 & Hn & Hb).
  unfold bind, alloc, ret in Hb. simpl in Hb. injection Hb as <- <-.
  apply lowerStatements_app in Hn
    as (nodesY & lastY & st3 & nodesX & HY & _ & ->).
  apply lowerStatements_one in HY as (loop & Hloop & -> & ->).
  pose proof (toFlowNode_jitFails _ _ _ _ _ Hloop Hcalls) as Hfails.
  apply toFlowNode_loop_inv in Hloop as (flowBody & st5 & _ & _ & Eloop).
  unfold pushNode, nodeGenPass in Hgen.
  apply bindR_OK in Hgen as ([[] program1] & Hemit & _).
  rewrite emitNode_block, <- app_assoc, map_app in Hemit.
  destruct (splitArray_two_more
              (fun child : FlowNode * State (list (option ExecutionNode)) unit =>
                 negb (mergable (fst child)))
              (map (fun child => (child, emitNode ids (getBuiltInFunction builtIns) child))
                 nodesX)
              (loop, emitNode ids (getBuiltInFunction builtIns) loop)
              (ReturnFlowNode 0%nat (ReturnStatement None) true,
               emitNode ids (getBuiltInFunction builtIns)
                 (ReturnFlowNode 0%nat (ReturnStatement None) true)))
    as (init & chunk & Esplit).
  { subst loop. reflexivity. }
  { reflexivity. }
  change (map (fun child => (child, emitNode ids (getBuiltInFunction builtIns) child))
            ([loop] ++ [ReturnFlowNode 0%nat (ReturnStatement None) true]))
    with [(loop, emitNode ids (getBuiltInFunction builtIns) loop);
          (ReturnFlowNode 0%nat (ReturnStatement None) true,
           emitNode ids (getBuiltInFunction builtIns)
             (ReturnFlowNode 0%nat (ReturnStatement None) true))] in Hemit.
  rewrite Esplit in Hemit. apply forEach_OK in Hemit.
  apply Forall_app in Hemit as [_ Hlast].
  apply Forall_cons_1 in Hlast as [(program2 & program3 & Hjit) _].
  rewrite emitChunk_many in Hjit. simpl fst in Hjit. unfold emitJITNode in Hjit.
  destruct (map fst chunk ++ [loop; ReturnFlowNode 0%nat (ReturnStatement None) true])
    as [|entry others] eqn:Enodes; [discriminate|].
  apply bindR_OK in Hjit as (code & Hcode & _).
  destruct (mapR_OK_each _ _ _ loop Hcode) as (loopCode & Hloop).
  { rewrite <- Enodes. apply elem_of_app. right. apply list_elem_of_here. }
  exact (Hfails _ _ _ _ Hloop).
Qed.

Lemma compile_initializer_loop_with_call_witness :
  exists e,
    compileScript ∅
      ([] ++ [LoopStatement false (Some (assign "i" (fun _ => 0)))
                (Some (test (fun _ => false))) None None [callGlobal "g"]])
    = Throw e.
Proof.
  apply compile_initializer_loop_with_call. reflexivity.
Defined.

(** ** Straight-line programs, from compile to exec *)

Lemma toFlowNode_simple statement successor st node st' :
  simple statement = true ->
  toFlowNode statement successor st = OK (node, st') ->
  leafOf statement node.
Proof.
  destruct statement as [e a| | [[l|e]|] | | | | | | |]; try discriminate;
    intros _; simpl; unfold bind, alloc, ret; simpl; intros [= <- <-];
    repeat split.
Qed.

Lemma lowerStatements_simple statements :
  forallb simple statements = true ->
  forall successor st nodes last st',
    lowerStatements toFlowNode statements successor st = OK ((nodes, last), st') ->
    Forall2 leafOf statements nodes.
Proof.
  induction statements as [|statement rest IH]; intros Hs successor st nodes last st';
    simpl.
  - intros [= <- <- <-]. constructor.
  - simpl in Hs. apply andb_true_iff in Hs as [Hs1 Hs2].
    intros H. apply bind_OK in H as ([nodes1 last1] & st1 & H1 & H).
    apply bind_OK in H as (node & st2 & H2 & H). injection H as <- <- <-.
    constructor; [exact (toFlowNode_simple _ _ _ _ _ Hs1 H2)|].
    exact (IH Hs2 _ _ _ _ _ H1).
Qed.

Lemma leaves_code statements nodes ids getBuiltIn entry :
  Forall2 leafOf statements nodes ->
  mapR (emitJITCode ids getBuiltIn entry) nodes = OK (map codeOf statements).
Proof.
  induction 1 as [|statement node rest nodes' (_ & _ & _ & Hcode) _ IH]; simpl;
    [reflexivity|].
  now rewrite Hcode, IH.
Qed.

Lemma mapR_app {A B : Type} (f : A -> Result B) xs ys xs' ys' :
  mapR f xs = OK xs' -> mapR f ys = OK ys' -> mapR f (xs ++ ys) = OK (xs' ++ ys').
Proof.
  revert xs'. induction xs as [|x rest IH]; intros xs'; simpl.
  - now intros [= <-].
  - intros H Hy. apply bindR_OK in H as (y & Ey & H).
    apply bindR_OK in H as (rest' & Erest & H). injection H as <-.
    rewrite Ey. simpl. now rewrite (IH _ Erest Hy).
Qed.

(** The text of an expression that splices as it is written, in the code
    of a fused step. *)
Lemma spliced_expression_runs e fuel scope :
  splicesAsWritten e ->
  evalStmt (S fuel) (JsExpression (emitJITExpression e)) scope
  = OK (JsNormal, snd (e scope)).
Proof. intros [_ H]. cbn [evalStmt]. now rewrite H. Qed.

Lemma spliced_return_runs e fuel scope :
  splicesAsWritten e ->
  evalStmt (S fuel) (JsReturn (JsReturnValue (emitJITExpression e))) scope
  = OK (JsReturned (Return (fst (e scope))), snd (e scope)).
Proof. intros [_ H]. cbn [evalStmt]. now rewrite H. Qed.

Lemma simple_code_checks statements :
  forallb simple statements = true ->
  Forall splicesAsWritten (flat_map expressionsOf statements) ->
  exists checked,
    mapR (checkSyntax false false) (map codeOf statements) = OK checked.
Proof.
  induction statements as [|statement rest IH]; intros Hs Hw; simpl.
  - now exists [].
  - simpl in Hs. apply andb_true_iff in Hs as [Hs1 Hs2].
    cbn [flat_map] in Hw. apply Forall_app in Hw as [Hw1 Hw2].
    destruct (IH Hs2 Hw2) as (checked & ->).
    destruct statement as [e a| | [[l|e]|] | | | | | | |]; try discriminate;
      cbn [codeOf checkSyntax];
      try (apply Forall_cons_1 in Hw1 as [[-> _] _]); simpl; eauto.
Qed.

Lemma simple_well_scoped statements :
  forallb simple statements = true ->
  existsb (illScoped ∅ false) statements = false
  /\ existsb hasEmptyBlock statements = false.
Proof.
  induction statements as [|statement rest IH]; intros Hs; simpl; [auto|].
  simpl in Hs. apply andb_true_iff in Hs as [Hs1 Hs2].
  destruct (IH Hs2) as [-> ->].
  destruct statement as [e a| | [[l|e]|] | | | | | | |]; try discriminate; auto.
Qed.

(** The emitted code of simple statements does what the statements say. *)
Lemma straight_code_runs fuel statements tail scope :
  forallb simple statements = true ->
  Forall splicesAsWritten (flat_map expressionsOf statements) ->
  (forall scope1,
      evalStatements (evalStmt (S fuel)) tail scope1
      = OK (JsReturned (Return VUndefined), scope1)) ->
  evalStatements (evalStmt (S fuel)) (map codeOf statements ++ tail) scope
  = OK (JsReturned (opOf (fst (straightLine statements scope))),
        snd (straightLine statements scope)).
Proof.
  intros Hs Hw Htail. revert scope.
  induction statements as [|statement rest IH]; intros scope.
  - simpl. apply Htail.
  - simpl in Hs. apply andb_true_iff in Hs as [Hs1 Hs2].
    cbn [flat_map] in Hw. apply Forall_app in Hw as [Hw1 Hw2].
    specialize (IH Hs2 Hw2).
    destruct statement as [e a| | [[l|e]|] | | | | | | |]; try discriminate;
      cbn [map app codeOf evalStatements straightLine].
    + apply Forall_cons_1 in Hw1 as [He _].
      rewrite (spliced_expression_runs _ _ _ He). simpl bindR. apply IH.
    + apply Forall_cons_1 in Hw1 as [He _].
      now rewrite (spliced_return_runs _ _ _ He).
    + reflexivity.
    + reflexivity.
Qed.

Lemma splitArray_unsplit {T : Type} (predictor : T -> bool) array :
  Forall (fun item => predictor item = false) array ->
  splitArray array predictor = [array].
Proof.
  induction 1 as [|item rest Hitem _ IH]; [reflexivity|].
  now rewrite splitArray_cons, Hitem, IH.
Qed.

(** [nodeMap[id] = node], then [nodeMap[id]]. *)
Lemma setNode_lookup id step (program : list (option ExecutionNode)) :
  0 <= id ->
  setNode id step program !! Z.to_nat id = Some (Some step)
  /\ (Z.to_nat id < length (setNode id step program))%nat.
Proof.
  intros Hid. unfold setNode.
  destruct (id <? 0) eqn:Eneg; [apply Z.ltb_lt in Eneg; lia|].
  destruct (Z.to_nat id <? length program)%nat eqn:Elt.
  - apply Nat.ltb_lt in Elt. rewrite length_insert. split; [|exact Elt].
    now apply list_lookup_insert_eq.
  - apply Nat.ltb_ge in Elt. rewrite !length_app, length_replicate. simpl.
    split; [|lia]. rewrite lookup_app_r by lia.
    rewrite lookup_app_r; rewrite length_replicate; [|lia].
    replace (Z.to_nat id - length program - (Z.to_nat id - length program))%nat
      with 0%nat by lia.
    reflexivity.
Qed.

Lemma execNode_setNode id step program fuel scope :
  0 <= id -> execNode (setNode id step program) id fuel scope = step fuel scope.
Proof.
  intros Hid. destruct (setNode_lookup id step program Hid) as [Hlookup Hlen].
  unfold execNode.
  destruct (id >=? _) eqn:Ege.
  { rewrite Z.geb_leb in Ege. apply Z.leb_le in Ege. lia. }
  destruct (id <? 0) eqn:Eneg; [apply Z.ltb_lt in Eneg; lia|].
  match goal with
  | |- match ?found with _ => _ end = _ =>
      replace found with (Some (Some step)) by (symmetry; exact Hlookup)
  end.
  reflexivity.
Qed.

Lemma leaves_unsplit statements nodes (emit : FlowNode -> State (list (option ExecutionNode)) unit) :
  Forall2 leafOf statements nodes ->
  splitArray (map (fun child => (child, emit child)) nodes)
    (fun child => negb (mergable (fst child)))
  = [map (fun child => (child, emit child)) nodes].
Proof.
  intros H. apply splitArray_unsplit.
  induction H as [|s n ss ns (Hm & _) _ IH]; simpl; constructor; [|exact IH].
  simpl. now rewrite Hm.
Qed.

Lemma emitChunk_fused ids getBuiltIn (emit : FlowNode -> State (list (option ExecutionNode)) unit)
    first second others :
  emitChunk ids getBuiltIn
    (map (fun child => (child, emit child)) (first :: second :: others))
  = emitJITNode ids getBuiltIn (first :: second :: others).
Proof.
  simpl. f_equal. f_equal. f_equal. rewrite map_map. simpl. apply map_id.
Qed.

Lemma emitJITNode_cons ids getBuiltIn entry rest program :
  emitJITNode ids getBuiltIn (entry :: rest) program
  = (code <~ mapR (emitJITCode ids getBuiltIn (idOf ids (self entry)))
               (entry :: rest) ;;
     _ <~ mapR (checkSyntax false false) code ;;
     OK (tt, setNode (idOf ids (self entry)) (jitFunction code) program)).
Proof. reflexivity. Qed.

(** What [compile] makes of a straight-line program: one fused step at
    index 0, the code of the statements followed by that of the implicit
    Return. *)
Lemma compile_straight statements getBuiltIn :
  forallb simple statements = true ->
  Forall splicesAsWritten (flat_map expressionsOf statements) ->
  statements <> [] ->
  exists program,
    compile statements getBuiltIn = OK program
    /\ forall fuel scope,
         execNode program 0 fuel scope
         = jitFunction (map codeOf statements
                        ++ [JsReturn (JsReturnValue (JsText "undefined"))])
             fuel scope.
Proof.
  intros Hs Hw Hne. unfold compile.
  destruct (simple_well_scoped _ Hs) as [Hscoped Hfull].
  pose proof (flowAnalyzePass_cases statements) as Hflow.
  destruct (flowAnalyzePass statements) as [[root ids]|e|] eqn:Eflow;
    [clear Hflow|destruct Hflow; congruence|contradiction].
  destruct (flowAnalyzePass_inv _ _ _ Eflow) as (st & lst & Elower & _ & _).
  unfold lowerRoot in Elower. unfold bind at 1 in Elower.
  unfold alloc at 1 in Elower. simpl in Elower.
  apply bind_OK in Elower as (block & st1 & Hb & Hr). injection Hr as Hroot _.
  unfold toBlockFlowNode in Hb.
  apply bind_OK in Hb as ([nodes last] & st2 & Hn & Hb).
  unfold bind, alloc, ret in Hb. simpl in Hb. injection Hb as <- <-.
  unfold pushNode in Hroot.
  pose proof (lowerStatements_simple _ Hs _ _ _ _ _ Hn) as Hleaves.
  assert (Hret : leafOf (ReturnStatement None)
                   (ReturnFlowNode 0%nat (ReturnStatement None) true)).
  { repeat split. }
  assert (Hall : Forall2 leafOf (statements ++ [ReturnStatement None])
                   (nodes ++ [ReturnFlowNode 0%nat (ReturnStatement None) true])).
  { apply Forall2_app; [exact Hleaves|]. constructor; [exact Hret|constructor]. }
  destruct nodes as [|first others].
  { apply Forall2_nil_inv_r in Hleaves. contradiction. }
  assert (Hfirst : idOf ids (self first) = 0).
  { apply (flowAnalyzePass_numbered _ _ _ 0%nat _ Eflow). subst root. simpl.
    inversion Hleaves as [|s0 n0 ss ns (_ & Hb0 & Hn0 & _) _]; subst.
    rewrite Hn0. unfold numbered. simpl. now rewrite Hb0. }
  simpl. subst root. unfold nodeGenPass. rewrite emitNode_block.
  rewrite (leaves_unsplit _ _ (emitNode ids getBuiltIn) Hall).
  destruct (simple_code_checks (statements ++ [ReturnStatement None]))
    as (checked & Hchecked).
  { rewrite forallb_app, Hs. reflexivity. }
  { rewrite flat_map_app. apply Forall_app. split; [exact Hw|constructor]. }
  pose proof (leaves_code _ _ ids getBuiltIn (idOf ids (self first)) Hall) as Hcode.
  assert (Hemit : forall program0,
    emitChunk ids getBuiltIn
      (map (fun child => (child, emitNode ids getBuiltIn child))
         ((first :: others) ++ [ReturnFlowNode 0%nat (ReturnStatement None) true]))
      program0
    = OK (tt, setNode 0
                (jitFunction (map codeOf (statements ++ [ReturnStatement None])))
                program0)).
  { intros program0.
    change ((first :: others) ++ [ReturnFlowNode 0%nat (ReturnStatement None) true])
      with (first :: (others ++ [ReturnFlowNode 0%nat (ReturnStatement None) true]))
      in Hcode |- *.
    destruct (others ++ [ReturnFlowNode 0%nat (ReturnStatement None) true])
      as [|second others'] eqn:Eothers.
    { now destruct others. }
    rewrite emitChunk_fused, emitJITNode_cons, Hcode. simpl bindR at 1.
    rewrite Hchecked. simpl. now rewrite Hfirst. }
  simpl forEach. unfold bind. rewrite Hemit. simpl.
  eexists. split; [reflexivity|].
  intros fuel scope. rewrite execNode_setNode by lia.
  now rewrite map_app.
Qed.

(** A frame whose step gives Return or Exit ends its run. *)
Lemma run_ends_frame interpreter fuel ctx this rest r scope :
  callStack ctx = this :: rest ->
  0 <= current this ->
  execNode (executable this) (current this) (S fuel) (scopeOf this ctx)
  = OK (Some (opOf r), scope) ->
  exists this',
    run interpreter (S (S fuel)) ctx
    = OK (r, mkContext (env scope) (this' :: rest) (snapshots (snapshot ctx))).
Proof.
  intros Hstack Hpc Hexec.
  assert (Hgeb : (current this >=? 0) = true) by (rewrite Z.geb_leb; lia).
  change (run interpreter (S (S fuel)) ctx) with
    (match callStack ctx with
     | [] => Throw (TypeError "no iterator")
     | this :: _ =>
         if current this >=? 0 then
           ctx' <~ next interpreter (run interpreter (S fuel)) (S fuel) ctx ;;
           run interpreter (S fuel) ctx'
         else if current this =? -1 then OK (Resolved (returnValue this), ctx)
         else if current this =? -2 then OK (EXIT_SIGNAL, ctx)
         else OK (Resolved VUndefined, ctx)
     end).
  rewrite Hstack, Hgeb. unfold next. simpl callStack. rewrite Hstack.
  unfold scopeOf in Hexec. rewrite Hexec.
  destruct r as [v|]; simpl; eauto.
Qed.

(** X14. A program of expression statements, Returns of nothing or of a
    computed value, and Exits is compiled into one step (a fused one when
    the program has a statement at all), and [exec] does what the
    statements say: the expressions are evaluated in order,
    each in the scope the one before left, up to the first Return or Exit;
    [exec] resolves to the returned value, to [undefined] when the program
    runs off its end, or to the exit sentinel, and the environment is the
    one the expressions left.  This is so for expressions that splice as
    they are written: arrow functions over [({ local, args, env })] whose
    body is one expression that names nothing else; the text of any other
    expression is not what the fused step needs. *)
Theorem exec_straight_line interpreter statements fuel args env0 :
  forallb simple statements = true ->
  Forall splicesAsWritten (flat_map expressionsOf statements) ->
  exec interpreter (S (S fuel)) statements args env0
  = OK (fst (straightLine statements (mkScope args ∅ env0)),
        mkContext (env (snd (straightLine statements (mkScope args ∅ env0))))
          [] [[0]]).
Proof.
  intros Hs Hw. destruct statements as [|statement rest]; [reflexivity|].
  destruct (compile_straight (statement :: rest)
              (getBuiltInFunction (builtInFunctionMap interpreter)) Hs Hw)
    as (program & Hcompile & Hstep); [discriminate|].
  unfold exec, compileScript. rewrite Hcompile. simpl bindR.
  unfold execExecutable, call.
  destruct (run_ends_frame interpreter fuel
              (mkContext env0 [mkIterator program args ∅ 0 VUndefined] [])
              (mkIterator program args ∅ 0 VUndefined) []
              (fst (straightLine (statement :: rest) (mkScope args ∅ env0)))
              (snd (straightLine (statement :: rest) (mkScope args ∅ env0))))
    as (this' & Hrun).
  - reflexivity.
  - simpl. lia.
  - simpl executable. simpl current. rewrite Hstep. unfold jitFunction, scopeOf.
    simpl parameters. simpl context. simpl contextEnv.
    rewrite (straight_code_runs fuel (statement :: rest));
      [reflexivity|exact Hs|exact Hw|].
    intros scope1. reflexivity.
  - simpl contextEnv. simpl callStack. simpl snapshots. rewrite Hrun. reflexivity.
Qed.

Lemma exec_straight_line_witness :
  exec handInterpreter 2
    [ExpressionStatement (assign "k" (fun _ => 4)) false;
     ReturnStatement (Some (Fun (read "k")));
     ExitStatement] ∅ ∅
  = OK (Resolved (VNum 4), mkContext ∅ [] [[0]]).
Proof.
  apply (exec_straight_line handInterpreter
           [ExpressionStatement (assign "k" (fun _ => 4)) false;
            ReturnStatement (Some (Fun (read "k")));
            ExitStatement] 0 ∅ ∅).
  - reflexivity.
  - repeat constructor.
Defined.

(** ** A fused step that is not the end of the program *)

Lemma leaves_nodes statements nodes :
  Forall2 leafOf statements nodes ->
  flat_map nodesOf nodes = nodes /\ numbered nodes = nodes.
Proof.
  induction 1 as [|s n ss ns (_ & Hb & Hn & _) _ [IH1 IH2]]; [split; reflexivity|].
  split.
  - simpl. now rewrite Hn, IH1.
  - unfold numbered in *. simpl. now rewrite Hb, IH2.
Qed.

Lemma splitArray_prefix {T : Type} (predictor : T -> bool) xs y rest :
  Forall (fun item => predictor item = false) xs -> predictor y = true ->
  splitArray (xs ++ y :: rest) predictor = xs :: [y] :: splitArray rest predictor.
Proof.
  intros Hxs Hy. induction Hxs as [|x xs' Hx _ IH]; simpl.
  - now rewrite splitArray_cons, Hy.
  - now rewrite splitArray_cons, Hx, IH.
Qed.

Lemma setNode_lookup_other id id' step (program : list (option ExecutionNode)) :
  id <> id' -> 0 <= id -> (Z.to_nat id < length program)%nat ->
  setNode id' step program !! Z.to_nat id = program !! Z.to_nat id
  /\ (Z.to_nat id < length (setNode id' step program))%nat.
Proof.
  intros Hne Hid Hlen. unfold setNode.
  destruct (id' <? 0) eqn:Eneg; [now split|]. apply Z.ltb_ge in Eneg.
  destruct (Z.to_nat id' <? length program)%nat eqn:Elt.
  - rewrite length_insert. split; [|exact Hlen].
    apply list_lookup_insert_ne. intros E. apply Hne. apply Z2Nat.inj in E; lia.
  - rewrite !length_app, length_replicate. simpl. split; [|lia].
    now apply lookup_app_l.
Qed.

Lemma execNode_setNode_other id id' step program fuel scope :
  id <> id' -> 0 <= id -> (Z.to_nat id < length program)%nat ->
  execNode (setNode id' step program) id fuel scope = execNode program id fuel scope
  /\ (Z.to_nat id < length (setNode id' step program))%nat.
Proof.
  intros Hne Hid Hlen.
  destruct (setNode_lookup_other id id' step program Hne Hid Hlen) as [Hlookup Hlen'].
  split; [|exact Hlen']. unfold execNode.
  assert (Hge : forall l : list (option ExecutionNode),
            (Z.to_nat id < length l)%nat -> (id >=? Z.of_nat (length l)) = false).
  { intros l Hl. rewrite Z.geb_leb. apply Z.leb_gt. lia. }
  rewrite (Hge _ Hlen), (Hge _ Hlen').
  destruct (id <? 0); [reflexivity|].
  assert (Hmatch : forall a b : option (option ExecutionNode), a = b ->
            match a with
            | Some (Some node) => node fuel scope
            | _ => Throw (TypeError "this.program[id] is not a function")
            end
            = match b with
              | Some (Some node) => node fuel scope
              | _ => Throw (TypeError "this.program[id] is not a function")
              end).
  { now intros a b ->. }
  apply Hmatch. exact Hlookup.
Qed.

Lemma expressions_simple statements :
  forallb isExpressionStatement statements = true ->
  forallb simple statements = true.
Proof.
  induction statements as [|statement rest IH]; [reflexivity|]. simpl.
  intros H. apply andb_true_iff in H as [H1 H2]. rewrite (IH H2).
  now destruct statement.
Qed.

(** The code of expression statements completes normally. *)
Lemma expressions_code_runs fuel statements scope :
  forallb isExpressionStatement statements = true ->
  Forall splicesAsWritten (flat_map expressionsOf statements) ->
  evalStatements (evalStmt (S fuel)) (map codeOf statements) scope
  = OK (JsNormal, snd (straightLine statements scope)).
Proof.
  revert scope. induction statements as [|statement rest IH]; intros scope Hs Hw;
    [reflexivity|].
  simpl in Hs. apply andb_true_iff in Hs as [Hs1 Hs2].
  cbn [flat_map] in Hw. apply Forall_app in Hw as [Hw1 Hw2].
  destruct statement as [e a| | | | | | | | |]; try discriminate.
  apply Forall_cons_1 in Hw1 as [He _].
  cbn [map codeOf evalStatements straightLine].
  rewrite (spliced_expression_runs _ _ _ He). simpl bindR.
  now apply IH.
Qed.

Lemma compile_fused_then_call statements getBuiltIn functionName
    parameters async :
  forallb isExpressionStatement statements = true ->
  Forall splicesAsWritten (flat_map expressionsOf statements) ->
  (2 <= length statements)%nat ->
  exists program,
    compile (statements ++ [CallStatement functionName parameters false async])
      getBuiltIn
    = OK program
    /\ forall fuel scope,
         execNode program 0 fuel scope
         = jitFunction (map codeOf statements) fuel scope.
Proof.
  set (call := CallStatement functionName parameters false async).
  intros Hexpr Hw Htwo. pose proof (expressions_simple _ Hexpr) as Hs. unfold compile.
  destruct (simple_well_scoped _ Hs) as [Hscoped Hfull].
  pose proof (flowAnalyzePass_cases (statements ++ [call])) as Hflow.
  rewrite !existsb_app, Hscoped, Hfull in Hflow.
  destruct (flowAnalyzePass (statements ++ [call])) as [[root ids]|e|] eqn:Eflow;
    [clear Hflow|destruct Hflow; discriminate|contradiction].
  destruct (flowAnalyzePass_inv _ _ _ Eflow) as (st & lst & Elower & _ & _).
  unfold lowerRoot in Elower. unfold bind at 1 in Elower.
  unfold alloc at 1 in Elower. simpl allocated in Elower.
  apply bind_OK in Elower as (block & st1 & Hb & Hr). injection Hr as Hroot _.
  unfold toBlockFlowNode in Hb.
  apply bind_OK in Hb as ([nodes last] & st2 & Hn & Hb).
  unfold bind, alloc, ret in Hb. simpl in Hb. injection Hb as <- <-.
  unfold pushNode in Hroot.
  apply lowerStatements_app in Hn as (nodesY & lastY & st3 & leaves & HY & HX & ->).
  apply lowerStatements_one in HY as (ext & Hext & -> & ->).
  simpl in Hext. unfold bind, alloc, ret in Hext. simpl in Hext.
  injection Hext as <- <-.
  pose proof (lowerStatements_simple _ Hs _ _ _ _ _ HX) as Hleaves.
  destruct (leaves_nodes _ _ Hleaves) as [Hflat Hnumbered].
  set (ext := ExternCallFlowNode 1%nat call 0%nat false) in *.
  set (final := ReturnFlowNode 0%nat (ReturnStatement None) true) in *.
  assert (Hnum : numbered (nodesOf root) = leaves ++ [ext; final]).
  { subst root. simpl. rewrite <- app_assoc, flat_map_app, Hflat.
    unfold numbered in *. rewrite List.filter_app, Hnumbered. reflexivity. }
  assert (Hlen : length leaves = length statements).
  { symmetry. exact (Forall2_length _ _ _ Hleaves). }
  destruct leaves as [|leaf1 [|leaf2 leaves']]; try (simpl in Hlen; lia).
  assert (Hid1 : idOf ids (self leaf1) = 0).
  { apply (flowAnalyzePass_numbered _ _ _ 0%nat _ Eflow). now rewrite Hnum. }
  assert (Hidext : idOf ids (self ext) = Z.of_nat (length (leaf1 :: leaf2 :: leaves'))).
  { apply (flowAnalyzePass_numbered _ _ _ _ _ Eflow). rewrite Hnum.
    now rewrite list_lookup_middle. }
  assert (Hidfinal : idOf ids (self final)
                     = Z.of_nat (S (length (leaf1 :: leaf2 :: leaves')))).
  { apply (flowAnalyzePass_numbered _ _ _ _ _ Eflow). rewrite Hnum.
    change (leaf1 :: leaf2 :: leaves' ++ [ext; final])
      with ((leaf1 :: leaf2 :: leaves') ++ [ext; final]).
    rewrite lookup_app_r by lia.
    replace (S (length (leaf1 :: leaf2 :: leaves')) - length (leaf1 :: leaf2 :: leaves'))%nat
      with 1%nat by lia.
    reflexivity. }
  remember (leaf1 :: leaf2 :: leaves') as leaves eqn:Eleaves.
  simpl bindR. subst root. unfold nodeGenPass. rewrite emitNode_block.
  rewrite <- app_assoc, map_app.
  simpl (map _ ([_] ++ [_])). fold ext.
  rewrite splitArray_prefix; [| |reflexivity].
  2:{ clear -Hleaves. induction Hleaves as [|s n ss ns (Hm & _) _ IH]; simpl;
        constructor; [simpl; now rewrite Hm|exact IH]. }
  destruct (simple_code_checks statements Hs Hw) as (checked & Hchecked).
  pose proof (leaves_code _ _ ids getBuiltIn (idOf ids (self leaf1)) Hleaves) as Hcode.
  simpl forEach. unfold bind. subst leaves.
  rewrite emitChunk_fused, emitJITNode_cons, Hcode. simpl bindR at 1.
  rewrite Hchecked. simpl bindR at 1. rewrite Hid1.
  change (emitChunk ids getBuiltIn [(ext, emitNode ids getBuiltIn ext)])
    with (addNodeAt (idOf ids (self ext))
            (externCallStep functionName parameters (idOf ids 0%nat))).
  change (emitChunk ids getBuiltIn [(final, emitNode ids getBuiltIn final)])
    with (addNodeAt (idOf ids (self final)) (returnStep None)).
  simpl self in Hidext, Hidfinal. rewrite Hidext, Hidfinal.
  eexists. split; [reflexivity|]. intros fuel scope.
  destruct (setNode_lookup 0 (jitFunction (map codeOf statements))
              (replicate (Z.to_nat (Z.of_nat (S (length (leaf1 :: leaf2 :: leaves')))))
                 None)) as [_ Hl0]; [lia|].
  destruct (execNode_setNode_other 0
              (Z.of_nat (length (leaf1 :: leaf2 :: leaves')))
              (externCallStep functionName parameters
                 (Z.of_nat (S (length (leaf1 :: leaf2 :: leaves')))))
              _ fuel scope ltac:(simpl; lia) ltac:(lia) Hl0) as [E1 Hl1].
  destruct (execNode_setNode_other 0
              (Z.of_nat (S (length (leaf1 :: leaf2 :: leaves'))))
              (returnStep None) _ fuel scope ltac:(simpl; lia) ltac:(lia) Hl1)
    as [E2 _].
  rewrite E2, E1. apply execNode_setNode. lia.
Qed.

Lemma run_no_opcode interpreter fuel ctx this rest scope :
  callStack ctx = this :: rest ->
  0 <= current this ->
  execNode (executable this) (current this) (S fuel) (scopeOf this ctx)
  = OK (None, scope) ->
  run interpreter (S (S fuel)) ctx = Throw (TypeError "op is not iterable").
Proof.
  intros Hstack Hpc Hexec.
  assert (Hgeb : (current this >=? 0) = true) by (rewrite Z.geb_leb; lia).
  change (run interpreter (S (S fuel)) ctx) with
    (match callStack ctx with
     | [] => Throw (TypeError "no iterator")
     | this :: _ =>
         if current this >=? 0 then
           ctx' <~ next interpreter (run interpreter (S fuel)) (S fuel) ctx ;;
           run interpreter (S fuel) ctx'
         else if current this =? -1 then OK (Resolved (returnValue this), ctx)
         else if current this =? -2 then OK (EXIT_SIGNAL, ctx)
         else OK (Resolved VUndefined, ctx)
     end).
  rewrite Hstack, Hgeb. unfold next. simpl callStack. rewrite Hstack.
  unfold scopeOf in Hexec. rewrite Hexec. reflexivity.
Qed.

(** X15. Two or more expression statements followed by a call of a global
    function are fused into one step whose code has no return: the step
    gives no opcode, and [exec] throws the TypeError of reading an opcode
    out of [undefined], whatever the call is and whatever the expressions
    do, as long as they splice as they are written (arrow functions over
    [({ local, args, env })] whose body is one expression that names
    nothing else). *)
Theorem exec_fused_expressions_then_call
    interpreter statements functionName callParameters async fuel args env0 :
  forallb isExpressionStatement statements = true ->
  Forall splicesAsWritten (flat_map expressionsOf statements) ->
  (2 <= length statements)%nat ->
  exec interpreter (S (S fuel))
    (statements ++ [CallStatement functionName callParameters false async]) args env0
  = Throw (TypeError "op is not iterable").
Proof.
  intros Hexpr Hw Htwo.
  destruct (compile_fused_then_call statements
              (getBuiltInFunction (builtInFunctionMap interpreter))
              functionName callParameters async Hexpr Hw Htwo)
    as (program & Hcompile & Hstep).
  unfold exec, compileScript. rewrite Hcompile. simpl bindR.
  unfold execExecutable, call.
  rewrite (run_no_opcode interpreter fuel
             (mkContext env0 [mkIterator program args ∅ 0 VUndefined] [])
             (mkIterator program args ∅ 0 VUndefined) []
             (snd (straightLine statements (mkScope args ∅ env0))));
    [reflexivity|reflexivity|simpl; lia|].
  simpl executable. simpl current. rewrite Hstep. unfold jitFunction, scopeOf.
  simpl parameters. simpl context. simpl contextEnv.
  now rewrite expressions_code_runs.
Qed.

Lemma exec_fused_expressions_then_call_witness :
  exec (interpreterOf idleLanguage) 2
    ([ExpressionStatement (assign "k" (fun _ => 0)) false;
      ExpressionStatement (assign "j" (fun _ => 1)) false]
     ++ [CallStatement "g" [] false false]) ∅ ∅
  = Throw (TypeError "op is not iterable").
Proof.
  apply (exec_fused_expressions_then_call (interpreterOf idleLanguage)
           [ExpressionStatement (assign "k" (fun _ => 0)) false;
            ExpressionStatement (assign "j" (fun _ => 1)) false]
           "g" [] false 0 ∅ ∅);
    [reflexivity|repeat constructor|simpl; lia].
Defined.

(** ** compile: the built-in functions are looked up when compiling *)

Lemma calledIn_app key xs ys :
  calledIn key (xs ++ ys) <-> calledIn key xs \/ calledIn key ys.
Proof.
  unfold calledIn. split.
  - intros (x & Hx & E). apply elem_of_app in Hx as [Hx|Hx]; eauto.
  - intros [(x & Hx & E)|(x & Hx & E)]; exists x; (split; [|exact E]);
      apply elem_of_app; auto.
Qed.

Lemma calledIn_cons key x xs : calledIn key xs -> calledIn key (x :: xs).
Proof. intros (y & Hy & E). exists y. split; [now apply list_elem_of_further|exact E]. Qed.

Section NamesLists.
Variable f : Statement -> oid -> Lower FlowNode.

Lemma lowerStatements_names statements :
Forall (statementNames f) statements ->
forall successor st nodes last st' key,
  lowerStatements f statements successor st = OK ((nodes, last), st') ->
  key ∈ flat_map builtInNames statements ->
  calledIn key (flat_map nodesOf nodes).
Proof.
induction 1 as [|statement rest Hs _ IH];
  intros successor st nodes last st' key; simpl.
- intros _ Hin. now apply elem_of_nil in Hin.
- intros H. apply bind_OK in H as ([nodes1 last1] & st1 & H1 & H).
  apply bind_OK in H as (node & st2 & H2 & H). injection H as <- <- <-.
  intros Hin. simpl. apply calledIn_app.
  apply elem_of_app in Hin as [Hin|Hin]; [left|right]; eauto.
Qed.

Lemma toBlockFlowNode_names statements :
Forall (statementNames f) statements ->
forall successor st block st' key,
  toBlockFlowNode f statements successor st = OK (block, st') ->
  key ∈ flat_map builtInNames statements ->
  calledIn key (nodesOf block).
Proof.
intros Hs successor st block st' key H Hin. unfold toBlockFlowNode in H.
apply bind_OK in H as ([nodes last] & st1 & H1 & H).
unfold bind, alloc, ret in H. simpl in H. injection H as <- <-. simpl.
apply calledIn_cons. exact (lowerStatements_names _ Hs _ _ _ _ _ _ H1 Hin).
Qed.

Lemma lowerIfBranches_names branches :
Forall (fun branch => Forall (statementNames f) (snd branch)) branches ->
forall successor st flowBranches st' key,
  lowerIfBranches f branches successor st = OK (flowBranches, st') ->
  key ∈ flat_map (fun branch => flat_map builtInNames (snd branch)) branches ->
  calledIn key (flat_map (fun branch => nodesOf (snd branch)) flowBranches).
Proof.
induction 1 as [|[condition body] rest Hs _ IH];
  intros successor st flowBranches st' key; simpl.
- intros _ Hin. now apply elem_of_nil in Hin.
- intros H. apply bind_OK in H as (node & st1 & H1 & H).
  apply bind_OK in H as (flowRest & st2 & H2 & H). injection H as <- <-.
  intros Hin. simpl. apply calledIn_app.
  apply elem_of_app in Hin as [Hin|Hin]; [left|right]; [|eauto].
  exact (toBlockFlowNode_names _ Hs _ _ _ _ _ H1 Hin).
Qed.

Lemma lowerSwitchBranches_names branches :
Forall (fun branch => Forall (statementNames f) (snd branch)) branches ->
forall last0 st flowBranches last st' key,
  lowerSwitchBranches f branches last0 st = OK ((flowBranches, last), st') ->
  key ∈ flat_map (fun branch => flat_map builtInNames (snd branch)) branches ->
  calledIn key (flat_map (fun branch => nodesOf (snd branch)) flowBranches).
Proof.
induction 1 as [|[condition body] rest Hs _ IH];
  intros last0 st flowBranches last st' key; simpl.
- intros _ Hin. now apply elem_of_nil in Hin.
- intros H. apply bind_OK in H as ([flowRest last1] & st1 & H1 & H).
  apply bind_OK in H as (chained & st2 & H2 & H).
  apply bind_OK in H as (node & st3 & H3 & H). injection H as <- <- <-.
  intros Hin. simpl. apply calledIn_app.
  apply elem_of_app in Hin as [Hin|Hin]; [left|right]; [|eauto].
  exact (toBlockFlowNode_names _ Hs _ _ _ _ _ H3 Hin).
Qed.

Lemma lowerOtherwise_names otherwise :
match otherwise with
| Some block => Forall (statementNames f) block
| None => True
end ->
forall successor st flowOtherwise st' key,
  lowerOtherwise f otherwise successor st = OK (flowOtherwise, st') ->
  key ∈ match otherwise with
        | Some block => flat_map builtInNames block
        | None => []
        end ->
  calledIn key match flowOtherwise with
               | Some block => nodesOf block
               | None => []
               end.
Proof.
destruct otherwise as [block|]; simpl.
- intros Hs successor st flowOtherwise st' key H.
  apply bind_OK in H as (node & st1 & H1 & H). injection H as <- <-.
  exact (toBlockFlowNode_names _ Hs _ _ _ _ _ H1).
- intros _ successor st flowOtherwise st' key _ Hin. now apply elem_of_nil in Hin.
Qed.
End NamesLists.

Lemma toFlowNode_names statement : statementNames toFlowNode statement.
Proof.
  induction statement
    as [expression async | functionName parameters builtIn async | value
       | branches otherwise [IHb IHo] | pattern branches otherwise [IHb IHo]
       | skip initializer condition iterator label body IHbody
       | label | | | type]
    using Statement_nested_ind; intros successor st node st' key;
    try (intros _ Hin; now apply elem_of_nil in Hin).
  - simpl. unfold bind, alloc. simpl. destruct builtIn; unfold ret.
    + intros [= <- <-] Hin. apply list_elem_of_singleton in Hin as ->.
      eexists. split; [apply list_elem_of_here|reflexivity].
    + intros _ Hin. now apply elem_of_nil in Hin.
  - simpl. intros H.
    apply bind_OK in H as (flowBranches & st1 & H1 & H).
    apply bind_OK in H as (flowOtherwise & st2 & H2 & H).
    unfold bind, alloc, ret in H. simpl in H. injection H as <- <-.
    intros Hin. simpl. apply calledIn_cons, calledIn_app.
    apply elem_of_app in Hin as [Hin|Hin]; [left|right].
    + exact (lowerIfBranches_names _ _ IHb _ _ _ _ _ H1 Hin).
    + exact (lowerOtherwise_names _ _ IHo _ _ _ _ _ H2 Hin).
  - simpl. intros H.
    apply bind_OK in H as (flowOtherwise & st1 & H1 & H).
    apply bind_OK in H as ([flowBranches last] & st2 & H2 & H).
    unfold bind, alloc, ret in H. simpl in H. injection H as <- <-.
    intros Hin. simpl. apply calledIn_cons, calledIn_app.
    apply elem_of_app in Hin as [Hin|Hin]; [left|right].
    + exact (lowerSwitchBranches_names _ _ IHb _ _ _ _ _ _ H2 Hin).
    + exact (lowerOtherwise_names _ _ IHo _ _ _ _ _ H1 Hin).
  - intros H Hin. apply toFlowNode_loop_inv in H as (flowBody & st3 & Hb & _ & ->).
    pose proof (toBlockFlowNode_names _ _ IHbody _ _ _ _ _ Hb Hin) as Hbody.
    destruct initializer as [e|]; [|destruct skip]; simpl;
      try exact Hbody; repeat apply calledIn_cons; exact Hbody.
Qed.

Section Resolved.
Variable ids : gmap oid Z.
Variable getBuiltIn : string -> Result BuiltInFunction.

Lemma mapR_resolved {A B : Type} (g : A -> FlowNode) (emit : A -> Result B) l codes :
Forall (fun a => forall code, emit a = OK code ->
                 Forall (resolved getBuiltIn) (nodesOf (g a))) l ->
mapR emit l = OK codes ->
Forall (resolved getBuiltIn) (flat_map (fun a => nodesOf (g a)) l).
Proof.
intros Hl. revert codes. induction Hl as [|a rest Ha _ IH]; intros codes; simpl.
- constructor.
- intros H. apply bindR_OK in H as (code & Hcode & H).
  apply bindR_OK in H as (codes' & Hcodes & _).
  apply Forall_app. split; eauto.
Qed.

Lemma emitJITCode_resolved entry node code :
emitJITCode ids getBuiltIn entry node = OK code ->
Forall (resolved getBuiltIn) (nodesOf node).
Proof.
revert code. induction node
  as [s st n m | s st n m | s st m
     | s st branches otherwise m n [IHb IHo]
     | s st branches otherwise m n [IHb IHo]
     | s st body n m IHbody | s main m IHmain | s st n m | s st m
     | s nodes n m IHnodes]
  using FlowNode_nested_ind; intros code; simpl;
  try (intros _; constructor; [exact I|constructor]).
- destruct st; try discriminate.
  + intros _. constructor; [exact I|constructor].
  + destruct builtIn; [|discriminate]. intros H.
    apply bindR_OK in H as (fn & Hfn & _).
    constructor; [|constructor]. unfold resolved. simpl. eauto.
- intros H. apply bindR_OK in H as (branchList & Hbranches & H).
  apply bindR_OK in H as (otherwiseCode & Hotherwise & _).
  constructor; [exact I|]. apply Forall_app. split.
  + apply (mapR_resolved snd _ _ _ ) with (2 := Hbranches).
    eapply Forall_impl; [exact IHb|]. simpl. intros branch IH c Hc.
    apply bindR_OK in Hc as (c1 & Hc1 & _). eauto.
  + destruct otherwise as [block|]; [|constructor].
    apply bindR_OK in Hotherwise as (c1 & Hc1 & _). eauto.
- intros H. apply bindR_OK in H as (branchList & Hbranches & H).
  apply bindR_OK in H as (otherwiseCode & Hotherwise & _).
  constructor; [exact I|]. apply Forall_app. split.
  + apply (mapR_resolved snd _ _ _ ) with (2 := Hbranches).
    eapply Forall_impl; [exact IHb|]. simpl. intros branch IH c Hc.
    apply bindR_OK in Hc as (c1 & Hc1 & _). eauto.
  + destruct otherwise as [block|]; [|constructor].
    apply bindR_OK in Hotherwise as (c1 & Hc1 & _). eauto.
- destruct st; try discriminate. intros H.
  apply bindR_OK in H as (bodyCode & Hbody & _).
  constructor; [exact I|]. eauto.
- intros H. constructor; [exact I|]. eauto.
- intros H. apply bindR_OK in H as (codes & Hcodes & _).
  constructor; [exact I|].
  apply (mapR_resolved (fun x => x) _ _ _) with (2 := Hcodes).
  eapply Forall_impl; [exact IHnodes|]. simpl. eauto.
Qed.

Lemma emitJITNode_resolved nodes program program' :
emitJITNode ids getBuiltIn nodes program = OK (tt, program') ->
Forall (resolved getBuiltIn) (flat_map nodesOf nodes).
Proof.
unfold emitJITNode. destruct nodes as [|entry rest]; [discriminate|].
intros H. apply bindR_OK in H as (code & Hcode & _).
apply (mapR_resolved (fun x => x) _ _ _) with (2 := Hcode).
apply Forall_forall. intros x _ c. apply emitJITCode_resolved.
Qed.

Lemma forEach_resolved {A : Type} (g : A -> FlowNode)
  (emit : A -> State (list (option ExecutionNode)) unit) l program program' :
Forall (fun a => forall p p', emit a p = OK (tt, p') ->
                 Forall (resolved getBuiltIn) (nodesOf (g a))) l ->
forEach emit l program = OK (tt, program') ->
Forall (resolved getBuiltIn) (flat_map (fun a => nodesOf (g a)) l).
Proof.
intros Hl. revert program. induction Hl as [|a rest Ha _ IH]; intros program; simpl.
- constructor.
- intros H. apply bind_OK in H as ([] & p1 & H1 & H).
  apply Forall_app. split; eauto.
Qed.

Lemma emitNode_resolved node : forall program program',
emitNode ids getBuiltIn node program = OK (tt, program') ->
Forall (resolved getBuiltIn) (nodesOf node).
Proof.
induction node
  as [s st n m | s st n m | s st m
     | s st branches otherwise m n [IHb IHo]
     | s st branches otherwise m n [IHb IHo]
     | s st body n m IHbody | s main m IHmain | s st n m | s st m
     | s nodes n m IHnodes]
  using FlowNode_nested_ind; intros program program'; simpl;
  try (intros _; constructor; [exact I|constructor]).
- destruct st; try discriminate.
  + intros _. constructor; [exact I|constructor].
  + destruct builtIn; [|discriminate]. intros H.
    apply bindR_OK in H as (fn & Hfn & _).
    constructor; [|constructor]. unfold resolved. simpl. eauto.
- intros H. apply bind_OK in H as ([] & p1 & H1 & H).
  apply bind_OK in H as ([] & p2 & H2 & _).
  constructor; [exact I|]. apply Forall_app. split.
  + exact (forEach_resolved snd _ _ _ _ IHb H1).
  + destruct otherwise as [block|]; [eauto|constructor].
- intros H. apply bind_OK in H as ([] & p1 & H1 & H).
  apply bind_OK in H as ([] & p2 & H2 & _).
  constructor; [exact I|]. apply Forall_app. split.
  + exact (forEach_resolved snd _ _ _ _ IHb H1).
  + destruct otherwise as [block|]; [eauto|constructor].
- intros H. apply bind_OK in H as ([] & p1 & _ & H).
  constructor; [exact I|]. eauto.
- intros H. apply bind_OK in H as ([] & p1 & _ & H).
  constructor; [exact I|]. eauto.
- intros H. constructor; [exact I|].
  set (pairs := map (fun child => (child, emitNode ids getBuiltIn child)) nodes) in *.
  assert (Hpairs : Forall (fun pair : FlowNode * State (list (option ExecutionNode)) unit =>
                     forall p p', snd pair p = OK (tt, p') ->
                     Forall (resolved getBuiltIn) (nodesOf (fst pair))) pairs).
  { subst pairs. clear -IHnodes.
    induction IHnodes; simpl; constructor; assumption. }
  apply (splitArray_Forall _ _ (fun child => negb (mergable (fst child)))) in Hpairs.
  apply forEach_OK in H.
  assert (Hchunks : Forall (fun chunk =>
                      Forall (resolved getBuiltIn)
                        (flat_map (fun pair => nodesOf (fst pair)) chunk))
                      (splitArray pairs (fun child => negb (mergable (fst child))))).
  { apply Forall_forall. intros chunk Hchunk.
    rewrite Forall_forall in Hpairs. specialize (Hpairs _ Hchunk).
    rewrite Forall_forall in H. destruct (H _ Hchunk) as (p1 & p2 & Hemit).
    destruct chunk as [|[child emitChild] [|second rest]].
    - constructor.
    - apply Forall_cons_1 in Hpairs as [Hchild _]. simpl in Hchild, Hemit |- *.
      rewrite app_nil_r.
      destruct (negb (isIfSwitchLoop child) || negb (mergable child)); [eauto|].
      apply emitJITNode_resolved in Hemit. simpl in Hemit.
      now rewrite app_nil_r in Hemit.
    - apply emitJITNode_resolved in Hemit.
      now rewrite flat_map_concat_map, map_map, <- flat_map_concat_map in Hemit. }
  assert (Hall : Forall (resolved getBuiltIn)
                   (flat_map (fun pair : FlowNode * State (list (option ExecutionNode)) unit =>
                                nodesOf (fst pair))
                      (concat (splitArray pairs
                                 (fun child => negb (mergable (fst child))))))).
  { clear -Hchunks. induction Hchunks as [|chunk rest Hc _ IH]; simpl; [constructor|].
    rewrite flat_map_app. apply Forall_app. now split. }
  rewrite splitArray_joins in Hall. subst pairs.
  now rewrite flat_map_concat_map, map_map, <- flat_map_concat_map in Hall.
Qed.
End Resolved.

(** X16. Every built-in function that a program calls, at whatever depth
    of its statements, is looked up when the program is compiled: when
    [compile] returns a program, each of these names stood for a function;
    a call of a built-in function that is missing makes [compile] throw,
    not the run. *)
Theorem compile_resolves_built_ins script getBuiltIn program key :
  compile script getBuiltIn = OK program ->
  key ∈ flat_map builtInNames script ->
  exists f, getBuiltIn key = OK f.
Proof.
  intros Hcompile Hin. unfold compile in Hcompile.
  apply bindR_OK in Hcompile as ([root ids] & Hflow & Hgen). simpl in Hgen.
  destruct (flowAnalyzePass_inv _ _ _ Hflow) as (st & lst & Elower & _ & _).
  unfold lowerRoot in Elower. unfold bind at 1 in Elower.
  unfold alloc at 1 in Elower. simpl allocated in Elower.
  apply bind_OK in Elower as (block & st1 & Hb & Hr). injection Hr as Hroot _.
  assert (Hcalled : calledIn key (nodesOf block)).
  { apply (toBlockFlowNode_names toFlowNode script) with (2 := Hb); [|exact Hin].
    apply Forall_forall. intros s _. apply toFlowNode_names. }
  unfold toBlockFlowNode in Hb.
  apply bind_OK in Hb as ([nodes last] & st2 & _ & Hb).
  unfold bind, alloc, ret in Hb. simpl in Hb. injection Hb as <- <-.
  unfold pushNode in Hroot. subst root. unfold nodeGenPass in Hgen.
  apply bindR_OK in Hgen as ([[] program1] & Hemit & _).
  apply emitNode_resolved in Hemit.
  destruct Hcalled as (x & Hx & Ex).
  assert (Hx' : x ∈ nodesOf (BlockFlowNode (allocated st2)
                               (nodes ++ [ReturnFlowNode 0%nat (ReturnStatement None) true])
                               0%nat (forallb mergable nodes))).
  { simpl in Hx |- *. apply elem_of_cons in Hx as [->|Hx]; [discriminate|].
    apply list_elem_of_further. rewrite flat_map_app. apply elem_of_app. now left. }
  rewrite Forall_forall in Hemit. specialize (Hemit _ Hx').
  unfold resolved in Hemit. now rewrite Ex in Hemit.
Qed.

Lemma compile_resolves_built_ins_witness :
  compile [echoLiteral (LNum 1); callGlobal "g"]
    (getBuiltInFunction {["echo" := echo]})
  = OK [Some (builtInStep echo [("text", Lit (LNum 1))] 1);
        Some (externCallStep "g" [] 2);
        Some (returnStep None)]
  /\ exists f, getBuiltInFunction {["echo" := echo]} "echo" = OK f.
Proof.
  split; [reflexivity|].
  apply (compile_resolves_built_ins [echoLiteral (LNum 1); callGlobal "g"]
           (getBuiltInFunction {["echo" := echo]})
           [Some (builtInStep echo [("text", Lit (LNum 1))] 1);
            Some (externCallStep "g" [] 2);
            Some (returnStep None)] "echo").
  - reflexivity.
  - apply list_elem_of_here.
Defined.
(** ** A loop that skips its first check and has no initializer *)

(** The walk gives no [id] to an object that it does not meet. *)
Lemma flowAnalyzePass_unmet program root ids o :
  flowAnalyzePass program = OK (root, ids) ->
  o ∉ map self (nodesOf root) ->
  idOf ids o = -1.
Proof.
  intros Hflow Ho.
  destruct (flowAnalyzePass_inv _ _ _ Hflow) as (st & lst & Elower & Elabel & ->).
  destruct (lowerRoot_tidy _ _ _ Elower) as [_ Hnd].
  destruct (labelingFlowNode_blocks root _ _ Hnd Elabel) as [Hkeep _].
  unfold idOf. rewrite (Hkeep o Ho). simpl. now rewrite lookup_empty.
Qed.

Lemma lowerStatements_length f statements successor st nodes last st' :
  lowerStatements f statements successor st = OK ((nodes, last), st') ->
  length nodes = length statements.
Proof.
  revert nodes last st'. induction statements as [|statement rest IH];
    intros nodes last st'; simpl.
  - now intros [= <- <- <-].
  - intros H. apply bind_OK in H as ([nodes1 last1] & st1 & H1 & H).
    apply bind_OK in H as (node & st2 & H2 & H). injection H as <- <- <-.
    simpl. f_equal. eapply IH, H1.
Qed.

Lemma toBlockFlowNode_shape f statements successor st block st' :
  toBlockFlowNode f statements successor st = OK (block, st') ->
  exists b nodes,
    block = BlockFlowNode b nodes successor (forallb mergable nodes)
    /\ length nodes = length statements.
Proof.
  unfold toBlockFlowNode. intros H.
  apply bind_OK in H as ([nodes last] & st1 & H1 & H).
  unfold bind, alloc, ret in H. simpl in H. injection H as <- <-.
  apply lowerStatements_length in H1. eauto.
Qed.

Lemma toBlockFlowNode_last statements successor st b nodes n m st' statement node :
  toBlockFlowNode toFlowNode statements successor st
  = OK (BlockFlowNode b nodes n m, st') ->
  last statements = Some statement -> last nodes = Some node ->
  fallsThrough statement = true ->
  exitOf node = Some successor.
Proof.
  unfold toBlockFlowNode. intros H.
  apply bind_OK in H as ([nodes1 last1] & st1 & H1 & H).
  unfold bind, alloc, ret in H. simpl in H. injection H as _ <- _ _ _.
  destruct (lowerStatements_chain toFlowNode toFlowNode_exit _ _ _ _ _ _ H1)
    as (_ & Hlen & Hchain).
  rewrite !last_lookup, Hlen. intros Es En Hf.
  rewrite (Hchain _ _ _ Es En Hf).
  assert (Hlt : (pred (length statements) < length nodes1)%nat)
    by (apply lookup_lt_Some in En; lia).
  rewrite drop_ge by lia. reflexivity.
Qed.

Lemma flowAnalyzePass_loop_node before condition iterator label body after root ids :
  flowAnalyzePass
    (before ++ LoopStatement true None condition iterator label body :: after)
  = OK (root, ids) ->
  exists r before' b nodes loopNode m after' n0 m0,
    root = BlockFlowNode r (before' ++ BlockFlowNode b nodes loopNode m :: after')
             n0 m0
    /\ length before' = length before
    /\ length nodes = length body
    /\ (loopNode ∉ map self (nodesOf root))
    /\ (forall statement node,
          last body = Some statement -> last nodes = Some node ->
          fallsThrough statement = true -> exitOf node = Some loopNode).
Proof.
  intros Hflow.
  destruct (flowAnalyzePass_inv _ _ _ Hflow) as (st & lst & Elower & _ & _).
  unfold lowerRoot, toBlockFlowNode in Elower.
  unfold bind at 1 in Elower. unfold alloc at 1 in Elower. simpl in Elower.
  apply bind_OK in Elower as (block & st2 & H & E).
  apply bind_OK in H as ([nodes0 last] & st1 & H1 & H).
  unfold bind, alloc, ret in H. simpl in H. injection H as <- <-.
  injection E as <- <-. simpl.
  assert (Hst : stateOK (mkLowering 1 ∅ [])).
  { split; simpl; [constructor|apply map_Forall_empty]. }
  assert (Hok : forall l, Forall (statementOK toFlowNode) l).
  { intros l. apply Forall_forall. intros s _. apply toFlowNode_lowers. }
  assert (Htidy : forall l, Forall (statementTidy toFlowNode) l).
  { intros l. apply Forall_forall. intros s _. apply toFlowNode_tidy. }
  apply lowerStatements_app in H1
    as (nodesY & lastY & sta & nodesX & HY & HX & ->).
  cbn [lowerStatements] in HY. apply bind_OK in HY as ([nodesA lastA] & stb & HA & HY).
  apply bind_OK in HY as (node & sta' & HL & HY). injection HY as <- <- <-.
  destruct (lowerStatements_tidy _ _ (Hok _) (Htidy _) _ _ _ _ _ Hst
              (Nat.lt_succ_diag_r 0) HA) as (TA & LA & AA & ElA & EkA).
  simpl in AA.
  assert (Hstb : stateOK stb) by now apply (stateOK_later (mkLowering 1 ∅ [])).
  pose proof (toFlowNode_tidy _ _ _ _ _ Hstb LA HL) as TL.
  destruct (lowers_frame _ _ _ _ _ _ (toFlowNode_lowers _ lastA stb) HL)
    as (ElL & EkL & AL & _).
  assert (Hsta : stateOK sta') by now apply (stateOK_later stb).
  pose proof (tidy_self _ _ _ TL) as SL.
  destruct (lowerStatements_tidy _ _ (Hok _) (Htidy _) _ _ _ _ _ Hsta
              (proj2 SL) HX) as (TX & LX & AX & _ & _).
  apply toFlowNode_loop_inv in HL as (flowBody & st3 & Hbody & _ & ->).
  assert (Hst3 : stateOK
            (mkLowering (S (S (allocated stb)))
               match labelOf label with
               | Some l => <[l := S (allocated stb)]> (labelMap stb)
               | None => labelMap stb
               end
               (S (allocated stb) :: breakableNodeStack stb))).
  { destruct Hstb as [Hk Hl]. split; simpl.
    - constructor; [lia|]. eapply Forall_impl; [exact Hk|]. simpl. intros. lia.
    - destruct (labelOf label).
      + apply map_Forall_insert_2; [lia|].
        eapply map_Forall_impl; [exact Hl|]. simpl. intros. lia.
      + eapply map_Forall_impl; [exact Hl|]. simpl. intros. lia. }
  destruct (toBlockFlowNode_tidy _ _ (Hok _) (Htidy _) _ _ _ _ Hst3
              (Nat.lt_succ_diag_r _) Hbody) as (TB & _).
  simpl in TB.
  destruct (toBlockFlowNode_shape _ _ _ _ _ _ Hbody) as (b & nodes & -> & Lb).
  pose proof (lowerStatements_length _ _ _ _ _ _ _ HX) as LXn.
  exists (allocated st1), nodesX, b, nodes, (S (allocated stb)),
    (forallb mergable nodes),
    (nodesA ++ [ReturnFlowNode 0%nat (ReturnStatement None) true]), 0%nat,
    (forallb mergable (nodesX ++ BlockFlowNode b nodes (S (allocated stb))
                                   (forallb mergable nodes) :: nodesA)).
  split. { now rewrite <- app_assoc. }
  split; [exact LXn|]. split; [exact Lb|].
  split; [|intros statement node; now apply (toBlockFlowNode_last _ _ _ _ _ _ _ _ _ _ Hbody)].
  assert (Hb : (S (S (allocated stb)) <= b < allocated sta')%nat).
  { pose proof (tidy_self _ _ _ TB) as Sb. simpl in SL, Sb. lia. }
  simpl. rewrite !flat_map_app, !map_app. simpl. intros Hin.
  rewrite !elem_of_cons, !elem_of_app, !elem_of_cons in Hin.
  destruct Hin as [E|[[I|[E|I]]|[E|I]]].
  - lia.
  - apply list_elem_of_In in I. apply (tidyAll_selves _ _ _ _ TX) in I. lia.
  - lia.
  - rewrite map_app, elem_of_app in I. destruct I as [I|I].
    + destruct TB as [F _]. apply Forall_cons_1 in F as [_ F].
      rewrite Forall_forall in F.
      apply list_elem_of_fmap in I as (x & E & Hx).
      destruct (F _ Hx) as ((? & ?) & _). lia.
    + apply list_elem_of_In in I. apply (tidyAll_selves _ _ _ _ TA) in I.
      simpl in I. lia.
  - lia.
  - now apply elem_of_nil in I.
Qed.

(** X17. A loop that skips its first check and has no initializer is
    lowered to the block of its body alone: the Loop node, which holds the
    condition and the iterator, is the [next] of that block and the exit of
    the body's last statement (when that is a statement that control falls
    through), but it is no node of the graph, and the
    labelling walk leaves its [id] at -1, the value of [current] with which
    a frame has returned. *)
Theorem flowAnalyzePass_skipped_check_loop
    before condition iterator label body after root ids :
  flowAnalyzePass
    (before ++ LoopStatement true None condition iterator label body :: after)
  = OK (root, ids) ->
  exists r before' b nodes loopNode m after' n0 m0,
    root = BlockFlowNode r (before' ++ BlockFlowNode b nodes loopNode m :: after')
             n0 m0
    /\ length before' = length before
    /\ length nodes = length body
    /\ (loopNode ∉ map self (nodesOf root))
    /\ idOf ids loopNode = -1
    /\ (forall statement node,
          last body = Some statement -> last nodes = Some node ->
          fallsThrough statement = true -> exitOf node = Some loopNode).
Proof.
  intros Hflow.
  destruct (flowAnalyzePass_loop_node _ _ _ _ _ _ _ _ Hflow)
    as (r & before' & b & nodes & loopNode & m & after' & n0 & m0
        & E & Lb & Ln & Hout & Hlast).
  exists r, before', b, nodes, loopNode, m, after', n0, m0.
  repeat (split; [assumption|]).
  split; [|exact Hlast]. eapply flowAnalyzePass_unmet; eassumption.
Qed.

Lemma flowAnalyzePass_skipped_check_loop_witness :
  exists root ids,
    flowAnalyzePass
      ([] ++ LoopStatement true None (Some (test (fun _ => true))) None None
               [callGlobal "g"] :: [])
    = OK (root, ids)
    /\ exists r before' b nodes loopNode m after' n0 m0,
         root = BlockFlowNode r
                  (before' ++ BlockFlowNode b nodes loopNode m :: after') n0 m0
         /\ length before' = length (@nil Statement)
         /\ length nodes = length [callGlobal "g"]
         /\ (loopNode ∉ map self (nodesOf root))
         /\ idOf ids loopNode = -1
         /\ (forall statement node,
               last [callGlobal "g"] = Some statement -> last nodes = Some node ->
               fallsThrough statement = true -> exitOf node = Some loopNode).
Proof.
  eexists _, _. split; [vm_compute; reflexivity|].
  match goal with
  | |- exists r before' b nodes loopNode m after' n0 m0, ?root = _ /\ _ =>
      apply (flowAnalyzePass_skipped_check_loop
               [] (Some (test (fun _ => true))) None None [callGlobal "g"] []
               root);
      vm_compute; reflexivity
  end.
Defined.
(** ** Claim C4: Switch, stepped and fused *)





Section FusedSwitch.
Variable ids : gmap oid Z.
Variable getBuiltIn : string -> Result BuiltInFunction.
Variable entry : Z.





End FusedSwitch.


(** ** compile: an If of two branches or more that is fused *)

Lemma wideIn_app xs ys : wideIn (xs ++ ys) <-> wideIn xs \/ wideIn ys.
Proof.
  unfold wideIn. split.
  - intros (x & Hx & E). apply elem_of_app in Hx as [Hx|Hx]; eauto.
  - intros [(x & Hx & E)|(x & Hx & E)]; exists x; (split; [|exact E]);
      apply elem_of_app; auto.
Qed.

Lemma wideIn_cons x xs : wideIn xs -> wideIn (x :: xs).
Proof.
  intros (y & Hy & E). exists y. split; [now apply list_elem_of_further|exact E].
Qed.

Section WideLists.
Variable f : Statement -> oid -> Lower FlowNode.

Lemma lowerStatements_wide statements :
Forall (statementWide f) statements ->
forall successor st nodes last st',
  lowerStatements f statements successor st = OK ((nodes, last), st') ->
  existsb elseIfFused statements = true ->
  wideIn (flat_map (fun x => x :: blockNodes x) nodes).
Proof.
induction 1 as [|statement rest Hs _ IH];
  intros successor st nodes last st'; simpl.
- discriminate.
- intros H. apply bind_OK in H as ([nodes1 last1] & st1 & H1 & H).
  apply bind_OK in H as (node & st2 & H2 & H). injection H as <- <- <-.
  intros Hw. cbn [flat_map].
  change (wideIn ((node :: blockNodes node)
                  ++ flat_map (fun x => x :: blockNodes x) nodes1)).
  apply wideIn_app. apply orb_true_iff in Hw as [Hw|Hw]; [left|right]; eauto.
Qed.

Lemma toBlockFlowNode_wide statements :
Forall (statementWide f) statements ->
forall successor st block st',
  toBlockFlowNode f statements successor st = OK (block, st') ->
  existsb elseIfFused statements = true ->
  wideIn (blockNodes block).
Proof.
intros Hs successor st block st' H Hw. unfold toBlockFlowNode in H.
apply bind_OK in H as ([nodes last] & st1 & H1 & H).
unfold bind, alloc, ret in H. simpl in H. injection H as <- <-. simpl.
exact (lowerStatements_wide _ Hs _ _ _ _ _ H1 Hw).
Qed.

Lemma lowerIfBranches_wide branches :
Forall (fun branch => Forall (statementWide f) (snd branch)) branches ->
forall successor st flowBranches st',
  lowerIfBranches f branches successor st = OK (flowBranches, st') ->
  existsb (fun branch => existsb elseIfFused (snd branch)) branches = true ->
  wideIn (flat_map (fun branch => blockNodes (snd branch)) flowBranches).
Proof.
induction 1 as [|[condition body] rest Hs _ IH];
  intros successor st flowBranches st'; simpl.
- discriminate.
- intros H. apply bind_OK in H as (node & st1 & H1 & H).
  apply bind_OK in H as (flowRest & st2 & H2 & H). injection H as <- <-.
  intros Hw. simpl. apply wideIn_app.
  apply orb_true_iff in Hw as [Hw|Hw]; [left|right]; [|eauto].
  exact (toBlockFlowNode_wide _ Hs _ _ _ _ H1 Hw).
Qed.

Lemma lowerSwitchBranches_wide branches :
Forall (fun branch => Forall (statementWide f) (snd branch)) branches ->
forall last0 st flowBranches last st',
  lowerSwitchBranches f branches last0 st = OK ((flowBranches, last), st') ->
  existsb (fun branch => existsb elseIfFused (snd branch)) branches = true ->
  wideIn (flat_map (fun branch => blockNodes (snd branch)) flowBranches).
Proof.
induction 1 as [|[condition body] rest Hs _ IH];
  intros last0 st flowBranches last st'; simpl.
- discriminate.
- intros H. apply bind_OK in H as ([flowRest last1] & st1 & H1 & H).
  apply bind_OK in H as (chained & st2 & H2 & H).
  apply bind_OK in H as (node & st3 & H3 & H). injection H as <- <- <-.
  intros Hw. simpl. apply wideIn_app.
  apply orb_true_iff in Hw as [Hw|Hw]; [left|right]; [|eauto].
  exact (toBlockFlowNode_wide _ Hs _ _ _ _ H3 Hw).
Qed.

Lemma lowerOtherwise_wide otherwise :
match otherwise with
| Some block => Forall (statementWide f) block
| None => True
end ->
forall successor st flowOtherwise st',
  lowerOtherwise f otherwise successor st = OK (flowOtherwise, st') ->
  match otherwise with
  | Some block => existsb elseIfFused block
  | None => false
  end = true ->
  wideIn match flowOtherwise with
         | Some block => blockNodes block
         | None => []
         end.
Proof.
destruct otherwise as [block|]; simpl.
- intros Hs successor st flowOtherwise st' H.
  apply bind_OK in H as (node & st1 & H1 & H). injection H as <- <-.
  exact (toBlockFlowNode_wide _ Hs _ _ _ _ H1).
- discriminate.
Qed.

Lemma lowerIfBranches_length branches :
forall successor st flowBranches st',
  lowerIfBranches f branches successor st = OK (flowBranches, st') ->
  length flowBranches = length branches.
Proof.
induction branches as [|[condition body] rest IH];
  intros successor st flowBranches st'; simpl.
- now intros [= <- <-].
- intros H. apply bind_OK in H as (node & st1 & H1 & H).
  apply bind_OK in H as (flowRest & st2 & H2 & H). injection H as <- <-.
  simpl. f_equal. eauto.
Qed.
End WideLists.

Lemma toFlowNode_wide statement : statementWide toFlowNode statement.
Proof.
  induction statement
    as [expression async | functionName parameters builtIn async | value
       | branches otherwise [IHb IHo] | pattern branches otherwise [IHb IHo]
       | skip initializer condition iterator label body IHbody
       | label | | | type]
    using Statement_nested_ind; intros successor st node st';
    try (intros _; discriminate).
  - intros H Hw.
    pose proof (toFlowNode_merges _ _ _ _ _ H) as Hm.
    cbn [toFlowNode] in H.
    apply bind_OK in H as (flowBranches & st1 & H1 & H).
    apply bind_OK in H as (flowOtherwise & st2 & H2 & H).
    unfold bind, alloc, ret in H. simpl in H. injection H as <- <-.
    cbn [elseIfFused] in Hw.
    apply orb_true_iff in Hw as [Hw|Hw]; [apply orb_true_iff in Hw as [Hw|Hw]|].
    + apply andb_true_iff in Hw as [Hlen Hcall].
      eexists. split; [apply list_elem_of_here|].
      cbn [mergable] in Hm. cbn [narrow]. rewrite Hm, Hcall.
      rewrite (lowerIfBranches_length _ _ _ _ _ _ H1). simpl.
      apply Nat.ltb_ge. now apply Nat.leb_le.
    + apply wideIn_cons. cbn [blockNodes]. apply wideIn_app. left.
      exact (lowerIfBranches_wide _ _ IHb _ _ _ _ H1 Hw).
    + apply wideIn_cons. cbn [blockNodes]. apply wideIn_app. right.
      exact (lowerOtherwise_wide _ _ IHo _ _ _ _ H2 Hw).
  - simpl. intros H.
    apply bind_OK in H as (flowOtherwise & st1 & H1 & H).
    apply bind_OK in H as ([flowBranches last] & st2 & H2 & H).
    unfold bind, alloc, ret in H. simpl in H. injection H as <- <-.
    intros Hw. apply wideIn_cons. cbn [blockNodes]. apply wideIn_app.
    apply orb_true_iff in Hw as [Hw|Hw]; [left|right].
    + exact (lowerSwitchBranches_wide _ _ IHb _ _ _ _ _ H2 Hw).
    + exact (lowerOtherwise_wide _ _ IHo _ _ _ _ H1 Hw).
  - intros H Hw. apply toFlowNode_loop_inv in H as (flowBody & st3 & Hb & _ & ->).
    pose proof (toBlockFlowNode_wide _ _ IHbody _ _ _ _ Hb Hw) as Hbody.
    destruct initializer as [e|]; [|destruct skip]; simpl;
      apply wideIn_cons; exact Hbody.
Qed.

Section Narrow.
Variable ids : gmap oid Z.
Variable getBuiltIn : string -> Result BuiltInFunction.

Let narrowT (x : FlowNode) : Prop := narrow x = true.

Lemma mapR_checked {A C : Type} (g : A -> list FlowNode) (emit : A -> Result C)
  (check : C -> Result unit) l codes us :
Forall (fun a => forall c u, emit a = OK c -> check c = OK u ->
                 Forall narrowT (g a)) l ->
mapR emit l = OK codes -> mapR check codes = OK us ->
Forall narrowT (flat_map g l).
Proof.
intros Hl. revert codes us.
induction Hl as [|a rest Ha _ IH]; intros codes us; simpl.
- constructor.
- intros H. apply bindR_OK in H as (code & Hcode & H).
  apply bindR_OK in H as (codes' & Hcodes & H). injection H as <-. simpl.
  intros H. apply bindR_OK in H as (u & Hu & H).
  apply bindR_OK in H as (us' & Hus & _).
  apply Forall_app. split; eauto.
Qed.

Lemma emitJITCode_narrow entry node : forall code inLoop inSwitch u,
emitJITCode ids getBuiltIn entry node = OK code ->
checkSyntax inLoop inSwitch code = OK u ->
Forall narrowT (node :: blockNodes node).
Proof.
induction node
  as [s st n m | s st n m | s st m
     | s st branches otherwise m n [IHb IHo]
     | s st branches otherwise m n [IHb IHo]
     | s st body n m IHbody | s main m IHmain | s st n m | s st m
     | s nodes n m IHnodes]
  using FlowNode_nested_ind; intros code inLoop inSwitch u;
  try (intros _ _; constructor; [reflexivity|constructor]).
- (* If *)
  cbn [emitJITCode]. intros H.
  apply bindR_OK in H as (branchList & Hbranches & H).
  apply bindR_OK in H as (otherwiseCode & Hotherwise & H). injection H as <-.
  destruct branches as [|[c1 b1] [|second rest]].
  + simpl in Hbranches. injection Hbranches as <-.
    destruct otherwise as [block|].
    * apply bindR_OK in Hotherwise as (c & _ & Hc). injection Hc as <-.
      discriminate.
    * intros _. constructor; [apply orb_true_r|constructor].
  + simpl in Hbranches. apply bindR_OK in Hbranches as (bc & Hb1 & Hbranches).
    apply bindR_OK in Hb1 as (code1 & Hcode1 & Hb1). injection Hb1 as <-.
    injection Hbranches as <-.
    apply Forall_cons_1 in IHb as [IH1 _]. simpl in IH1.
    cbn [checkSyntax]. intros Hcheck.
    constructor; [apply orb_true_r|]. cbn [blockNodes flat_map snd].
    rewrite app_nil_r. apply Forall_app.
    destruct otherwise as [block|].
    * apply bindR_OK in Hotherwise as (c & Hc & Ho). injection Ho as <-.
      apply bindR_OK in Hcheck as (u1 & Hu1 & Hu2).
      split.
      -- exact (proj2 (Forall_cons_1 _ _ _ (IH1 _ _ _ _ Hcode1 Hu1))).
      -- exact (proj2 (Forall_cons_1 _ _ _ (IHo _ _ _ _ Hc Hu2))).
    * injection Hotherwise as <-. split; [|constructor].
      exact (proj2 (Forall_cons_1 _ _ _ (IH1 _ _ _ _ Hcode1 Hcheck))).
  + simpl in Hbranches. apply bindR_OK in Hbranches as (bc1 & _ & Hbranches).
    apply bindR_OK in Hbranches as (bcs & Hbcs & Hbranches).
    apply bindR_OK in Hbcs as (bc2 & _ & Hbcs).
    apply bindR_OK in Hbcs as (bcs' & _ & Hbcs). injection Hbcs as <-.
    injection Hbranches as <-. destruct bc1. discriminate.
- (* Switch *)
  cbn [emitJITCode]. intros H.
  apply bindR_OK in H as (branchList & Hbranches & H).
  apply bindR_OK in H as (otherwiseCode & Hotherwise & H).
  destruct st; try discriminate. injection H as <-.
  cbn [checkSyntax]. intros Hcheck.
  apply bindR_OK in Hcheck as (us & Hus & Hcheck).
  constructor; [reflexivity|]. cbn [blockNodes]. apply Forall_app. split.
  + apply (mapR_checked (fun branch => blockNodes (snd branch)) _
             (fun bc => checkSyntax inLoop true (snd bc)) _ _ _)
      with (2 := Hbranches) (3 := Hus).
    eapply Forall_impl; [exact IHb|]. simpl. intros branch IH c u0 Hc Hu0.
    apply bindR_OK in Hc as (c1 & Hc1 & Hc). injection Hc as <-. simpl in Hu0.
    exact (proj2 (Forall_cons_1 _ _ _ (IH _ _ _ _ Hc1 Hu0))).
  + destruct otherwise as [block|]; [|constructor].
    apply bindR_OK in Hotherwise as (c & Hc & Ho). injection Ho as <-.
    exact (proj2 (Forall_cons_1 _ _ _ (IHo _ _ _ _ Hc Hcheck))).
- (* Loop *)
  cbn [emitJITCode]. destruct st; try discriminate. intros H Hcheck.
  apply bindR_OK in H as (bodyCode & Hbody & H).
  constructor; [reflexivity|]. cbn [blockNodes].
  destruct skipInitialCheck; injection H as <-; cbn [checkSyntax] in Hcheck.
  + destruct (option_map emitJITExpression condition); [|discriminate].
    exact (proj2 (Forall_cons_1 _ _ _ (IHbody _ _ _ _ Hbody Hcheck))).
  + exact (proj2 (Forall_cons_1 _ _ _ (IHbody _ _ _ _ Hbody Hcheck))).
- (* LoopInitializer *)
  cbn [emitJITCode]. intros H Hcheck.
  constructor; [reflexivity|]. cbn [blockNodes].
  exact (proj2 (Forall_cons_1 _ _ _ (IHmain _ _ _ _ H Hcheck))).
- (* Block *)
  cbn [emitJITCode]. intros H. apply bindR_OK in H as (codes & Hcodes & H).
  injection H as <-. cbn [checkSyntax]. intros Hcheck.
  apply bindR_OK in Hcheck as (us & Hus & _).
  constructor; [reflexivity|]. cbn [blockNodes].
  apply (mapR_checked (fun x => x :: blockNodes x) _ _ _ _ _)
    with (2 := Hcodes) (3 := Hus).
  eapply Forall_impl; [exact IHnodes|]. simpl. eauto.
Qed.

Lemma emitJITNode_narrow nodes program program' :
emitJITNode ids getBuiltIn nodes program = OK (tt, program') ->
Forall narrowT (flat_map (fun x => x :: blockNodes x) nodes).
Proof.
unfold emitJITNode. destruct nodes as [|entry rest]; [discriminate|].
intros H. apply bindR_OK in H as (code & Hcode & H).
apply bindR_OK in H as (us & Hus & _).
apply (mapR_checked (fun x => x :: blockNodes x) _ _ _ _ _)
  with (2 := Hcode) (3 := Hus).
apply Forall_forall. intros x _ c u. apply emitJITCode_narrow.
Qed.

Lemma forEach_narrow {A : Type} (g : A -> list FlowNode)
  (emit : A -> State (list (option ExecutionNode)) unit) l program program' :
Forall (fun a => forall p p', emit a p = OK (tt, p') -> Forall narrowT (g a)) l ->
forEach emit l program = OK (tt, program') ->
Forall narrowT (flat_map g l).
Proof.
intros Hl. revert program. induction Hl as [|a rest Ha _ IH]; intros program; simpl.
- constructor.
- intros H. apply bind_OK in H as ([] & p1 & H1 & H).
  apply Forall_app. split; eauto.
Qed.

Lemma unfused_narrow child :
negb (isIfSwitchLoop child) || negb (mergable child) = true -> narrow child = true.
Proof.
destruct child; simpl; try reflexivity. intros ->. reflexivity.
Qed.

Lemma emitNode_narrow node : forall program program',
emitNode ids getBuiltIn node program = OK (tt, program') ->
Forall narrowT (blockNodes node).
Proof.
induction node
  as [s st n m | s st n m | s st m
     | s st branches otherwise m n [IHb IHo]
     | s st branches otherwise m n [IHb IHo]
     | s st body n m IHbody | s main m IHmain | s st n m | s st m
     | s nodes n m IHnodes]
  using FlowNode_nested_ind; intros program program'; simpl;
  try (intros _; constructor).
- intros H. apply bind_OK in H as ([] & p1 & H1 & H).
  apply bind_OK in H as ([] & p2 & H2 & _).
  apply Forall_app. split.
  + exact (forEach_narrow (fun branch => blockNodes (snd branch)) _ _ _ _ IHb H1).
  + destruct otherwise as [block|]; [eauto|constructor].
- intros H. apply bind_OK in H as ([] & p1 & H1 & H).
  apply bind_OK in H as ([] & p2 & H2 & _).
  apply Forall_app. split.
  + exact (forEach_narrow (fun branch => blockNodes (snd branch)) _ _ _ _ IHb H1).
  + destruct otherwise as [block|]; [eauto|constructor].
- intros H. apply bind_OK in H as ([] & p1 & _ & H). eauto.
- intros H. apply bind_OK in H as ([] & p1 & _ & H). eauto.
- intros H.
  set (pairs := map (fun child => (child, emitNode ids getBuiltIn child)) nodes) in *.
  assert (Hpairs : Forall (fun pair : FlowNode * State (list (option ExecutionNode)) unit =>
                     forall p p', snd pair p = OK (tt, p') ->
                     Forall narrowT (blockNodes (fst pair))) pairs).
  { subst pairs. clear -IHnodes.
    induction IHnodes; simpl; constructor; assumption. }
  apply (splitArray_Forall _ _ (fun child => negb (mergable (fst child)))) in Hpairs.
  apply forEach_OK in H.
  assert (Hchunks : Forall (fun chunk =>
                      Forall narrowT
                        (flat_map (fun pair => fst pair :: blockNodes (fst pair)) chunk))
                      (splitArray pairs (fun child => negb (mergable (fst child))))).
  { apply Forall_forall. intros chunk Hchunk.
    rewrite Forall_forall in Hpairs. specialize (Hpairs _ Hchunk).
    rewrite Forall_forall in H. destruct (H _ Hchunk) as (p1 & p2 & Hemit).
    destruct chunk as [|[child emitChild] [|second rest]].
    - constructor.
    - apply Forall_cons_1 in Hpairs as [Hchild _]. simpl in Hchild, Hemit |- *.
      rewrite app_nil_r.
      destruct (negb (isIfSwitchLoop child) || negb (mergable child)) eqn:Ec.
      + constructor; [now apply unfused_narrow|eauto].
      + apply emitJITNode_narrow in Hemit. simpl in Hemit.
        now rewrite app_nil_r in Hemit.
    - apply emitJITNode_narrow in Hemit.
      now rewrite flat_map_concat_map, map_map, <- flat_map_concat_map in Hemit. }
  assert (Hall : Forall narrowT
                   (flat_map (fun pair : FlowNode * State (list (option ExecutionNode)) unit =>
                                fst pair :: blockNodes (fst pair))
                      (concat (splitArray pairs
                                 (fun child => negb (mergable (fst child))))))).
  { clear -Hchunks. induction Hchunks as [|chunk rest Hc _ IH]; simpl; [constructor|].
    rewrite flat_map_app. apply Forall_app. now split. }
  rewrite splitArray_joins in Hall. subst pairs.
  now rewrite flat_map_concat_map, map_map, <- flat_map_concat_map in Hall.
Qed.
End Narrow.

(** X18. A program that holds, at any depth, an If statement of two
    branches or more none of whose blocks calls a global function does not
    compile.  The node of such an If is marked mergable, so its code is
    emitted as text, in which the branches are joined by "else" with no
    space: `if (a){...}elseif (b){...}`, which is no JS. *)
Theorem compile_fused_else_if builtIns script :
  existsb elseIfFused script = true ->
  exists e, compileScript builtIns script = Throw e.
Proof.
  intros Hw. apply not_OK_throws.
  { apply compile_ends. intros key. apply getBuiltInFunction_ends. }
  intros program Hcompile. unfold compileScript, compile in Hcompile.
  apply bindR_OK in Hcompile as ([root ids] & Hflow & Hgen). simpl in Hgen.
  destruct (flowAnalyzePass_inv _ _ _ Hflow) as (st & lst & Elower & _ & _).
  unfold lowerRoot in Elower. unfold bind at 1 in Elower.
  unfold alloc at 1 in Elower. simpl allocated in Elower.
  apply bind_OK in Elower as (block & st1 & Hb & Hr). injection Hr as Hroot _.
  assert (Hwide : wideIn (blockNodes block)).
  { apply (toBlockFlowNode_wide toFlowNode script) with (2 := Hb); [|exact Hw].
    apply Forall_forall. intros s _. apply toFlowNode_wide. }
  unfold toBlockFlowNode in Hb.
  apply bind_OK in Hb as ([nodes last] & st2 & _ & Hb).
  unfold bind, alloc, ret in Hb. simpl in Hb. injection Hb as <- <-.
  unfold pushNode in Hroot. subst root. unfold nodeGenPass in Hgen.
  apply bindR_OK in Hgen as ([[] program1] & Hemit & _).
  apply emitNode_narrow in Hemit.
  destruct Hwide as (x & Hx & Ex).
  cbn [blockNodes] in Hx, Hemit. rewrite flat_map_app in Hemit.
  apply Forall_app in Hemit as [Hemit _].
  rewrite Forall_forall in Hemit. specialize (Hemit _ Hx).
  congruence.
Qed.

Lemma compile_fused_else_if_witness :
  exists e,
    compileScript ∅
      [IfStatement [(test (fun _ => true), [ExitStatement]);
                    (test (fun _ => true), [ExitStatement])] None]
    = Throw e.
Proof.
  apply (compile_fused_else_if ∅
           [IfStatement [(test (fun _ => true), [ExitStatement]);
                         (test (fun _ => true), [ExitStatement])] None]).
  reflexivity.
Defined.
(** ** Programs of expressions, Returns, Exits and one-branch Ifs, from
    compile to exec *)

Lemma structured_block block :
  emptyOr (fun s => negb (structured s)) block = false ->
  block <> [] /\ forallb structured block = true.
Proof.
  destruct block as [|s rest]; [discriminate|]. intros H. split; [discriminate|].
  unfold emptyOr in H. revert H. generalize (s :: rest). intros l.
  induction l as [|x l IH]; simpl; [reflexivity|].
  intros H. apply orb_false_iff in H as [Hx Hl].
  apply negb_false_iff in Hx. now rewrite Hx, IH.
Qed.

Lemma structured_if branches otherwise :
  structured (IfStatement branches otherwise) = true ->
  exists condition body,
    branches = [(condition, body)]
    /\ body <> [] /\ forallb structured body = true
    /\ match otherwise with
       | Some block => block <> [] /\ forallb structured block = true
       | None => True
       end.
Proof.
  destruct branches as [|[condition body] [|second rest]]; try discriminate.
  cbn [structured]. intros H. apply andb_true_iff in H as [Hb Ho].
  apply negb_true_iff in Hb. exists condition, body. split; [reflexivity|].
  destruct (structured_block _ Hb) as [Hne Hs]. split; [exact Hne|].
  split; [exact Hs|]. destruct otherwise as [block|]; [|exact I].
  apply negb_true_iff in Ho. now apply structured_block.
Qed.

Lemma structured_well_scoped labels inLoop statement :
  structured statement = true ->
  illScoped labels inLoop statement = false
  /\ hasEmptyBlock statement = false
  /\ callsGlobal statement = false.
Proof.
  induction statement
    as [expression async | functionName parameters builtIn async | value
       | branches otherwise [IHb IHo] | pattern branches otherwise [IHb IHo]
       | skip initializer condition iterator label body IHbody
       | label | | | type]
    using Statement_nested_ind; try discriminate; try (intros _; now repeat split).
  intros Hs. destruct (structured_if _ _ Hs) as (condition & body & -> & Hne & Hb & Ho).
  apply Forall_cons_1 in IHb as [IHb _]. simpl in IHb.
  assert (Hlist : forall block,
             Forall (fun s => structured s = true ->
                              illScoped labels inLoop s = false
                              /\ hasEmptyBlock s = false
                              /\ callsGlobal s = false) block ->
             block <> [] -> forallb structured block = true ->
             existsb (illScoped labels inLoop) block = false
             /\ emptyOr hasEmptyBlock block = false
             /\ existsb callsGlobal block = false).
  { intros block IH Hn Hstr.
    assert (existsb (illScoped labels inLoop) block = false
            /\ existsb hasEmptyBlock block = false
            /\ existsb callsGlobal block = false) as (? & ? & ?).
    { clear Hn. induction IH as [|x l Hx _ IHl]; simpl; [auto|].
      simpl in Hstr. apply andb_true_iff in Hstr as [Hx1 Hl1].
      destruct (Hx Hx1) as (-> & -> & ->). now apply IHl. }
    split; [assumption|]. split; [|assumption].
    destruct block; [contradiction|assumption]. }
  destruct (Hlist _ IHb Hne Hb) as (E1 & E2 & E3).
  cbn [illScoped hasEmptyBlock callsGlobal existsb snd]. rewrite E1, E2, E3.
  destruct otherwise as [block|]; [|auto].
  destruct Ho as [Hno Hso]. destruct (Hlist _ IHo Hno Hso) as (-> & -> & ->). auto.
Qed.

Lemma structured_program_well_scoped statements :
  forallb structured statements = true ->
  existsb (illScoped ∅ false) statements = false
  /\ existsb hasEmptyBlock statements = false.
Proof.
  induction statements as [|statement rest IH]; intros Hs; simpl; [auto|].
  simpl in Hs. apply andb_true_iff in Hs as [Hs1 Hs2].
  destruct (IH Hs2) as [-> ->].
  now destruct (structured_well_scoped ∅ false _ Hs1) as (-> & -> & _).
Qed.

Lemma fuses_code statements nodes ids getBuiltIn entry :
  Forall2 fusesAs statements nodes ->
  mapR (emitJITCode ids getBuiltIn entry) nodes
  = OK (map structuredCode statements).
Proof.
  induction 1 as [|statement node rest nodes' (_ & _ & Hcode) _ IH]; simpl;
    [reflexivity|].
  now rewrite Hcode, IH.
Qed.

Lemma fuses_mergable statements nodes :
  Forall2 fusesAs statements nodes -> forallb mergable nodes = true.
Proof.
  induction 1 as [|statement node rest nodes' (Hm & _) _ IH]; simpl; [reflexivity|].
  now rewrite Hm, IH.
Qed.

Section FusesLists.
Variable f : Statement -> oid -> Lower FlowNode.

Lemma lowerStatements_fuses statements :
Forall (statementFuses f) statements ->
forallb structured statements = true ->
forall successor st nodes last st',
  lowerStatements f statements successor st = OK ((nodes, last), st') ->
  Forall2 fusesAs statements nodes.
Proof.
induction 1 as [|statement rest Hs _ IH]; intros Hstr successor st nodes last st';
  simpl.
- intros [= <- <- <-]. constructor.
- simpl in Hstr. apply andb_true_iff in Hstr as [Hs1 Hs2].
  intros H. apply bind_OK in H as ([nodes1 last1] & st1 & H1 & H).
  apply bind_OK in H as (node & st2 & H2 & H). injection H as <- <- <-.
  constructor; [exact (Hs _ _ _ _ Hs1 H2)|]. exact (IH Hs2 _ _ _ _ _ H1).
Qed.

Lemma toBlockFlowNode_fuses statements :
Forall (statementFuses f) statements ->
forallb structured statements = true ->
forall successor st block st',
  toBlockFlowNode f statements successor st = OK (block, st') ->
  mergable block = true
  /\ forall ids getBuiltIn entry,
       emitJITCode ids getBuiltIn entry block
       = OK (JsBlock (map structuredCode statements)).
Proof.
intros Hs Hstr successor st block st' H. unfold toBlockFlowNode in H.
apply bind_OK in H as ([nodes last] & st1 & H1 & H).
unfold bind, alloc, ret in H. simpl in H. injection H as <- <-.
pose proof (lowerStatements_fuses _ Hs Hstr _ _ _ _ _ H1) as Hall.
split; [exact (fuses_mergable _ _ Hall)|].
intros ids getBuiltIn entry. cbn [emitJITCode].
now rewrite (fuses_code _ _ ids getBuiltIn entry Hall).
Qed.
End FusesLists.

Lemma toFlowNode_fuses statement : statementFuses toFlowNode statement.
Proof.
  induction statement
    as [expression async | functionName parameters builtIn async | value
       | branches otherwise [IHb IHo] | pattern branches otherwise [IHb IHo]
       | skip initializer condition iterator label body IHbody
       | label | | | type]
    using Statement_nested_ind; intros successor st node st'; try discriminate.
  - intros _. simpl. unfold bind, alloc, ret. simpl. intros [= <- <-].
    repeat split.
  - destruct value as [[l|e]|]; try discriminate;
      intros _; simpl; unfold bind, alloc, ret; simpl; intros [= <- <-];
      repeat split.
  - intros Hs H.
    destruct (structured_if _ _ Hs) as (condition & body & -> & Hne & Hb & Ho).
    apply Forall_cons_1 in IHb as [IHb _]. simpl in IHb.
    cbn [toFlowNode lowerIfBranches] in H.
    apply bind_OK in H as (flowBranches & st1 & H1 & H).
    apply bind_OK in H1 as (block & st0 & Hblock & H1).
    unfold bind, ret in H1. simpl in H1. injection H1 as <- <-.
    apply bind_OK in H as (flowOtherwise & st2 & H2 & H).
    unfold bind, alloc, ret in H. simpl in H. injection H as <- <-.
    destruct (toBlockFlowNode_fuses _ _ IHb Hb _ _ _ _ Hblock) as [Hm Hcode].
    assert (Hother :
      match flowOtherwise with
      | Some node => mergable node = true
      | None => True
      end
      /\ forall ids getBuiltIn entry,
           match flowOtherwise with
           | Some block => code <~ emitJITCode ids getBuiltIn entry block ;;
                           OK (Some code)
           | None => OK None
           end
           = OK (option_map (fun block => JsBlock (map structuredCode block))
                   otherwise)).
    { destruct otherwise as [block0|]; simpl in H2.
      - apply bind_OK in H2 as (node0 & st3 & Hb0 & H2). injection H2 as <- <-.
        destruct Ho as [_ Ho].
        destruct (toBlockFlowNode_fuses _ _ IHo Ho _ _ _ _ Hb0) as [Hm0 Hcode0].
        split; [exact Hm0|]. intros ids getBuiltIn entry. now rewrite Hcode0.
      - injection H2 as <- <-. split; [exact I|reflexivity]. }
    destruct Hother as [Hmo Hco].
    split; [|split; [reflexivity|]].
    + simpl. unfold branchesMergable. simpl. rewrite Hm. simpl.
      destruct flowOtherwise; [exact Hmo|reflexivity].
    + intros ids getBuiltIn entry. cbn [emitJITCode mapR snd fst].
      rewrite Hcode. simpl bindR at 1. rewrite Hco. reflexivity.
  - intros _. simpl. unfold bind, alloc, ret. simpl. intros [= <- <-].
    repeat split.
Qed.

Lemma structured_if_expressions condition body otherwise :
  Forall splicesAsWritten
    (expressionsOf (IfStatement [(condition, body)] otherwise)) ->
  splicesAsWritten condition
  /\ Forall splicesAsWritten (flat_map expressionsOf body)
  /\ match otherwise with
     | Some block => Forall splicesAsWritten (flat_map expressionsOf block)
     | None => True
     end.
Proof.
  cbn [expressionsOf flat_map fst snd]. rewrite app_nil_r. intros H.
  apply Forall_app in H as [H Ho]. apply Forall_cons_1 in H as [Hc Hb].
  split; [exact Hc|]. split; [exact Hb|]. now destruct otherwise.
Qed.

Lemma structured_code_checks statement :
  structured statement = true ->
  Forall splicesAsWritten (expressionsOf statement) ->
  forall inLoop inSwitch,
    checkSyntax inLoop inSwitch (structuredCode statement) = OK tt.
Proof.
  induction statement
    as [expression async | functionName parameters builtIn async | value
       | branches otherwise [IHb IHo] | pattern branches otherwise [IHb IHo]
       | skip initializer condition iterator label body IHbody
       | label | | | type]
    using Statement_nested_ind; try discriminate.
  - intros _ Hw inLoop inSwitch. apply Forall_cons_1 in Hw as [[Hc _] _].
    exact Hc.
  - destruct value as [[l|e]|]; try discriminate; intros _ Hw inLoop inSwitch;
      [|reflexivity].
    apply Forall_cons_1 in Hw as [[Hc _] _]. exact Hc.
  - intros Hs Hw inLoop inSwitch.
    destruct (structured_if _ _ Hs) as (condition & body & -> & Hne & Hb & Ho).
    destruct (structured_if_expressions _ _ _ Hw) as (_ & Hwb & Hwo).
    apply Forall_cons_1 in IHb as [IHb _]. simpl in IHb.
    assert (Hblock : forall block,
               Forall (fun s => structured s = true ->
                                Forall splicesAsWritten (expressionsOf s) ->
                                forall inLoop inSwitch,
                                  checkSyntax inLoop inSwitch (structuredCode s)
                                  = OK tt) block ->
               forallb structured block = true ->
               Forall splicesAsWritten (flat_map expressionsOf block) ->
               checkSyntax inLoop inSwitch (JsBlock (map structuredCode block))
               = OK tt).
    { intros block IH Hstr Hwr. cbn [checkSyntax].
      assert (exists checked,
                 mapR (checkSyntax inLoop inSwitch) (map structuredCode block)
                 = OK checked) as (checked & ->); [|reflexivity].
      induction IH as [|x l Hx _ IHl]; simpl; [eauto|].
      simpl in Hstr. apply andb_true_iff in Hstr as [Hx1 Hl1].
      cbn [flat_map] in Hwr. apply Forall_app in Hwr as [Hwx Hwl].
      rewrite (Hx Hx1 Hwx). simpl.
      destruct (IHl Hl1 Hwl) as (checked & ->). simpl. eauto. }
    cbn [structuredCode map fst snd].
    destruct otherwise as [block|]; cbn [option_map].
    + change (bindR (checkSyntax inLoop inSwitch (JsBlock (map structuredCode body)))
                (fun _ => checkSyntax inLoop inSwitch
                            (JsBlock (map structuredCode block)))
              = OK tt).
      rewrite (Hblock _ IHb Hb Hwb). simpl bindR. destruct Ho as [_ Ho].
      exact (Hblock _ IHo Ho Hwo).
    + exact (Hblock _ IHb Hb Hwb).
  - reflexivity.
Qed.

Lemma structured_codes_check statements :
  forallb structured statements = true ->
  Forall splicesAsWritten (flat_map expressionsOf statements) ->
  exists checked,
    mapR (checkSyntax false false) (map structuredCode statements) = OK checked.
Proof.
  induction statements as [|statement rest IH]; intros Hs Hw; simpl; [eauto|].
  simpl in Hs. apply andb_true_iff in Hs as [Hs1 Hs2].
  cbn [flat_map] in Hw. apply Forall_app in Hw as [Hw1 Hw2].
  rewrite (structured_code_checks _ Hs1 Hw1). simpl.
  destruct (IH Hs2 Hw2) as (checked & ->). simpl. eauto.
Qed.

(** The code of a list of such statements does what the statements say,
    when the code of each does. *)
Lemma structured_list_runs fuel statements :
  Forall (fun s => structured s = true ->
                   Forall splicesAsWritten (expressionsOf s) ->
                   forall scope,
                     evalStmt fuel (structuredCode s) scope
                     = OK (completionOf (fst (runStatement s scope)),
                           snd (runStatement s scope))) statements ->
  forallb structured statements = true ->
  Forall splicesAsWritten (flat_map expressionsOf statements) ->
  forall scope,
    evalStatements (evalStmt fuel) (map structuredCode statements) scope
    = OK (completionOf (fst (runStatements runStatement statements scope)),
          snd (runStatements runStatement statements scope)).
Proof.
  induction 1 as [|statement rest Hs _ IH]; intros Hstr Hw scope; [reflexivity|].
  simpl in Hstr. apply andb_true_iff in Hstr as [Hs1 Hs2].
  cbn [flat_map] in Hw. apply Forall_app in Hw as [Hw1 Hw2].
  cbn [map evalStatements runStatements]. rewrite (Hs Hs1 Hw1). simpl bindR.
  destruct (runStatement statement scope) as [[r|] scope']; simpl; [reflexivity|].
  apply (IH Hs2 Hw2).
Qed.

Lemma structured_code_runs statement :
  structured statement = true ->
  Forall splicesAsWritten (expressionsOf statement) ->
  forall fuel scope,
    (depth statement <= fuel)%nat ->
    evalStmt fuel (structuredCode statement) scope
    = OK (completionOf (fst (runStatement statement scope)),
          snd (runStatement statement scope)).
Proof.
  induction statement
    as [expression async | functionName parameters builtIn async | value
       | branches otherwise [IHb IHo] | pattern branches otherwise [IHb IHo]
       | skip initializer condition iterator label body IHbody
       | label | | | type]
    using Statement_nested_ind; try discriminate.
  - intros _ Hw [|fuel] scope Hd; [simpl in Hd; lia|].
    apply Forall_cons_1 in Hw as [He _]. exact (spliced_expression_runs _ _ _ He).
  - destruct value as [[l|e]|]; try discriminate;
      intros _ Hw [|fuel] scope Hd; try (simpl in Hd; lia); [|reflexivity].
    apply Forall_cons_1 in Hw as [He _]. exact (spliced_return_runs _ _ _ He).
  - intros Hs Hw fuel scope Hd.
    destruct (structured_if _ _ Hs) as (condition & body & -> & Hne & Hb & Ho).
    destruct (structured_if_expressions _ _ _ Hw) as ([_ Hc] & Hwb & Hwo).
    apply Forall_cons_1 in IHb as [IHb _]. simpl in IHb.
    cbn [depth map snd] in Hd. unfold list_max at 1 in Hd. cbn [fold_right] in Hd.
    destruct fuel as [|[|fuel]]; try lia.
    assert (Hblock : forall block,
               Forall (fun s => structured s = true ->
                                Forall splicesAsWritten (expressionsOf s) ->
                                forall fuel scope, (depth s <= fuel)%nat ->
                                  evalStmt fuel (structuredCode s) scope
                                  = OK (completionOf (fst (runStatement s scope)),
                                        snd (runStatement s scope))) block ->
               forallb structured block = true ->
               Forall splicesAsWritten (flat_map expressionsOf block) ->
               (list_max (map depth block) <= fuel)%nat ->
               forall scope1,
                 evalStmt (S fuel) (JsBlock (map structuredCode block)) scope1
                 = OK (completionOf (fst (runStatements runStatement block scope1)),
                       snd (runStatements runStatement block scope1))).
    { intros block IH Hstr Hwr Hmax scope1. cbn [evalStmt].
      apply structured_list_runs; [|exact Hstr|exact Hwr].
      apply list_max_le in Hmax. rewrite Forall_map in Hmax.
      apply Forall_forall. intros s Hin Hss Hws scope2.
      rewrite Forall_forall in IH, Hmax.
      apply (IH _ Hin Hss Hws). exact (Hmax _ Hin). }
    cbn [structuredCode map fst snd evalStmt runStatement].
    rewrite Hc. simpl bindR. cbn [fst snd].
    destruct (truthy (fst (condition scope))).
    + apply (Hblock _ IHb Hb Hwb). lia.
    + destruct otherwise as [block|]; cbn [option_map].
      * destruct Ho as [_ Ho]. apply (Hblock _ IHo Ho Hwo). lia.
      * reflexivity.
  - intros _ _ [|fuel] scope Hd; [simpl in Hd; lia|]. reflexivity.
Qed.

Lemma fuses_unsplit statements nodes
    (emit : FlowNode -> State (list (option ExecutionNode)) unit) :
  Forall2 fusesAs statements nodes ->
  splitArray (map (fun child => (child, emit child)) nodes)
    (fun child => negb (mergable (fst child)))
  = [map (fun child => (child, emit child)) nodes].
Proof.
  intros H. apply splitArray_unsplit.
  induction H as [|s n ss ns (Hm & _) _ IH]; simpl; constructor; [|exact IH].
  simpl. now rewrite Hm.
Qed.

(** What [compile] makes of such a program: one fused step at index 0, the
    code of the statements followed by that of the implicit Return. *)
Lemma compile_structured statements getBuiltIn :
  forallb structured statements = true ->
  Forall splicesAsWritten (flat_map expressionsOf statements) ->
  statements <> [] ->
  exists program,
    compile statements getBuiltIn = OK program
    /\ forall fuel scope,
         execNode program 0 fuel scope
         = jitFunction (map structuredCode statements
                        ++ [JsReturn (JsReturnValue (JsText "undefined"))])
             fuel scope.
Proof.
  intros Hs Hw Hne. unfold compile.
  destruct (structured_program_well_scoped _ Hs) as [Hscoped Hfull].
  pose proof (flowAnalyzePass_cases statements) as Hflow.
  destruct (flowAnalyzePass statements) as [[root ids]|e|] eqn:Eflow;
    [clear Hflow|destruct Hflow; congruence|contradiction].
  destruct (flowAnalyzePass_inv _ _ _ Eflow) as (st & lst & Elower & _ & _).
  unfold lowerRoot in Elower. unfold bind at 1 in Elower.
  unfold alloc at 1 in Elower. simpl in Elower.
  apply bind_OK in Elower as (block & st1 & Hb & Hr). injection Hr as Hroot _.
  unfold toBlockFlowNode in Hb.
  apply bind_OK in Hb as ([nodes last] & st2 & Hn & Hb).
  unfold bind, alloc, ret in Hb. simpl in Hb. injection Hb as <- <-.
  unfold pushNode in Hroot.
  assert (Hfuses : Forall (statementFuses toFlowNode) statements).
  { apply Forall_forall. intros s _. apply toFlowNode_fuses. }
  pose proof (lowerStatements_fuses _ _ Hfuses Hs _ _ _ _ _ Hn) as Hnodes.
  assert (Hret : fusesAs (ReturnStatement None)
                   (ReturnFlowNode 0%nat (ReturnStatement None) true)).
  { repeat split. }
  assert (Hall : Forall2 fusesAs (statements ++ [ReturnStatement None])
                   (nodes ++ [ReturnFlowNode 0%nat (ReturnStatement None) true])).
  { apply Forall2_app; [exact Hnodes|]. constructor; [exact Hret|constructor]. }
  destruct nodes as [|first others].
  { apply Forall2_nil_inv_r in Hnodes. contradiction. }
  assert (Hfirst : idOf ids (self first) = 0).
  { apply (flowAnalyzePass_numbered _ _ _ 0%nat _ Eflow). subst root.
    inversion Hnodes as [|s0 n0 ss ns (_ & Hb0 & _) _]; subst.
    destruct first; try discriminate Hb0; reflexivity. }
  simpl. subst root. unfold nodeGenPass. rewrite emitNode_block.
  rewrite (fuses_unsplit _ _ (emitNode ids getBuiltIn) Hall).
  destruct (structured_codes_check (statements ++ [ReturnStatement None]))
    as (checked & Hchecked).
  { rewrite forallb_app, Hs. reflexivity. }
  { rewrite flat_map_app. apply Forall_app. split; [exact Hw|constructor]. }
  pose proof (fuses_code _ _ ids getBuiltIn (idOf ids (self first)) Hall) as Hcode.
  assert (Hemit : forall program0,
    emitChunk ids getBuiltIn
      (map (fun child => (child, emitNode ids getBuiltIn child))
         ((first :: others) ++ [ReturnFlowNode 0%nat (ReturnStatement None) true]))
      program0
    = OK (tt, setNode 0
                (jitFunction (map structuredCode
                                (statements ++ [ReturnStatement None])))
                program0)).
  { intros program0.
    change ((first :: others) ++ [ReturnFlowNode 0%nat (ReturnStatement None) true])
      with (first :: (others ++ [ReturnFlowNode 0%nat (ReturnStatement None) true]))
      in Hcode |- *.
    destruct (others ++ [ReturnFlowNode 0%nat (ReturnStatement None) true])
      as [|second others'] eqn:Eothers.
    { now destruct others. }
    rewrite emitChunk_fused, emitJITNode_cons, Hcode. simpl bindR at 1.
    rewrite Hchecked. simpl. now rewrite Hfirst. }
  simpl forEach. unfold bind. rewrite Hemit. simpl.
  eexists. split; [reflexivity|].
  intros fuel scope. rewrite execNode_setNode by lia.
  now rewrite map_app.
Qed.

(** The code of such a program, with the code of the implicit Return after
    it, does what the statements say. *)
Lemma structured_program_runs fuel statements scope :
  forallb structured statements = true ->
  Forall splicesAsWritten (flat_map expressionsOf statements) ->
  (list_max (map depth statements) <= S fuel)%nat ->
  evalStatements (evalStmt (S fuel))
    (map structuredCode statements
     ++ [JsReturn (JsReturnValue (JsText "undefined"))]) scope
  = OK (JsReturned
          (opOf (resultOf (fst (runStatements runStatement statements scope)))),
        snd (runStatements runStatement statements scope)).
Proof.
  revert scope. induction statements as [|statement rest IH]; intros scope Hs Hw Hd.
  - reflexivity.
  - simpl in Hs. apply andb_true_iff in Hs as [Hs1 Hs2].
    cbn [flat_map] in Hw. apply Forall_app in Hw as [Hw1 Hw2].
    cbn [map list_max fold_right] in Hd. unfold list_max in Hd.
    cbn [fold_right] in Hd. fold (list_max (map depth rest)) in Hd.
    cbn [map app evalStatements runStatements].
    rewrite (structured_code_runs _ Hs1 Hw1) by lia. simpl bindR.
    destruct (runStatement statement scope) as [[r|] scope']; simpl; [reflexivity|].
    apply IH; [exact Hs2|exact Hw2|lia].
Qed.

(** X19. A program of expression statements, Returns of nothing or of a
    computed value, Exits and one-branch Ifs (with or without an otherwise
    block, their blocks not empty and of such statements) is compiled into
    one fused step, and [exec] does what the statements say: the statements
    run in order, an If evaluates its condition once and runs its block
    when the value is truthy and else the otherwise block, and the first
    Return or Exit that is reached ends the run; [exec] resolves to the
    returned value, to [undefined] when the program runs off its end, or to
    the exit sentinel, and the environment is the one the statements left.
    This is so for expressions and conditions that splice as they are
    written: arrow functions over [({ local, args, env })] whose body is
    one expression that names nothing else. *)
Theorem exec_structured interpreter statements fuel args env0 :
  forallb structured statements = true ->
  Forall splicesAsWritten (flat_map expressionsOf statements) ->
  (list_max (map depth statements) <= S fuel)%nat ->
  exec interpreter (S (S fuel)) statements args env0
  = OK (resultOf (fst (runStatements runStatement statements (mkScope args ∅ env0))),
        mkContext
          (env (snd (runStatements runStatement statements (mkScope args ∅ env0))))
          [] [[0]]).
Proof.
  intros Hs Hw Hd. destruct statements as [|statement rest]; [reflexivity|].
  destruct (compile_structured (statement :: rest)
              (getBuiltInFunction (builtInFunctionMap interpreter)) Hs Hw)
    as (program & Hcompile & Hstep); [discriminate|].
  unfold exec, compileScript. rewrite Hcompile. simpl bindR.
  unfold execExecutable, call.
  destruct (run_ends_frame interpreter fuel
              (mkContext env0 [mkIterator program args ∅ 0 VUndefined] [])
              (mkIterator program args ∅ 0 VUndefined) []
              (resultOf (fst (runStatements runStatement (statement :: rest)
                                (mkScope args ∅ env0))))
              (snd (runStatements runStatement (statement :: rest)
                      (mkScope args ∅ env0))))
    as (this' & Hrun).
  - reflexivity.
  - simpl. lia.
  - simpl executable. simpl current. rewrite Hstep. unfold jitFunction, scopeOf.
    simpl parameters. simpl context. simpl contextEnv.
    rewrite (structured_program_runs fuel (statement :: rest));
      [reflexivity|exact Hs|exact Hw|exact Hd].
  - simpl contextEnv. simpl callStack. simpl snapshots. rewrite Hrun. reflexivity.
Qed.

Lemma exec_structured_witness :
  exec handInterpreter 4
    [ExpressionStatement (assign "k" (fun _ => 4)) false;
     IfStatement [(test (fun m => num m "k" =? 4),
                   [ExpressionStatement (assign "k" (fun m => num m "k" + 1)) false])]
       (Some [ExitStatement]);
     ReturnStatement (Some (Fun (read "k")))] ∅ ∅
  = OK (Resolved (VNum 5), mkContext ∅ [] [[0]]).
Proof.
  apply (exec_structured handInterpreter
           [ExpressionStatement (assign "k" (fun _ => 4)) false;
            IfStatement [(test (fun m => num m "k" =? 4),
                          [ExpressionStatement (assign "k" (fun m => num m "k" + 1))
                             false])]
              (Some [ExitStatement]);
            ReturnStatement (Some (Fun (read "k")))] 2 ∅ ∅).
  - reflexivity.
  - repeat constructor.
  - vm_compute. lia.
Defined.
